(** * Word-frequency counter (homework-1): model and verification

    A shallow embedding of the concurrent word counter: the tokenizer
    [parse_line_and_count], the queue [ThreadSafeQueue], the worker
    [consumer], the sharded table [global_counts] and the ranking done in
    [main], with the properties of its specification stated over them;
    and the counter behind the C interface of [counter.hpp], with its
    client. *)

From Stdlib Require Import ZArith Ascii String.
From stdpp Require Import gmap gmultiset strings list fin_maps sorting.

Local Open Scope Z_scope.

(** ** Machine integers *)

(** [uint64_t] and [size_t] are 64-bit unsigned; [int] is 32-bit signed. *)
Definition UINT64_MOD : Z := 2 ^ 64.
Definition INT_MIN : Z := - 2 ^ 31.
Definition INT_MAX : Z := 2 ^ 31 - 1.

(** [static_cast<size_t>(n)] for an [int] n. *)
Definition size_t_of_int (n : Z) : Z := n mod UINT64_MOD.

(** ** Characters ([<cctype>] in the "C" locale, on [unsigned char]) *)

Definition uchar (c : ascii) : N := N_of_ascii c.

Definition isdigit (c : ascii) : bool := ((48 <=? uchar c) && (uchar c <=? 57))%N.
Definition isupper (c : ascii) : bool := ((65 <=? uchar c) && (uchar c <=? 90))%N.
Definition islower (c : ascii) : bool := ((97 <=? uchar c) && (uchar c <=? 122))%N.
Definition isalpha (c : ascii) : bool := isupper c || islower c.
Definition isalnum (c : ascii) : bool := isalpha c || isdigit c.

Definition tolower (c : ascii) : ascii :=
  if isupper c then ascii_of_N (uchar c + 32) else c.

(** [is_word_char]: alphanumeric or underscore. *)
Definition is_word_char (c : ascii) : bool :=
  isalnum c || bool_decide (c = "_"%char).

(** ** Count tables ([std::unordered_map<std::string, uint64_t>]) *)

(** [m[w]] read: a missing key reads as the value-initialised 0. *)
Definition count_of (m : gmap string Z) (w : string) : Z :=
  default 0 (m !! w).

(** [m[w] += c] on [uint64_t]: creates the entry when absent, wraps. *)
Definition add_count (w : string) (c : Z) (m : gmap string Z) : gmap string Z :=
  <[w := (count_of m w + c) mod UINT64_MOD]> m.

(** [m[w]++]. *)
Definition incr (w : string) (m : gmap string Z) : gmap string Z :=
  add_count w 1 m.

(** ** The tokenizer *)

Definition strlen (s : string) : Z := Z.of_nat (String.length s).

(** [current_word.length() >= static_cast<size_t>(min_len)] *)
Definition long_enough (min_len : Z) (current_word : string) : bool :=
  bool_decide (size_t_of_int min_len <= strlen current_word).

(** The two places where the candidate token is counted or dropped. *)
Definition flush (min_len : Z) (current_word : string)
    (local_map : gmap string Z) : gmap string Z :=
  if long_enough min_len current_word then incr current_word local_map
  else local_map.

(** The range-for over the characters of the line, with the loop state
    ([current_word], [local_map]) passed along; the end of the string is
    the code after the loop. *)
Fixpoint scan (line : string) (min_len : Z) (current_word : string)
    (local_map : gmap string Z) : gmap string Z :=
  match line with
  | EmptyString => flush min_len current_word local_map
  | String c rest =>
      if is_word_char c
      then scan rest min_len (current_word +:+ String (tolower c) EmptyString) local_map
      else scan rest min_len EmptyString (flush min_len current_word local_map)
  end.

Definition parse_line_and_count (line : string) (min_len : Z)
    (local_map : gmap string Z) : gmap string Z :=
  scan line min_len EmptyString local_map.

(** ** Reading a file line by line *)

Definition newline : ascii := "010"%char.

(** The loop [while (std::getline(file, line))] over the unread part of
    the stream: a line ends at a newline, which is dropped, or at the end
    of the stream; a read at the end of the stream that extracts nothing
    fails and ends the loop. [line] holds the characters extracted so far. *)
Fixpoint getline_loop (stream : string) (line : string) : list string :=
  match stream with
  | EmptyString => if bool_decide (line = EmptyString) then [] else [line]
  | String c rest =>
      if bool_decide (c = newline) then line :: getline_loop rest EmptyString
      else getline_loop rest (line +:+ String c EmptyString)
  end.

(** The body of the worker loop for a file that opened. *)
Definition consume_file (content : string) (min_len : Z)
    (local_counts : gmap string Z) : gmap string Z :=
  foldl (λ m line, parse_line_and_count line min_len m) local_counts
        (getline_loop content EmptyString).

(** ** ThreadSafeQueue *)

Record ThreadSafeQueue := mkQueue {
  q : list string;
  producer_done : bool;
}.

Definition new_queue : ThreadSafeQueue := mkQueue [] false.

Definition push (file_path : string) (Q : ThreadSafeQueue) : ThreadSafeQueue :=
  mkQueue (q Q ++ [file_path]) (producer_done Q).

(** What a call of [pop] does once it holds the mutex: it stays in
    [cv.wait] while the queue is empty and not done; otherwise it returns
    false, or the front item and true. *)
Inductive pop_result :=
  | Waits
  | PopFalse
  | PopTrue (file_path : string) (Q' : ThreadSafeQueue).

Definition pop (Q : ThreadSafeQueue) : pop_result :=
  match q Q with
  | [] => if producer_done Q then PopFalse else Waits
  | file_path :: rest => PopTrue file_path (mkQueue rest (producer_done Q))
  end.

Definition set_done (Q : ThreadSafeQueue) : ThreadSafeQueue :=
  mkQueue (q Q) true.

(** ** Ranking: the comparator and [std::partial_sort] *)

(** The lambda given to [std::partial_sort]: count descending, then word
    ascending ([std::string::operator<] compares bytes as unsigned). *)
Definition comp (a b : string * Z) : bool :=
  if bool_decide (a.2 ≠ b.2) then bool_decide (a.2 > b.2)
  else String.ltb a.1 b.1.

(** [select_first x l]: the element of [x :: l] that no other precedes
    under [comp] (the earliest such), and the others. *)
Fixpoint select_first (x : string * Z) (l : list (string * Z))
    : (string * Z) * list (string * Z) :=
  match l with
  | [] => (x, [])
  | y :: l' =>
      if comp y x
      then let '(m, rest) := select_first y l' in (m, x :: rest)
      else let '(m, rest) := select_first x l' in (m, y :: rest)
  end.

(** [std::partial_sort(first, first + k, last, comp)] as a selection sort
    of the first [k] places: the standard fixes the first [k] elements (the
    [k] smallest, in order) and leaves the order of the others open. *)
Fixpoint partial_sort (k : nat) (l : list (string * Z)) : list (string * Z) :=
  match k, l with
  | O, _ => l
  | S _, [] => []
  | S k', x :: l' =>
      let '(m, rest) := select_first x l' in m :: partial_sort k' rest
  end.

(** The end of [main]: [count_to_show], the partial sort and the lines
    printed, as the sequence of (word, count) pairs. *)
Definition count_to_show (top_m : Z) (sorted_words : list (string * Z)) : nat :=
  Z.to_nat (Z.min (size_t_of_int top_m) (Z.of_nat (length sorted_words))).

Definition ranked_output (top_m : Z) (sorted_words : list (string * Z))
    : list (string * Z) :=
  take (count_to_show top_m sorted_words)
       (partial_sort (count_to_show top_m sorted_words) sorted_words).

(** ** Command line *)

Record Config := mkConfig {
  threads : Z;
  top_m : Z;
  min_len : Z;
  dir_path : string;
}.

Definition isspace (c : ascii) : bool :=
  (bool_decide (uchar c = 32) || ((9 <=? uchar c) && (uchar c <=? 13)))%N.

Fixpoint skip_spaces (s : string) : string :=
  match s with
  | String c rest => if isspace c then skip_spaces rest else s
  | EmptyString => s
  end.

(** The decimal digits at the front of [s]: their value, if there is one. *)
Fixpoint leading_digits (s : string) (acc : option Z) : option Z :=
  match s with
  | String c rest =>
      if isdigit c
      then leading_digits rest
             (Some (10 * default 0 acc + Z.of_N (uchar c - 48)))
      else acc
  | EmptyString => acc
  end.

(** [std::stoi]: blanks, an optional sign, digits; [None] stands for the
    exception thrown when there is no digit or the value is no [int]. *)
Definition stoi (s : string) : option Z :=
  let s := skip_spaces s in
  let '(neg, s) :=
    match s with
    | String "-" rest => (true, rest)
    | String "+" rest => (false, rest)
    | _ => (false, s)
    end in
  match leading_digits s None with
  | None => None
  | Some v =>
      let v := if neg : bool then - v else v in
      if bool_decide (INT_MIN <= v <= INT_MAX) then Some v else None
  end.

Inductive parse_result :=
  | Parsed (config : Config)
  | Refused (diagnostics : list string)
  | Throws.

(** The option loop of [parse_args] over [argv[1 .. argc-2]]; an option
    takes its value only from inside that range. *)
Fixpoint parse_options (args : list string) (config : Config) : parse_result :=
  match args with
  | [] => Parsed config
  | arg :: rest =>
      match rest with
      | value :: rest' =>
          if bool_decide (arg = "--threads") then
            match stoi value with
            | Some n => parse_options rest'
                (mkConfig n (top_m config) (min_len config) (dir_path config))
            | None => Throws
            end
          else if bool_decide (arg = "--top") then
            match stoi value with
            | Some n => parse_options rest'
                (mkConfig (threads config) n (min_len config) (dir_path config))
            | None => Throws
            end
          else if bool_decide (arg = "--minlen") then
            match stoi value with
            | Some n => parse_options rest'
                (mkConfig (threads config) (top_m config) n (dir_path config))
            | None => Throws
            end
          else Refused ["Unknown argument: " +:+ arg +:+ String newline EmptyString]
      | [] => Refused ["Unknown argument: " +:+ arg +:+ String newline EmptyString]
      end
  end.

(** ** The concurrent program *)

Definition NUM_SHARDS : N := 16.

(** A worker thread, by the place it has reached in [consumer]. *)
Inductive worker :=
  | Popping (local_counts : gmap string Z)
      (** at [queue.pop(file_path)] *)
  | Reading (local_counts : gmap string Z) (file_path : string)
      (** popped [file_path], about to open and read it *)
  | Merging (unmerged : gmap string Z)
      (** in the final range-for, with these entries still to visit *)
  | Exited
  | Writing (local_counts : gmap string Z) (insertions : list string).
      (** in the statement that reports a file that did not open, with
          these insertions into [std::cerr] still to make *)

(** The whole program after the workers were created. [pending] is what
    the directory iterator has still to yield, each entry with the answer
    of [fs::is_regular_file]; [iter_error] is the [filesystem_error] it
    ends with, if any; [catching] is what the handler in [main] has still
    to insert into [std::cerr]. [cerr] is what has been inserted into
    [std::cerr], insertion by insertion: the stream is unit-buffered and
    no lock is held over a statement, so every [<<] of a thread reaches it
    on its own, and the insertions of different threads interleave. *)
Record state := mkState {
  pending : list (string * bool);
  iter_error : option string;
  catching : list string;
  queue : ThreadSafeQueue;
  workers : list worker;
  global_counts : list (gmap string Z);
  cerr : list string;
}.

(** The atomic actions of the threads: those of the main thread, and
    those of worker [i]. The queue operations are atomic by the queue's
    mutex, a merge by the shard's mutex; reading a file touches only the
    worker's own table; an insertion into [std::cerr] is one write. *)
Inductive action :=
  | Walk
  | Catch
  | CatchWrite
  | SetDone
  | Pop (i : nat)
  | ReadFile (i : nat)
  | Write (i : nat)
  | Merge (i : nat) (word : string)
  | Exit (i : nat).

Definition set_worker (i : nat) (w : worker) (s : state) : state :=
  mkState (pending s) (iter_error s) (catching s) (queue s)
          (<[i := w]> (workers s)) (global_counts s) (cerr s).

Definition set_queue (Q : ThreadSafeQueue) (s : state) : state :=
  mkState (pending s) (iter_error s) (catching s) Q (workers s)
          (global_counts s) (cerr s).

(** One insertion into [std::cerr]. *)
Definition write_cerr (insertion : string) (s : state) : state :=
  mkState (pending s) (iter_error s) (catching s) (queue s) (workers s)
          (global_counts s) (cerr s ++ [insertion]).

Definition endl : string := String newline EmptyString.

(** [operator<<] for an [fs::path] writes it as [std::quoted] does:
    between double quotes, with a backslash before every double quote and
    backslash of the path. *)
Definition dquote : ascii := "034"%char.
Definition backslash : ascii := "092"%char.

Fixpoint escaped (s : string) : string :=
  match s with
  | EmptyString => EmptyString
  | String c s' =>
      if bool_decide (c = dquote ∨ c = backslash)
      then String backslash (String c (escaped s'))
      else String c (escaped s')
  end.

Definition quoted (file_path : string) : string :=
  String dquote (escaped file_path +:+ String dquote EmptyString).

(** The line a worker writes for a file that does not open, and the
    three insertions it writes it with. *)
Definition open_failure (file_path : string) : string :=
  "Failed to open file: " +:+ quoted file_path +:+ endl.

Definition open_failure_insertions (file_path : string) : list string :=
  ["Failed to open file: "; quoted file_path; endl].

(** The three insertions of the handler in [main]. *)
Definition walk_failure_insertions (what : string) : list string :=
  ["Filesystem error: "; what; endl].

Section Program.

(** The environment: [std::hash<std::string>], and the content of the
    files that open. *)
Variable hash : string → N.
Variable open_file : string → option string.

Definition get_shard_index (word : string) : nat :=
  N.to_nat (hash word mod NUM_SHARDS).

(** [global_counts[shard][word] += count] *)
Definition merge_entry (word : string) (count : Z)
    (global : list (gmap string Z)) : list (gmap string Z) :=
  alter (add_count word count) (get_shard_index word) global.

(** One action. [ReadFile] on a file that does not open takes the worker
    into the statement that reports it; [Write] makes the next insertion
    of that statement, or leaves it when none is left ([continue]).
    [Catch] enters the handler in [main], and [CatchWrite] makes its next
    insertion. *)
Definition step (min_len : Z) (a : action) (s : state) : option state :=
  match a with
  | Walk =>
      match pending s with
      | (path, regular) :: rest =>
          Some (mkState rest (iter_error s) (catching s)
                  (if regular : bool then push path (queue s) else queue s)
                  (workers s) (global_counts s) (cerr s))
      | [] => None
      end
  | Catch =>
      match pending s, iter_error s with
      | [], Some what =>
          Some (mkState [] None (walk_failure_insertions what) (queue s)
                  (workers s) (global_counts s) (cerr s))
      | _, _ => None
      end
  | CatchWrite =>
      match catching s with
      | insertion :: rest =>
          Some (mkState (pending s) (iter_error s) rest (queue s)
                  (workers s) (global_counts s) (cerr s ++ [insertion]))
      | [] => None
      end
  | SetDone =>
      match pending s, iter_error s, catching s, producer_done (queue s) with
      | [], None, [], false => Some (set_queue (set_done (queue s)) s)
      | _, _, _, _ => None
      end
  | Pop i =>
      match workers s !! i with
      | Some (Popping local_counts) =>
          match pop (queue s) with
          | Waits => None
          | PopFalse => Some (set_worker i (Merging local_counts) s)
          | PopTrue file_path Q' =>
              Some (set_worker i (Reading local_counts file_path)
                      (set_queue Q' s))
          end
      | _ => None
      end
  | ReadFile i =>
      match workers s !! i with
      | Some (Reading local_counts file_path) =>
          match open_file file_path with
          | None =>
              Some (set_worker i
                      (Writing local_counts
                         (open_failure_insertions file_path)) s)
          | Some content =>
              Some (set_worker i
                      (Popping (consume_file content min_len local_counts)) s)
          end
      | _ => None
      end
  | Write i =>
      match workers s !! i with
      | Some (Writing local_counts (insertion :: rest)) =>
          Some (set_worker i (Writing local_counts rest)
                  (write_cerr insertion s))
      | Some (Writing local_counts []) =>
          Some (set_worker i (Popping local_counts) s)
      | _ => None
      end
  | Merge i word =>
      match workers s !! i with
      | Some (Merging unmerged) =>
          match unmerged !! word with
          | Some count =>
              Some (mkState (pending s) (iter_error s) (catching s) (queue s)
                      (<[i := Merging (delete word unmerged)]> (workers s))
                      (merge_entry word count (global_counts s)) (cerr s))
          | None => None
          end
      | _ => None
      end
  | Exit i =>
      match workers s !! i with
      | Some (Merging unmerged) =>
          if bool_decide (unmerged = ∅) then Some (set_worker i Exited s)
          else None
      | _ => None
      end
  end.

(** A schedule is the sequence of actions taken. *)
Fixpoint run (min_len : Z) (schedule : list action) (s : state)
    : option state :=
  match schedule with
  | [] => Some s
  | a :: schedule' =>
      match step min_len a s with
      | Some s' => run min_len schedule' s'
      | None => None
      end
  end.

(** The state once [main] has created the queue and the workers. *)
Definition initial_state (threads : Z) (dir : list (string * bool))
    (err : option string) : state :=
  mkState dir err [] new_queue
          (replicate (Z.to_nat threads) (Popping ∅))
          (replicate (N.to_nat NUM_SHARDS) ∅) [].

(** All workers have been joined. *)
Definition joined (s : state) : Prop :=
  producer_done (queue s) = true ∧ Forall (λ w, w = Exited) (workers s).

(** [sorted_words] as [main] fills it: the entries of the shards, shard
    by shard. *)
Definition flatten_shards (global : list (gmap string Z))
    : list (string * Z) :=
  global ≫= map_to_list.

(** A complete run of the program from [main]'s creation of the
    workers on, and the sequence it prints. The order in which an
    [unordered_map] is traversed is not fixed: [sorted_words] is the
    shards' entries in any order. *)
Definition prints (config : Config) (dir : list (string * bool))
    (err : option string) (out : list (string * Z)) : Prop :=
  ∃ schedule s sorted_words,
    run (min_len config) schedule (initial_state (threads config) dir err)
      = Some s
    ∧ joined s
    ∧ sorted_words ≡ₚ flatten_shards (global_counts s)
    ∧ out = ranked_output (top_m config) sorted_words.

(** ** What one worker alone computes *)

(** The table of one worker that reads the given files in order. *)
Definition tally_file (min_len : Z) (local_counts : gmap string Z)
    (file_path : string) : gmap string Z :=
  match open_file file_path with
  | Some content => consume_file content min_len local_counts
  | None => local_counts
  end.

Definition tally_files (min_len : Z) (files : list string) : gmap string Z :=
  foldl (tally_file min_len) ∅ files.

(** The paths [main] pushes. *)
Definition regular_files (dir : list (string * bool)) : list string :=
  (filter (λ e, e.2 = true) dir).*1.

End Program.

(** ** [parse_args] and the start of [main] *)

Section Main.

(** [fs::exists(p) && fs::is_directory(p)], or [None] when the status of
    the path cannot be determined and one of the two throws
    [filesystem_error], which nothing in [main] catches. *)
Variable is_directory : string → option bool.

Definition parse_args (argv : list string) : parse_result :=
  let argc := length argv in
  if bool_decide (argc < 2)%nat then Refused []
  else
    let dir := default EmptyString (argv !! (argc - 1)%nat) in
    match parse_options (take (argc - 2) (drop 1 argv)) (mkConfig 1 10 1 dir) with
    | Parsed config =>
        if bool_decide (threads config < 1 ∨ top_m config < 1
                        ∨ min_len config < 1)
        then Refused ["Parameters must be >= 1" +:+ endl]
        else
          match is_directory (dir_path config) with
          | Some true => Parsed config
          | Some false =>
              Refused ["Directory not found or is not a directory: "
                       +:+ quoted (dir_path config) +:+ endl]
          | None => Throws
          end
    | r => r
    end.

Definition usage (argv : list string) : string :=
  "Usage: " +:+ default EmptyString (argv !! 0%nat)
    +:+ " --threads K --top M --minlen L <path>" +:+ endl.

(** How [main] begins: it returns 1 before it creates any thread, it is
    ended by an exception out of [parse_args], or it creates the workers
    and walks the directory ([walk] gives what the iterator yields and
    the error it ends with). *)
Inductive start :=
  | Returns1 (cerr : list string)
  | Terminated
  | Spawned (config : Config) (s : state).

Definition main_start
    (walk : string → list (string * bool) * option string)
    (argv : list string) : start :=
  match parse_args argv with
  | Refused diagnostics => Returns1 (diagnostics ++ [usage argv])
  | Throws => Terminated
  | Parsed config =>
      Spawned config
        (initial_state (threads config) (walk (dir_path config)).1
           (walk (dir_path config)).2)
  end.

End Main.

(** ** The counter behind the C interface ([counter.hpp]) *)

(** [CounterImpl]: the methods on the member [value_], an [int]. An
    overflow of [++value_] or [--value_] is undefined, which is [None]. *)
Module CounterImpl.

Definition increment (value_ : Z) : option Z :=
  if bool_decide (value_ < INT_MAX) then Some (value_ + 1) else None.

Definition decrement (value_ : Z) : option Z :=
  if bool_decide (INT_MIN < value_) then Some (value_ - 1) else None.

Definition get (value_ : Z) : Z := value_.

End CounterImpl.

(** The free store: the live [CounterImpl] objects with their [value_],
    and the live [Counter] objects with their [impl]. A [Counter*] is the
    address of a [Counter], or null, which is [None]. *)
Record store := mkStore {
  impls : gmap positive Z;
  counters : gmap positive positive;
}.

(** The store after a method has changed [value_] of the object at
    [impl]. *)
Definition set_value (impl : positive) (value_ : Z) (h : store) : store :=
  mkStore (<[impl := value_]> (impls h)) (counters h).

Section Counter.

(** The environment: the addresses that [new Counter] and
    [new CounterImpl] return in a given store. *)
Variable new_Counter : store → positive.
Variable new_CounterImpl : store → positive.

(** The member [impl] is not read between the two statements, so the
    [Counter] enters the store with [impl] set. *)
Definition counter_create (initial_value : Z) (h : store)
    : option positive * store :=
  let counter := new_Counter h in
  let impl := new_CounterImpl h in
  (Some counter,
   mkStore (<[impl := initial_value]> (impls h))
           (<[counter := impl]> (counters h))).

End Counter.

(** The calls below give [None] where the behaviour is undefined: the
    pointer is neither null nor the address of a live [Counter], or the
    [int] overflows. *)
Definition counter_destroy (counter : option positive) (h : store)
    : option store :=
  match counter with
  | None => Some h
  | Some c =>
      impl ← counters h !! c;
      _ ← impls h !! impl;
      Some (mkStore (delete impl (impls h)) (delete c (counters h)))
  end.

Definition counter_increment (counter : option positive) (h : store)
    : option store :=
  match counter with
  | None => Some h
  | Some c =>
      impl ← counters h !! c;
      value_ ← impls h !! impl;
      value_' ← CounterImpl.increment value_;
      Some (set_value impl value_' h)
  end.

Definition counter_decrement (counter : option positive) (h : store)
    : option store :=
  match counter with
  | None => Some h
  | Some c =>
      impl ← counters h !! c;
      value_ ← impls h !! impl;
      value_' ← CounterImpl.decrement value_;
      Some (set_value impl value_' h)
  end.

Definition counter_get (counter : option positive) (h : store) : option Z :=
  match counter with
  | None => Some 0
  | Some c =>
      impl ← counters h !! c;
      value_ ← impls h !! impl;
      Some (CounterImpl.get value_)
  end.

Section CounterMain.

Variable new_Counter : store → positive.
Variable new_CounterImpl : store → positive.

(** [main] of the C client of the interface: the two values it prints,
    and the store it leaves. *)
Definition counter_main (h : store) : option (list Z * store) :=
  let '(c, h) := counter_create new_Counter new_CounterImpl 10 h in
  h ← counter_increment c h;
  h ← counter_increment c h;
  value1 ← counter_get c h;
  h ← counter_decrement c h;
  value2 ← counter_get c h;
  h ← counter_destroy c h;
  Some ([value1; value2], h).

End CounterMain.

(** * Vocabulary of the specification

    What the properties are stated with: the trace of the tokenizer, the
    multisets of tokens the tables stand for, the invariant of the
    concurrent program, the order of the ranking, and a small directory to
    run the program on. None of it is part of the program. *)

(** ** The tokenizer as the specification words it *)

(** The tokenizer written after its description rather than after the
    code, to compare [parse_line_and_count] with: split the line into
    maximal runs of word characters, fold their case, keep the runs that
    are long enough, and count each one. *)

Definition starts_with_word_char (s : string) : bool :=
  match s with
  | EmptyString => false
  | String d _ => is_word_char d
  end.

(** The maximal runs of word characters of a line, in order: a word
    character joins the run that starts right after it when its successor
    is a word character too, and starts a run of its own otherwise. *)
Fixpoint word_runs (line : string) : list string :=
  match line with
  | EmptyString => []
  | String c rest =>
      if is_word_char c then
        match starts_with_word_char rest, word_runs rest with
        | true, r :: rs => String c r :: rs
        | _, rs => String c EmptyString :: rs
        end
      else word_runs rest
  end.

(** Case folding, character by character. *)
Fixpoint lowercase (s : string) : string :=
  match s with
  | EmptyString => EmptyString
  | String c s' => String (tolower c) (lowercase s')
  end.

(** The tokens a line contributes: the case-folded runs that are at least
    [min_len] long. *)
Definition tokens (line : string) (min_len : Z) : list string :=
  filter (λ w, min_len <= strlen w) (lowercase <$> word_runs line).

(** Counting a list of tokens into a table, one increment each. *)
Definition count_tokens (ws : list string) (m : gmap string Z) : gmap string Z :=
  foldl (λ acc w, incr w acc) m ws.

(** ** The trace of the tokenizer *)

(** The words [scan] counts, in the order in which it counts them. *)
Fixpoint scan_emits (line : string) (min_len : Z) (current_word : string)
    : list string :=
  match line with
  | EmptyString => if long_enough min_len current_word then [current_word] else []
  | String c rest =>
      if is_word_char c
      then scan_emits rest min_len (current_word +:+ String (tolower c) EmptyString)
      else (if long_enough min_len current_word then [current_word] else [])
             ++ scan_emits rest min_len EmptyString
  end.

(** The candidate token joins the run the rest of the line starts with,
    or stands alone. *)
Definition attach (current_word line : string) (runs : list string)
    : list string :=
  if starts_with_word_char line then
    match runs with
    | r :: rs => (current_word +:+ r) :: rs
    | [] => [current_word]
    end
  else current_word :: runs.

(** ** Maximal runs of word characters, and well-formed words *)

Fixpoint string_forall (P : ascii → bool) (s : string) : bool :=
  match s with
  | EmptyString => true
  | String c s' => P c && string_forall P s'
  end.

Definition no_word_char (s : string) : Prop :=
  string_forall (λ c, negb (is_word_char c)) s = true.

Definition only_word_chars (s : string) : Prop :=
  string_forall is_word_char s = true.

(** [runs_of line runs]: the line is separators, a run, separators, a
    run, and so on; a run is not empty, holds word characters only, and is
    followed by the end of the line or by a separator. *)
Inductive runs_of : string → list string → Prop :=
  | runs_none sep : no_word_char sep → runs_of sep []
  | runs_cons sep r rest rs :
      no_word_char sep → r ≠ EmptyString → only_word_chars r →
      starts_with_word_char rest = false → runs_of rest rs →
      runs_of (sep +:+ r +:+ rest) (r :: rs).

Definition lower_word_char (c : ascii) : bool :=
  is_word_char c && negb (isupper c).

(** A word as the tokenizer makes them: not empty, at least [min_len]
    long, of word characters only, none of them an upper-case letter. *)
Definition well_formed_word (min_len : Z) (word : string) : Prop :=
  word ≠ EmptyString ∧ min_len <= strlen word
  ∧ string_forall lower_word_char word = true.

(** ** Tables as multisets of tokens *)

(** The table that has counted the tokens of [A], each once: one entry
    per distinct token, its multiplicity modulo 2^64. *)
Definition wrap (A : gmultiset string) : gmap string Z :=
  set_to_map (λ w, (w, Z.of_nat (multiplicity w A) mod UINT64_MOD)) (dom A).

(** The entries of [word] in a multiset, and the others. *)
Definition only (word : string) (A : gmultiset string) : gmultiset string :=
  filter (λ w, w = word) A.
Definition without (word : string) (A : gmultiset string) : gmultiset string :=
  filter (λ w, w ≠ word) A.

(** The tokens of files. *)

Section FileTokens.

Variable open_file : string → option string.
Variable min_len : Z.

(** The words counted for a file's content, line after line. *)
Definition content_emits (content : string) : list string :=
  getline_loop content EmptyString ≫= λ line, scan_emits line min_len EmptyString.

(** A file that does not open gives none. *)
Definition file_emits (file_path : string) : list string :=
  match open_file file_path with
  | Some content => content_emits content
  | None => []
  end.

Definition files_tokens (files : list string) : gmultiset string :=
  list_to_set_disj (files ≫= file_emits).

End FileTokens.

(** ** The sharded table as one table *)

Section ShardedTable.

Variable hash : string → N.

(** The part of a table that belongs in shard [k], and the sharded
    table that holds a given table. *)
Definition shard_of (m : gmap string Z) (k : nat) : gmap string Z :=
  filter (λ e, get_shard_index hash e.1 = k) m.

Definition shards_of (m : gmap string Z) : list (gmap string Z) :=
  shard_of m <$> seq 0 (N.to_nat NUM_SHARDS).

End ShardedTable.

(** The count the sharded table holds for a word: the entry of the word
    in the shard its hash selects. *)
Definition table_count (hash : string → N) (global : list (gmap string Z))
    (word : string) : option Z :=
  global !! get_shard_index hash word ≫= λ shard, shard !! word.

(** ** The invariant of the concurrent program *)

(** The file a worker holds and has not read yet. *)
Definition reading (w : worker) : list string :=
  match w with
  | Reading _ file_path => [file_path]
  | _ => []
  end.

(** The files whose tokens no table holds yet. *)
Definition unread (s : state) : list string :=
  regular_files (pending s) ++ q (queue s) ++ (workers s ≫= reading).

(** The tokens a worker's table stands for. *)
Definition ghost (w : worker) (A : gmultiset string) : Prop :=
  match w with
  | Popping local_counts | Reading local_counts _ | Writing local_counts _ =>
      local_counts = wrap A
  | Merging unmerged => unmerged = wrap A
  | Exited => A = ∅
  end.

(** The worker's [pop] has returned false. *)
Definition past_pop (w : worker) : Prop :=
  match w with
  | Merging _ | Exited => True
  | _ => False
  end.

(** The tokens the workers' tables stand for, together. *)
Definition msum (As : list (gmultiset string)) : gmultiset string :=
  foldr (⊎) ∅ As.

Section Invariant.

Variable hash : string → N.
Variable open_file : string → option string.
Variable min_len : Z.

(** Every token of the files [main] pushes is, at any time, in exactly
    one place: in the sharded table, in one worker's table, or in a file
    not read yet. *)
Record counted (T : gmultiset string) (s : state) : Prop := {
  counted_done : producer_done (queue s) = true → pending s = [];
  counted_drained :
    Exists past_pop (workers s) →
    q (queue s) = [] ∧ producer_done (queue s) = true;
  counted_tokens :
    ∃ G As,
      global_counts s = shards_of hash (wrap G)
      ∧ Forall2 ghost (workers s) As
      ∧ G ⊎ msum As ⊎ files_tokens open_file min_len (unread s) = T;
}.

End Invariant.

(** The table a worker holds. *)
Definition worker_table (w : worker) : gmap string Z :=
  match w with
  | Popping local_counts | Reading local_counts _ | Writing local_counts _ =>
      local_counts
  | Merging unmerged => unmerged
  | Exited => ∅
  end.

(** All the tables of the program: the workers' and the shards. *)
Definition tables (s : state) : list (gmap string Z) :=
  (worker_table <$> workers s) ++ global_counts s.

(** The text on a stream: its insertions, one after the other. *)
Definition text (insertions : list string) : string :=
  foldr String.append EmptyString insertions.

(** The insertions a worker has still to make in the statement it is
    in. *)
Definition writing (w : worker) : list string :=
  match w with
  | Writing _ insertions => insertions
  | _ => []
  end.

(** The diagnostic of a file is on [cerr]: its three insertions, in this
    order, with at most insertions of other threads between them. *)
Definition reported (file_path : string) (s : state) : Prop :=
  open_failure_insertions file_path `sublist_of` cerr s.

Section Logged.

Variable open_file : string → option string.

(** Every file that does not open is still unread, or a worker is
    reporting it and has made the first insertions, or it is reported. *)
Definition logged (files : list string) (s : state) : Prop :=
  ∀ p, p ∈ files → open_file p = None →
       p ∈ unread s
       ∨ (∃ i local_counts written rest,
            workers s !! i = Some (Writing local_counts rest)
            ∧ written ++ rest = open_failure_insertions p
            ∧ written `sublist_of` cerr s)
       ∨ reported p s.

End Logged.

(** ** The weight of a state *)

Section Weights.

Local Open Scope nat_scope.

Variable open_file : string → option string.
Variable min_len : Z.

(** The number of actions a file can still cause, by where it is, and a
    worker by where it stands. *)
Definition file_weight (file_path : string) : nat :=
  length (file_emits open_file min_len file_path).

Definition entry_weight (e : string * bool) : nat :=
  if e.2 then file_weight e.1 + 9 else 1.

Definition worker_weight (w : worker) : nat :=
  match w with
  | Popping local_counts => size local_counts + 2
  | Reading local_counts file_path =>
      size local_counts + file_weight file_path + 8
  | Writing local_counts insertions =>
      size local_counts + length insertions + 3
  | Merging unmerged => size unmerged + 1
  | Exited => 0
  end.

Definition weight (s : state) : nat :=
  sum_list (entry_weight <$> pending s)
  + (match iter_error s with Some _ => 4 | None => 0 end)
  + length (catching s)
  + (if producer_done (queue s) then 0 else 1)
  + sum_list ((λ p, file_weight p + 7) <$> q (queue s))
  + sum_list (worker_weight <$> workers s).

End Weights.

(** ** The order of the ranking *)

(** [ord a b]: [b] does not come before [a]. *)
Definition ord (a b : string * Z) : Prop := comp b a = false.

(** ** Sequences of queue operations *)

(** The operations of the queue, as its users call them. *)
Inductive queue_op :=
  | DoPush (file_path : string)
  | DoPop
  | DoSetDone.

(** The queue after a sequence of operations, each one atomic; a [pop]
    that waits, or returns false, leaves the queue as it is. *)
Definition queue_after_op (op : queue_op) (Q : ThreadSafeQueue) : ThreadSafeQueue :=
  match op with
  | DoPush file_path => push file_path Q
  | DoPop => match pop Q with PopTrue _ Q' => Q' | _ => Q end
  | DoSetDone => set_done Q
  end.

Definition queue_after (ops : list queue_op) (Q : ThreadSafeQueue) : ThreadSafeQueue :=
  foldl (λ Q op, queue_after_op op Q) Q ops.

(** The paths handed out by the calls of [pop], in order. *)
Fixpoint popped (ops : list queue_op) (Q : ThreadSafeQueue) : list string :=
  match ops with
  | [] => []
  | op :: ops' =>
      match op, pop Q with
      | DoPop, PopTrue file_path _ =>
          file_path :: popped ops' (queue_after_op op Q)
      | _, _ => popped ops' (queue_after_op op Q)
      end
  end.

(** The paths handed in by the calls of [push], in order. *)
Definition pushed (ops : list queue_op) : list string :=
  ops ≫= λ op, match op with DoPush file_path => [file_path] | _ => [] end.

(** ** A small directory to run the program on *)

(** A hash: the code of the first character. *)
Definition demo_hash (word : string) : N :=
  match word with
  | String c _ => uchar c
  | EmptyString => 0
  end.

(** Two files that open; any other path does not. *)
Definition demo_open (file_path : string) : option string :=
  if bool_decide (file_path = "a.txt") then Some "foo foo bar"
  else if bool_decide (file_path = "b.txt") then Some "bar baz foo"
  else None.

(** A directory with a subdirectory and a file that does not open. *)
Definition demo_dir : list (string * bool) :=
  [("a.txt", true); ("sub", false); ("gone.txt", true); ("b.txt", true)].

(** A directory with exactly two regular files. *)
Definition demo_two : list (string * bool) :=
  [("b.txt", true); ("sub", false); ("a.txt", true)].

(** One worker does everything after the directory was walked. *)
Definition demo_schedule1 : list action :=
  [Walk; Walk; Walk; Walk; SetDone;
   Pop 0; ReadFile 0; Pop 0; ReadFile 0; Write 0; Write 0; Write 0; Write 0;
   Pop 0; ReadFile 0; Pop 0;
   Merge 0 "foo"; Merge 0 "bar"; Merge 0 "baz"; Exit 0].

(** Two workers take files while the directory is still being walked,
    and merge in turns. *)
Definition demo_schedule2 : list action :=
  [Walk; Pop 1; Walk; Walk; Walk; Pop 0; ReadFile 1; ReadFile 0; Write 0;
   Write 0; SetDone; Write 0; Write 0; Pop 0; Pop 1; ReadFile 0;
   Merge 1 "bar"; Pop 0; Merge 0 "foo";
   Merge 1 "foo"; Merge 0 "baz"; Exit 1; Merge 0 "bar"; Exit 0].

(** The state a schedule ends in (the initial state, should the
    schedule not be one of the program). *)
Definition demo_final (threads : Z) (dir : list (string * bool))
    (schedule : list action) : state :=
  default (initial_state threads dir None)
    (run demo_hash demo_open 1 schedule (initial_state threads dir None)).

(** ** Lines, and values of type [int] *)

(** Joining lines, each one followed by a newline. *)
Definition unlines (lines : list string) : string :=
  foldr (λ line rest, line +:+ String newline rest) EmptyString lines.

Definition no_newline (line : string) : Prop :=
  string_forall (λ c, negb (bool_decide (c = newline))) line = true.

(** The last character of a text, or [d] for the empty text. *)
Fixpoint last_or (d : ascii) (s : string) : ascii :=
  match s with
  | EmptyString => d
  | String c rest => last_or c rest
  end.

(** A text with its last line ended: the text itself when it is empty or
    ends with a newline, and the text with a newline added otherwise. *)
Definition terminated (content : string) : string :=
  if bool_decide (last_or newline content = newline) then content
  else content +:+ String newline EmptyString.

Definition is_int (n : Z) : Prop := INT_MIN <= n <= INT_MAX.

(** ** The time before the end of the input, and the diagnostics *)

(** The sharded table is empty and no worker has left its loop. *)
Definition input_open (s : state) : Prop :=
  global_counts s = replicate (N.to_nat NUM_SHARDS) ∅
  ∧ Forall (λ w, ¬ past_pop w) (workers s).

(** The insertions [main] makes for the error that ends the directory
    walk. *)
Definition walk_failure (err : option string) : list string :=
  match err with
  | Some what => walk_failure_insertions what
  | None => []
  end.

Section Diagnosed.

Variable open_file : string → option string.

(** The insertions the workers make for the given files, file after
    file. *)
Definition failures (files : list string) : list string :=
  files ≫= λ p,
    if bool_decide (open_file p = None) then open_failure_insertions p else [].

(** The insertions still to come for the given files. *)
Definition to_come (files : list string) : gmultiset string :=
  list_to_set_disj (failures files).

(** Every insertion is, at any time, made or still to come. *)
Definition diagnosed (T : gmultiset string) (s : state) : Prop :=
  (producer_done (queue s) = true → iter_error s = None ∧ catching s = [])
  ∧ (is_Some (iter_error s) → catching s = [])
  ∧ list_to_set_disj (cerr s)
    ⊎ list_to_set_disj (workers s ≫= writing)
    ⊎ to_come (unread s)
    ⊎ list_to_set_disj (catching s)
    ⊎ list_to_set_disj (walk_failure (iter_error s)) = T.

(** With one worker and no error of the directory walk there is one
    writer: what it has inserted, what it has still to insert in its
    statement, and what is to come for the file it holds, for those in
    the queue and for those not yet walked, in this order, are all the
    insertions. *)
Definition single_writer (total : list string) (s : state) : Prop :=
  iter_error s = None ∧ catching s = []
  ∧ ∃ w, workers s = [w]
         ∧ cerr s ++ writing w
           ++ failures (reading w ++ q (queue s) ++ regular_files (pending s))
           = total.

End Diagnosed.

(** ** The stores of the counter interface *)

(** The stores the interface keeps to: every [Counter] owns a live
    [CounterImpl], no two own the same one, every [CounterImpl] is owned,
    and every value is an [int]. *)
Record well_formed (h : store) : Prop := {
  impl_live : ∀ c impl, counters h !! c = Some impl → is_Some (impls h !! impl);
  impl_own : ∀ c1 c2 impl,
    counters h !! c1 = Some impl → counters h !! c2 = Some impl → c1 = c2;
  impl_owned : ∀ impl, is_Some (impls h !! impl) →
    ∃ c, counters h !! c = Some impl;
  value_int : ∀ impl value_, impls h !! impl = Some value_ → is_int value_;
}.

(** What [new] promises: storage that no live object occupies. *)
Definition fresh_Counter (new_Counter : store → positive) : Prop :=
  ∀ h, counters h !! new_Counter h = None.

Definition fresh_CounterImpl (new_CounterImpl : store → positive) : Prop :=
  ∀ h, impls h !! new_CounterImpl h = None.

(** Sequences of calls of [counter_increment] and [counter_decrement] on
    one pointer, and the change they make together. *)
Inductive counter_op :=
  | Increment
  | Decrement.

Definition counter_call (op : counter_op)
    : option positive → store → option store :=
  match op with
  | Increment => counter_increment
  | Decrement => counter_decrement
  end.

Fixpoint counter_calls (ops : list counter_op) (counter : option positive)
    (h : store) : option store :=
  match ops with
  | [] => Some h
  | op :: ops' => h' ← counter_call op counter h; counter_calls ops' counter h'
  end.

Definition delta (op : counter_op) : Z :=
  match op with
  | Increment => 1
  | Decrement => -1
  end.

Fixpoint net (ops : list counter_op) : Z :=
  match ops with
  | [] => 0
  | op :: ops' => delta op + net ops'
  end.

(** ** More to run the programs on *)

(** A text of two lines, each ended by a newline. *)
Definition demo_text : string :=
  "ab cd" +:+ String newline ("ab" +:+ String newline EmptyString).

(** The two workers have read a file each while [main] has not yet
    called [set_done]. *)
Definition demo_prefix : list action :=
  [Walk; Pop 1; Walk; Walk; Walk; Pop 0; ReadFile 1; ReadFile 0; Write 0;
   Write 0].

(** A directory of two files that do not open, and a schedule of two
    workers that report one each, by turns. *)
Definition demo_unreadable : list (string * bool) :=
  [("x", true); ("y", true)].

Definition demo_schedule3 : list action :=
  [Walk; Walk; SetDone; Pop 0; Pop 1; ReadFile 0; ReadFile 1;
   Write 0; Write 1; Write 0; Write 1; Write 0; Write 1; Write 0; Write 1;
   Pop 0; Pop 1; Exit 0; Exit 1].

(** An allocator: the least address not in use. A store with one counter,
    which holds 7. *)
Definition demo_new_Counter (h : store) : positive :=
  fresh (dom (counters h)).

Definition demo_new_CounterImpl (h : store) : positive :=
  fresh (dom (impls h)).

Definition demo_store : store :=
  mkStore {[ 1%positive := 7 ]} {[ 1%positive := 1%positive ]}.

(** * Properties *)

Example tokens_the_cat_sat : tokens "The cat_1 SAT" 1 = ["the"; "cat_1"; "sat"].
Proof. reflexivity. Qed.

Example parse_the_cat_sat :
  parse_line_and_count "the cat sat" 1 ∅
  = {[ "the" := 1; "cat" := 1; "sat" := 1 ]}.
Proof. by vm_compute. Qed.

(** ** Characters and strings *)

Lemma tolower_not_upper c : isupper (tolower c) = false.
Proof. destruct c as [[] [] [] [] [] [] [] []]; by vm_compute. Qed.

Lemma tolower_word_char c : is_word_char c = true → is_word_char (tolower c) = true.
Proof. destruct c as [[] [] [] [] [] [] [] []]; by vm_compute. Qed.

Lemma string_app_cons c s t : String c s +:+ t = String c (s +:+ t).
Proof. reflexivity. Qed.

Lemma string_app_nil_r s : s +:+ EmptyString = s.
Proof. induction s as [|c s IH]; [done|]. by rewrite string_app_cons, IH. Qed.

Lemma string_app_assoc s t u : (s +:+ t) +:+ u = s +:+ t +:+ u.
Proof.
  induction s as [|c s IH]; [done|]. by rewrite !string_app_cons, IH.
Qed.

Lemma strlen_app s t : strlen (s +:+ t) = strlen s + strlen t.
Proof.
  unfold strlen. induction s as [|c s IH]; [done|].
  rewrite string_app_cons. simpl. lia.
Qed.

Lemma strlen_nonneg s : 0 <= strlen s.
Proof. unfold strlen. lia. Qed.

Lemma size_t_of_int_pos n : 0 <= n <= INT_MAX → size_t_of_int n = n.
Proof.
  intros [? Hmax]. unfold size_t_of_int, UINT64_MOD.
  apply Z.mod_small. unfold INT_MAX in Hmax. lia.
Qed.

Lemma size_t_of_int_ge n : n <= INT_MAX → n <= size_t_of_int n.
Proof.
  intros Hmax. unfold size_t_of_int, UINT64_MOD.
  destruct (decide (0 <= n)).
  - rewrite Z.mod_small; [done|]. unfold INT_MAX in Hmax. lia.
  - pose proof (Z.mod_pos_bound n (2 ^ 64)). lia.
Qed.

(** ** Count tables *)

Lemma count_of_add_count w c m w' :
  count_of (add_count w c m) w' =
    if decide (w = w') then (count_of m w + c) mod UINT64_MOD else count_of m w'.
Proof.
  unfold add_count, count_of at 1. rewrite lookup_insert.
  by repeat case_decide.
Qed.

Lemma lookup_add_count w c m w' :
  add_count w c m !! w' =
    if decide (w = w') then Some ((count_of m w + c) mod UINT64_MOD) else m !! w'.
Proof. unfold add_count. by rewrite lookup_insert. Qed.

(** The tokens counted decide the table: each word's count grows by the
    number of times it occurs, modulo 2^64, and a word that does not occur
    keeps its entry, or its absence. *)
Lemma count_tokens_lookup ws m w :
  count_tokens ws m !! w =
    if decide (multiplicity w (list_to_set_disj ws : gmultiset string) = 0%nat)
    then m !! w
    else Some ((count_of m w
                + Z.of_nat (multiplicity w (list_to_set_disj ws : gmultiset string)))
               mod UINT64_MOD).
Proof.
  revert m. induction ws as [|x ws IH]; intros m; [done|].
  simpl. rewrite IH. rewrite multiplicity_disj_union, multiplicity_singleton.
  unfold incr. rewrite count_of_add_count, lookup_add_count.
  repeat case_decide; simplify_eq/=; try lia; try done.
  all: f_equal; rewrite ?Zplus_mod_idemp_l; f_equal; lia.
Qed.

Lemma count_tokens_app ws1 ws2 m :
  count_tokens (ws1 ++ ws2) m = count_tokens ws2 (count_tokens ws1 m).
Proof. apply foldl_app. Qed.

(** ** The tokenizer *)

Lemma scan_count line min_len current_word m :
  scan line min_len current_word m
  = count_tokens (scan_emits line min_len current_word) m.
Proof.
  revert current_word m.
  induction line as [|c rest IH]; intros current_word m; simpl.
  - unfold flush. by destruct (long_enough _ _).
  - destruct (is_word_char c); [apply IH|].
    rewrite IH, count_tokens_app. unfold flush.
    by destruct (long_enough _ _).
Qed.

Lemma word_runs_starts line :
  starts_with_word_char line = true → word_runs line ≠ [].
Proof.
  destruct line as [|c rest]; [done|]. simpl. intros ->.
  by destruct (starts_with_word_char rest), (word_runs rest).
Qed.

Lemma scan_emits_attach line min_len current_word :
  1 <= min_len <= INT_MAX →
  scan_emits line min_len current_word
  = filter (λ w, min_len <= strlen w)
      (attach current_word line (lowercase <$> word_runs line)).
Proof.
  intros Hmin.
  assert (Hle : ∀ w, long_enough min_len w = bool_decide (min_len <= strlen w)).
  { intros w. unfold long_enough. rewrite size_t_of_int_pos; [done|lia]. }
  revert current_word.
  induction line as [|c rest IH]; intros current_word; simpl.
  - rewrite Hle. unfold attach. simpl. rewrite filter_cons.
    case_bool_decide; by case_decide.
  - unfold attach at 1. simpl. destruct (is_word_char c) eqn:Hc.
    + rewrite IH. unfold attach.
      destruct (starts_with_word_char rest) eqn:Hrest.
      * pose proof (word_runs_starts _ Hrest).
        destruct (word_runs rest) as [|r rs]; [done|]. simpl.
        by rewrite string_app_assoc.
      * done.
    + rewrite IH, Hle, filter_cons.
      assert (filter (λ w, min_len <= strlen w)
                (attach EmptyString rest (lowercase <$> word_runs rest))
              = filter (λ w, min_len <= strlen w) (lowercase <$> word_runs rest))
        as ->.
      { unfold attach. destruct (starts_with_word_char rest) eqn:Hrest.
        - pose proof (word_runs_starts _ Hrest).
          by destruct (word_runs rest).
        - rewrite filter_cons. case_decide; [|done].
          unfold strlen in *. simpl in *. lia. }
      case_bool_decide; by case_decide.
Qed.

Lemma scan_emits_tokens line min_len :
  1 <= min_len <= INT_MAX →
  scan_emits line min_len EmptyString = tokens line min_len.
Proof.
  intros Hmin. rewrite scan_emits_attach by done. unfold tokens, attach.
  destruct (starts_with_word_char line) eqn:Hline.
  - pose proof (word_runs_starts _ Hline). by destruct (word_runs line).
  - rewrite filter_cons. case_decide; [|done].
    unfold strlen in *. simpl in *. lia.
Qed.

(** ** Tables as wrapped multisets of tokens *)

Lemma lookup_wrap A w :
  wrap A !! w =
    if decide (w ∈ A) then Some (Z.of_nat (multiplicity w A) mod UINT64_MOD)
    else None.
Proof.
  unfold wrap. case_decide as Hw.
  - apply lookup_set_to_map; [by intros ?? _ _ ?|].
    exists w. by rewrite gmultiset_elem_of_dom.
  - apply eq_None_not_Some. intros [c Hc].
    apply lookup_set_to_map in Hc as (w' & Hw' & [= -> _]); [|by intros ?? _ _ ?].
    by apply gmultiset_elem_of_dom in Hw'.
Qed.

Lemma count_of_wrap A w :
  count_of (wrap A) w = Z.of_nat (multiplicity w A) mod UINT64_MOD.
Proof.
  unfold count_of. rewrite lookup_wrap. case_decide as Hw; [done|].
  apply not_elem_of_multiplicity in Hw. by rewrite Hw.
Qed.

Lemma wrap_empty : wrap ∅ = ∅.
Proof.
  apply map_eq. intros w. rewrite lookup_wrap, lookup_empty.
  case_decide as Hin; [|done].
  rewrite elem_of_multiplicity, multiplicity_empty in Hin. lia.
Qed.

Lemma wrap_empty_inv A : wrap A = ∅ → A = ∅.
Proof.
  intros HA. apply gmultiset_eq. intros w.
  assert (wrap A !! w = None) as Hw by (by rewrite HA).
  rewrite lookup_wrap in Hw. case_decide as Hin; [done|].
  apply not_elem_of_multiplicity in Hin. by rewrite Hin.
Qed.

Lemma dom_wrap A : dom (wrap A) = dom A.
Proof.
  apply set_eq. intros w.
  rewrite elem_of_dom, lookup_wrap, gmultiset_elem_of_dom.
  case_decide; [by split; eauto|]. split; [by intros [??]|done].
Qed.

Ltac multiplicities :=
  repeat case_decide;
  rewrite ?not_elem_of_multiplicity, ?elem_of_multiplicity in *;
  rewrite ?multiplicity_disj_union, ?multiplicity_filter in *;
  repeat case_decide; simplify_eq; try done; try lia.

(** Equations and inclusions between sums of multisets, by counting. *)
Ltac multiset_eq :=
  apply gmultiset_eq; intros ?;
  rewrite ?multiplicity_disj_union, ?multiplicity_empty; lia.

Ltac multiset_sub :=
  intros ?; rewrite ?multiplicity_disj_union, ?multiplicity_empty; lia.

(** Membership in lists put together with [++] and [::]. *)
Ltac list_mem :=
  simpl;
  repeat (rewrite elem_of_app || rewrite elem_of_cons || rewrite elem_of_nil);
  tauto.

Lemma count_tokens_wrap ws A :
  count_tokens ws (wrap A) = wrap (A ⊎ list_to_set_disj ws).
Proof.
  apply map_eq. intros w.
  rewrite count_tokens_lookup, count_of_wrap, !lookup_wrap.
  rewrite Zplus_mod_idemp_l.
  multiplicities.
  all: try (f_equal; f_equal; lia).
Qed.

Lemma only_without word A : only word A ⊎ without word A = A.
Proof.
  apply gmultiset_eq. intros w. unfold only, without. multiplicities.
Qed.

Lemma delete_wrap word A : delete word (wrap A) = wrap (without word A).
Proof.
  apply map_eq. intros w. unfold without.
  rewrite lookup_delete, !lookup_wrap. multiplicities.
Qed.

Lemma add_count_wrap word count A G :
  wrap A !! word = Some count →
  add_count word count (wrap G) = wrap (G ⊎ only word A).
Proof.
  rewrite lookup_wrap. case_decide as Hin; [|done]. intros [= <-].
  apply map_eq. intros w. unfold only.
  rewrite lookup_add_count, count_of_wrap, !lookup_wrap.
  rewrite <- Zplus_mod.
  multiplicities.
  all: try (f_equal; f_equal; lia).
Qed.

(** ** The tokens of files, and what a worker makes of them *)

Section Tokens.

Variable open_file : string → option string.
Variable min_len : Z.

Local Abbreviation content_emits := (content_emits min_len).
Local Abbreviation file_emits := (file_emits open_file min_len).
Local Abbreviation files_tokens := (files_tokens open_file min_len).

Lemma parse_lines_wrap lines A :
  foldl (λ m line, parse_line_and_count line min_len m) (wrap A) lines
  = wrap (A ⊎ list_to_set_disj
                (lines ≫= λ line, scan_emits line min_len EmptyString)).
Proof.
  revert A. induction lines as [|line lines IH]; intros A; simpl.
  - by rewrite (right_id ∅ (⊎)).
  - unfold parse_line_and_count at 2.
    rewrite scan_count, count_tokens_wrap, IH, list_to_set_disj_app.
    by rewrite (assoc (⊎)).
Qed.

Lemma consume_file_wrap content A :
  consume_file content min_len (wrap A)
  = wrap (A ⊎ list_to_set_disj (content_emits content)).
Proof. apply parse_lines_wrap. Qed.

Lemma tally_file_wrap file_path A :
  tally_file open_file min_len (wrap A) file_path
  = wrap (A ⊎ list_to_set_disj (file_emits file_path)).
Proof.
  unfold tally_file, file_emits. destruct (open_file file_path).
  - apply consume_file_wrap.
  - by rewrite list_to_set_disj_nil, (right_id ∅ (⊎)).
Qed.

Lemma files_tokens_nil : files_tokens [] = ∅.
Proof. done. Qed.

Lemma files_tokens_cons file_path files :
  files_tokens (file_path :: files)
  = list_to_set_disj (file_emits file_path) ⊎ files_tokens files.
Proof. unfold files_tokens. simpl. by rewrite list_to_set_disj_app. Qed.

Lemma files_tokens_app files1 files2 :
  files_tokens (files1 ++ files2) = files_tokens files1 ⊎ files_tokens files2.
Proof.
  unfold files_tokens. by rewrite bind_app, list_to_set_disj_app.
Qed.

Lemma files_tokens_perm files1 files2 :
  files1 ≡ₚ files2 → files_tokens files1 = files_tokens files2.
Proof. intros Hp. unfold files_tokens. by rewrite Hp. Qed.

(** One worker reading all the files ends with the wrapped multiset of
    their tokens. *)
Lemma tally_files_wrap files :
  tally_files open_file min_len files = wrap (files_tokens files).
Proof.
  unfold tally_files. rewrite <- wrap_empty.
  rewrite <- (left_id ∅ (⊎) (files_tokens files)).
  generalize (∅ : gmultiset string) as A.
  induction files as [|file_path files IH]; intros A; simpl.
  - by rewrite files_tokens_nil, (right_id ∅ (⊎)).
  - by rewrite tally_file_wrap, IH, files_tokens_cons, (assoc (⊎)).
Qed.

(** A file that does not open changes nothing. *)
Lemma files_tokens_readable files :
  files_tokens (filter (λ p, is_Some (open_file p)) files) = files_tokens files.
Proof.
  induction files as [|file_path files IH]; [done|].
  rewrite filter_cons, files_tokens_cons. case_decide as Hopen.
  - by rewrite files_tokens_cons, IH.
  - rewrite IH. unfold file_emits.
    destruct (open_file file_path); [by destruct Hopen|].
    by rewrite list_to_set_disj_nil, (left_id ∅ (⊎)).
Qed.

End Tokens.

(** ** The sharded table *)

Section Shards.

Variable hash : string → N.

Local Abbreviation shard_of := (shard_of hash).
Local Abbreviation shards_of := (shards_of hash).

Lemma get_shard_index_lt word :
  (get_shard_index hash word < N.to_nat NUM_SHARDS)%nat.
Proof.
  unfold get_shard_index, NUM_SHARDS.
  pose proof (N.mod_upper_bound (hash word) 16). lia.
Qed.

Lemma length_shards_of m : length (shards_of m) = N.to_nat NUM_SHARDS.
Proof. unfold shards_of. by rewrite length_fmap, length_seq. Qed.

Lemma lookup_shards_of m k :
  (k < N.to_nat NUM_SHARDS)%nat → shards_of m !! k = Some (shard_of m k).
Proof.
  intros Hk. unfold shards_of.
  by rewrite list_lookup_fmap, lookup_seq_lt.
Qed.

Lemma shards_of_empty : shards_of ∅ = replicate (N.to_nat NUM_SHARDS) ∅.
Proof.
  unfold shards_of, shard_of.
  apply list_eq_same_length with (N.to_nat NUM_SHARDS);
    [by rewrite length_replicate|by rewrite length_fmap, length_seq|].
  intros k x y Hk. rewrite list_lookup_fmap, lookup_seq_lt by done.
  rewrite lookup_replicate_2 by done. simpl.
  rewrite map_filter_empty. congruence.
Qed.

Lemma shard_of_add_count m word count k :
  shard_of (add_count word count m) k =
    if decide (get_shard_index hash word = k)
    then add_count word count (shard_of m k)
    else shard_of m k.
Proof.
  unfold shard_of, add_count. case_decide as Hk.
  - rewrite map_filter_insert_True by done. f_equal. f_equal. f_equal.
    unfold count_of. destruct (m !! word) as [c|] eqn:Hw.
    + by erewrite map_lookup_filter_Some_2.
    + by rewrite map_lookup_filter_None_2 by auto.
  - rewrite map_filter_insert_False by done.
    apply map_filter_delete_not. intros c _. done.
Qed.

(** The merge of one entry into its shard is the same entry added to
    the table the shards hold. *)
Lemma merge_entry_shards m word count :
  merge_entry hash word count (shards_of m)
  = shards_of (add_count word count m).
Proof.
  unfold merge_entry.
  apply list_eq_same_length with (N.to_nat NUM_SHARDS);
    [by rewrite length_shards_of|by rewrite length_alter, length_shards_of|].
  intros k x y Hk. rewrite (lookup_shards_of _ k Hk).
  rewrite shard_of_add_count.
  destruct (decide (get_shard_index hash word = k)) as [->|Hne].
  - rewrite list_lookup_alter_eq, lookup_shards_of by done. simpl. congruence.
  - rewrite list_lookup_alter_ne, lookup_shards_of by done. congruence.
Qed.

(** Every word is in its own shard and in no other. *)
Lemma lookup_shard_of m k word :
  shard_of m k !! word =
    if decide (get_shard_index hash word = k) then m !! word else None.
Proof.
  unfold shard_of. case_decide as Hk.
  - destruct (m !! word) as [c|] eqn:Hw.
    + by apply map_lookup_filter_Some_2.
    + apply map_lookup_filter_None_2. auto.
  - apply map_lookup_filter_None_2. right. intros c _. done.
Qed.

(** Flattening the shards gives the entries of the table they hold. *)
Lemma flatten_shards_of m : flatten_shards (shards_of m) ≡ₚ map_to_list m.
Proof.
  unfold flatten_shards.
  assert (Helem : ∀ e, e ∈ shards_of m ≫= map_to_list ↔ e ∈ map_to_list m).
  { intros [word c]. rewrite list_elem_of_bind, elem_of_map_to_list. split.
    - intros (sh & Hin & Hsh). apply elem_of_map_to_list in Hin.
      apply list_elem_of_lookup in Hsh as [k Hk].
      pose proof (lookup_lt_Some _ _ _ Hk) as Hlt.
      rewrite length_shards_of in Hlt.
      rewrite lookup_shards_of in Hk by done. simplify_eq.
      rewrite lookup_shard_of in Hin. by case_decide.
    - intros Hw. exists (shard_of m (get_shard_index hash word)). split.
      + apply elem_of_map_to_list. rewrite lookup_shard_of. by case_decide.
      + apply list_elem_of_lookup. exists (get_shard_index hash word).
        apply lookup_shards_of, get_shard_index_lt. }
  apply NoDup_Permutation; [|apply NoDup_map_to_list|done].
  unfold shards_of. generalize (NoDup_seq 0 (N.to_nat NUM_SHARDS)).
  generalize (seq 0 (N.to_nat NUM_SHARDS)) as ks.
  induction ks as [|k ks IH]; intros Hnd; simpl; [constructor|].
  apply NoDup_cons in Hnd as [Hk Hnd].
  apply NoDup_app. split_and!; [apply NoDup_map_to_list| |by apply IH].
  intros [word c] Hin Hin'.
  apply elem_of_map_to_list in Hin. rewrite lookup_shard_of in Hin.
  case_decide as Hidx; [|done].
  apply list_elem_of_bind in Hin' as (sh & Hin' & Hsh).
  apply list_elem_of_fmap in Hsh as (k' & -> & Hk').
  apply elem_of_map_to_list in Hin'. rewrite lookup_shard_of in Hin'.
  case_decide; [|done]. simplify_eq. done.
Qed.

End Shards.

(** ** The counting invariant of the concurrent program *)

Section Counting.

Variable hash : string → N.
Variable open_file : string → option string.
Variable min_len : Z.

Local Abbreviation step := (step hash open_file min_len).
Local Abbreviation run := (run hash open_file min_len).
Local Abbreviation files_tokens := (files_tokens open_file min_len).
Local Abbreviation counted := (counted hash open_file min_len).

Lemma msum_app As1 As2 : msum (As1 ++ As2) = msum As1 ⊎ msum As2.
Proof.
  induction As1 as [|A As1 IH]; simpl; [by rewrite (left_id ∅ (⊎))|].
  by rewrite IH, (assoc (⊎)).
Qed.

(** What changing worker [i] does to the sums over the workers. *)
Lemma worker_split ws As i w :
  Forall2 ghost ws As → ws !! i = Some w →
  ∃ A R F,
    ghost w A ∧ msum As = A ⊎ R ∧ ws ≫= reading ≡ₚ reading w ++ F
    ∧ ∀ w' A', ghost w' A' →
        ∃ As', Forall2 ghost (<[i:=w']> ws) As'
               ∧ msum As' = A' ⊎ R
               ∧ <[i:=w']> ws ≫= reading ≡ₚ reading w' ++ F.
Proof.
  intros Hgh Hi.
  pose proof (lookup_lt_Some _ _ _ Hi) as Hlt.
  pose proof (take_drop_middle _ _ _ Hi) as Hws.
  rewrite <- Hws in Hgh.
  apply Forall2_app_inv_l in Hgh as (As1 & As' & Hgh1 & Hgh2 & ->).
  apply Forall2_cons_inv_l in Hgh2 as (A & As2 & HA & Hgh2 & ->).
  exists A, (msum As1 ⊎ msum As2), ((take i ws ≫= reading) ++ (drop (S i) ws ≫= reading)).
  split_and!; [done| | |].
  - rewrite msum_app. simpl. multiset_eq.
  - rewrite <- Hws at 1. rewrite bind_app. simpl.
    by rewrite (assoc (++)), (comm (++) _ (reading w)), <- (assoc (++)).
  - intros w' A' HA'. exists (As1 ++ A' :: As2). split_and!.
    + rewrite insert_take_drop by done.
      apply Forall2_app; [done|]. by constructor.
    + rewrite msum_app. simpl. multiset_eq.
    + rewrite insert_take_drop by done. rewrite bind_app. simpl.
      by rewrite (assoc (++)), (comm (++) _ (reading w')), <- (assoc (++)).
Qed.

Lemma past_pop_insert ws i w w' :
  ws !! i = Some w → (past_pop w' → past_pop w) →
  Exists past_pop (<[i:=w']> ws) → Exists past_pop ws.
Proof.
  intros Hi Hw. rewrite !Exists_exists.
  intros (x & Hx & Hpast). apply list_elem_of_lookup in Hx as [j Hj].
  destruct (decide (i = j)) as [->|Hne].
  - rewrite list_lookup_insert_eq in Hj by (by eapply lookup_lt_Some).
    simplify_eq. exists w. split; [by eapply list_elem_of_lookup_2|auto].
  - rewrite list_lookup_insert_ne in Hj by done.
    exists x. split; [by eapply list_elem_of_lookup_2|done].
Qed.

Lemma past_pop_lookup ws i w :
  ws !! i = Some w → past_pop w → Exists past_pop ws.
Proof.
  intros Hi Hw. apply Exists_exists. exists w.
  split; [by eapply list_elem_of_lookup_2|done].
Qed.

Lemma regular_files_cons path regular dir :
  regular_files ((path, regular) :: dir)
  = if regular : bool then path :: regular_files dir else regular_files dir.
Proof.
  unfold regular_files. rewrite filter_cons. simpl.
  destruct regular; by case_decide.
Qed.

Lemma worker_split_tokens ws As i w :
  Forall2 ghost ws As → ws !! i = Some w →
  ∃ A R F,
    ghost w A ∧ msum As = A ⊎ R
    ∧ files_tokens (ws ≫= reading) = files_tokens (reading w) ⊎ F
    ∧ ∀ w' A', ghost w' A' →
        ∃ As', Forall2 ghost (<[i:=w']> ws) As'
               ∧ msum As' = A' ⊎ R
               ∧ files_tokens (<[i:=w']> ws ≫= reading)
                 = files_tokens (reading w') ⊎ F.
Proof.
  intros Hgh Hi.
  destruct (worker_split _ _ _ _ Hgh Hi) as (A & R & F & HA & HR & HF & Hupd).
  exists A, R, (files_tokens F). split_and!; [done..| |].
  - by rewrite (files_tokens_perm _ _ _ _ HF), files_tokens_app.
  - intros w' A' HA'.
    destruct (Hupd w' A' HA') as (As' & Hgh' & HR' & HF').
    exists As'. split_and!; [done..|].
    by rewrite (files_tokens_perm _ _ _ _ HF'), files_tokens_app.
Qed.

Lemma files_tokens_unreadable file_path :
  open_file file_path = None → files_tokens [file_path] = ∅.
Proof.
  intros Hopen. rewrite files_tokens_cons, files_tokens_nil.
  unfold file_emits. rewrite Hopen.
  by rewrite list_to_set_disj_nil, (left_id ∅ (⊎)).
Qed.

Lemma files_tokens_readable_1 file_path content :
  open_file file_path = Some content →
  files_tokens [file_path]
  = list_to_set_disj (content_emits min_len content).
Proof.
  intros Hopen. rewrite files_tokens_cons, files_tokens_nil.
  unfold file_emits. rewrite Hopen. by rewrite (right_id ∅ (⊎)).
Qed.

Ltac split_tokens :=
  repeat (progress rewrite ?files_tokens_app, ?files_tokens_cons,
            ?files_tokens_nil).

(** Every action keeps the tokens counted. *)
Lemma counted_step T a s s' : counted T s → step a s = Some s' → counted T s'.
Proof.
  intros [Hdone Hdrained (G & As & Hglobal & Hgh & <-)] Hstep.
  destruct a; simpl in Hstep.
  - (* Walk *)
    destruct (pending s) as [|[path regular] rest] eqn:Hp; simplify_eq.
    split; simpl.
    + intros Hd. destruct regular; simpl in Hd; by specialize (Hdone Hd).
    + intros Hex. destruct (Hdrained Hex) as [_ Hd]. by specialize (Hdone Hd).
    + exists G, As. split_and!; [done..|].
      unfold unread. simpl. rewrite Hp, regular_files_cons.
      destruct regular; simpl; [|done].
      split_tokens. multiset_eq.
  - (* Catch *)
    destruct (pending s) eqn:Hp; [|done].
    destruct (iter_error s); simplify_eq.
    split; simpl; [done..|].
    exists G, As. split_and!; [done..|].
    unfold unread. simpl. by rewrite Hp.
  - (* CatchWrite *)
    destruct (catching s) eqn:Hc; simplify_eq.
    split; simpl; [done..|]. by exists G, As.
  - (* SetDone *)
    destruct (pending s) eqn:Hp; [|done].
    destruct (iter_error s); [done|].
    destruct (catching s); [|done].
    destruct (producer_done (queue s)) eqn:Hd; simplify_eq.
    split; simpl; [by intros _| |].
    + intros Hex. by destruct (Hdrained Hex).
    + exists G, As. by split_and!.
  - (* Pop *)
    destruct (workers s !! i) as [[local_counts| | | |]|] eqn:Hi; try done.
    destruct (worker_split_tokens _ _ _ _ Hgh Hi)
      as (A & R & F & HA & HR & HF & Hupd).
    unfold pop in Hstep.
    destruct (q (queue s)) as [|file_path rest] eqn:Hq.
    + destruct (producer_done (queue s)) eqn:Hd; simplify_eq.
      destruct (Hupd (Merging local_counts) A HA) as (As' & Hgh' & HR' & HF').
      split; simpl; [by intros _; apply Hdone|by intros _|].
      exists G, As'. split_and!; [done..|].
      unfold unread. simpl.
      split_tokens. by rewrite HF, HF', HR, HR'.
    + simplify_eq.
      destruct (Hupd (Reading local_counts file_path) A HA)
        as (As' & Hgh' & HR' & HF').
      split; simpl; [done| |].
      * intros Hex. eapply past_pop_insert in Hex; [|done..].
        destruct (Hdrained Hex) as [? _]. congruence.
      * exists G, As'. split_and!; [done..|].
        unfold unread. simpl.
        rewrite Hq. split_tokens. rewrite HF, HF', HR, HR'. simpl.
        split_tokens. multiset_eq.
  - (* ReadFile *)
    destruct (workers s !! i) as [[|local_counts file_path| | |]|] eqn:Hi;
      try done.
    destruct (worker_split_tokens _ _ _ _ Hgh Hi)
      as (A & R & F & HA & HR & HF & Hupd).
    simpl in HA, HF.
    destruct (open_file file_path) as [content|] eqn:Hopen; simplify_eq.
    + destruct (Hupd (Popping (consume_file content min_len (wrap A)))
                  (A ⊎ list_to_set_disj (content_emits min_len content)))
        as (As' & Hgh' & HR' & HF').
      { simpl. apply consume_file_wrap. }
      split; simpl; [done| |].
      * intros Hex. eapply past_pop_insert in Hex; [|done..]. auto.
      * exists G, As'. split_and!; [done..|].
        unfold unread. simpl.
        split_tokens. rewrite HF, HF', HR, HR'.
        rewrite (files_tokens_readable_1 _ _ Hopen). simpl.
        split_tokens. multiset_eq.
    + destruct (Hupd (Writing (wrap A) (open_failure_insertions file_path)) A)
        as (As' & Hgh' & HR' & HF'); [done|].
      split; simpl; [done| |].
      * intros Hex. eapply past_pop_insert in Hex; [|done..]. auto.
      * exists G, As'. split_and!; [done..|].
        unfold unread. simpl.
        split_tokens. rewrite HF, HF', HR, HR'.
        rewrite (files_tokens_unreadable _ Hopen). simpl.
        split_tokens. multiset_eq.
  - (* Write *)
    destruct (workers s !! i) as [[| | | |local_counts insertions]|] eqn:Hi;
      try done.
    destruct (worker_split_tokens _ _ _ _ Hgh Hi)
      as (A & R & F & HA & HR & HF & Hupd).
    simpl in HA, HF.
    destruct insertions as [|insertion rest]; simplify_eq.
    + destruct (Hupd (Popping (wrap A)) A) as (As' & Hgh' & HR' & HF');
        [done|].
      split; simpl; [done| |].
      * intros Hex. eapply past_pop_insert in Hex; [|done..]. auto.
      * exists G, As'. split_and!; [done..|].
        unfold unread. simpl.
        split_tokens. by rewrite HF, HF', HR, HR'.
    + destruct (Hupd (Writing (wrap A) rest) A) as (As' & Hgh' & HR' & HF');
        [done|].
      split; simpl; [done| |].
      * intros Hex. eapply past_pop_insert in Hex; [|done..]. auto.
      * exists G, As'. split_and!; [done..|].
        unfold unread. simpl.
        split_tokens. by rewrite HF, HF', HR, HR'.
  - (* Merge *)
    destruct (workers s !! i) as [[| |unmerged| |]|] eqn:Hi; try done.
    destruct (unmerged !! word) as [count|] eqn:Hword; simplify_eq.
    destruct (worker_split_tokens _ _ _ _ Hgh Hi)
      as (A & R & F & HA & HR & HF & Hupd).
    simpl in HA. subst unmerged.
    destruct (Hupd (Merging (delete word (wrap A))) (without word A))
      as (As' & Hgh' & HR' & HF').
    { simpl. apply delete_wrap. }
    split; simpl; [done| |].
    + intros _. apply Hdrained. by eapply past_pop_lookup.
    + exists (G ⊎ only word A), As'. split_and!; [|done|].
      * rewrite Hglobal, merge_entry_shards. by erewrite add_count_wrap.
      * unfold unread. simpl.
        split_tokens. rewrite HF, HF', HR, HR'.
        simpl. split_tokens.
        apply gmultiset_eq. intros x.
        pose proof (f_equal (multiplicity x) (only_without word A)) as Hx.
        rewrite !multiplicity_disj_union in *.
        rewrite multiplicity_empty. lia.
  - (* Exit *)
    destruct (workers s !! i) as [[| |unmerged| |]|] eqn:Hi; try done.
    case_bool_decide; simplify_eq.
    destruct (worker_split_tokens _ _ _ _ Hgh Hi)
      as (A & R & F & HA & HR & HF & Hupd).
    simpl in HA. symmetry in HA. apply wrap_empty_inv in HA. subst A.
    destruct (Hupd Exited ∅) as (As' & Hgh' & HR' & HF'); [done|].
    split; simpl; [done| |].
    + intros _. apply Hdrained. by eapply past_pop_lookup.
    + exists G, As'. split_and!; [done..|].
      unfold unread. simpl.
      split_tokens. by rewrite HF, HF', HR, HR'.
Qed.

Lemma run_invariant (P : state → Prop) schedule s s' :
  (∀ a s1 s2, P s1 → step a s1 = Some s2 → P s2) →
  P s → run schedule s = Some s' → P s'.
Proof.
  intros Hstep. revert s.
  induction schedule as [|a schedule IH]; intros s Hs Hrun; simpl in Hrun.
  - by simplify_eq.
  - destruct (step a s) as [s1|] eqn:Ha; [|done]. eauto.
Qed.

Lemma run_app schedule1 schedule2 s s1 s2 :
  run schedule1 s = Some s1 → run schedule2 s1 = Some s2 →
  run (schedule1 ++ schedule2) s = Some s2.
Proof.
  revert s. induction schedule1 as [|a schedule1 IH]; intros s; simpl.
  - by intros [= ->].
  - destruct (step a s); [apply IH|done].
Qed.

Lemma counted_run T schedule s s' :
  counted T s → run schedule s = Some s' → counted T s'.
Proof. apply run_invariant. intros a s1 s2. apply counted_step. Qed.

Lemma step_workers_length a s s' :
  step a s = Some s' → length (workers s') = length (workers s).
Proof.
  intros Hstep. destruct a; simpl in Hstep;
    repeat case_match; simplify_eq; simpl; by rewrite ?length_insert.
Qed.

Lemma run_workers_length schedule s s' :
  run schedule s = Some s' → length (workers s') = length (workers s).
Proof.
  apply (run_invariant (λ s', length (workers s') = length (workers s)));
    [|done].
  intros a s1 s2 <- Hstep. by eapply step_workers_length.
Qed.

Lemma counted_initial threads dir err :
  counted (files_tokens (regular_files dir))
          (initial_state threads dir err).
Proof.
  split; simpl; [done| |].
  - intros Hex. apply Exists_exists in Hex as (w & Hw & Hpast).
    apply elem_of_replicate in Hw as [-> _]. done.
  - exists ∅, (replicate (Z.to_nat threads) ∅). split_and!.
    + by rewrite wrap_empty, shards_of_empty.
    + induction (Z.to_nat threads); constructor; [|done].
      simpl. by rewrite wrap_empty.
    + unfold unread. simpl.
      assert (msum (replicate (Z.to_nat threads) ∅) = ∅) as ->.
      { induction (Z.to_nat threads) as [|n IH]; [done|].
        simpl. by rewrite IH, (left_id ∅ (⊎)). }
      assert (replicate (Z.to_nat threads) (Popping ∅) ≫= reading = []) as ->.
      { induction (Z.to_nat threads) as [|n IH]; [done|]. by simpl. }
      rewrite (right_id [] (++)). multiset_eq.
Qed.

(** Once the workers are joined the sharded table holds every token. *)
Lemma counted_joined T s :
  counted T s → joined s → workers s ≠ [] →
  global_counts s = shards_of hash (wrap T).
Proof.
  intros [Hdone Hdrained (G & As & Hglobal & Hgh & <-)] [Hd Hall] Hne.
  assert (Exists past_pop (workers s)) as Hex.
  { destruct (workers s) as [|w ws]; [done|].
    apply Forall_cons in Hall as [-> _]. by left. }
  destruct (Hdrained Hex) as [Hq _].
  assert (msum As = ∅ ∧ workers s ≫= reading = []) as [HAs Hr].
  { clear -Hgh Hall. induction Hgh as [|w A ws As Hw Hgh IH]; [done|].
    apply Forall_cons in Hall as [-> Hall].
    destruct (IH Hall) as [HAs Hr]. csimpl in *. subst A.
    by rewrite HAs, Hr, (left_id ∅ (⊎)). }
  rewrite Hglobal. unfold unread. rewrite (Hdone Hd), Hq, Hr, HAs. simpl.
  rewrite files_tokens_nil. f_equal. f_equal. multiset_eq.
Qed.

(** The sharded table at the end of any complete run, whatever the
    number of workers and the schedule. *)
Lemma joined_global threads dir err schedule s :
  1 <= threads →
  run schedule (initial_state threads dir err) = Some s → joined s →
  global_counts s
  = shards_of hash (tally_files open_file min_len (regular_files dir)).
Proof.
  intros Hthreads Hrun Hjoined. rewrite tally_files_wrap.
  eapply counted_joined; [|done|].
  - eapply counted_run; [apply counted_initial|done].
  - apply run_workers_length in Hrun. simpl in Hrun.
    rewrite length_replicate in Hrun.
    destruct (workers s); [simpl in Hrun; lia|done].
Qed.

End Counting.

(** ** Every run can be completed, and no run goes on for ever *)

Lemma size_delete_Some (m : gmap string Z) word count :
  m !! word = Some count → size m = S (size (delete word m)).
Proof.
  intros Hw. rewrite <- (insert_delete_id m word count) at 1 by done.
  apply map_size_insert_None, lookup_delete_eq.
Qed.

Lemma size_add_count word count (m : gmap string Z) :
  (size (add_count word count m) ≤ S (size m))%nat.
Proof.
  unfold add_count. rewrite map_size_insert.
  destruct (m !! word); simpl; lia.
Qed.

Lemma size_count_tokens ws (m : gmap string Z) :
  (size (count_tokens ws m) ≤ size m + length ws)%nat.
Proof.
  revert m. induction ws as [|w ws IH]; intros m; simpl; [lia|].
  etrans; [apply IH|]. pose proof (size_add_count w 1 m). unfold incr. lia.
Qed.

Lemma consume_file_count content min_len m :
  consume_file content min_len m
  = count_tokens (content_emits min_len content) m.
Proof.
  unfold consume_file, content_emits.
  revert m. induction (getline_loop content EmptyString) as [|line lines IH];
    intros m; simpl; [done|].
  rewrite count_tokens_app, IH. unfold parse_line_and_count.
  by rewrite scan_count.
Qed.

Section Termination.

Local Open Scope nat_scope.

Variable hash : string → N.
Variable open_file : string → option string.
Variable min_len : Z.

Local Abbreviation step := (step hash open_file min_len).
Local Abbreviation run := (run hash open_file min_len).
Local Abbreviation file_weight := (file_weight open_file min_len).
Local Abbreviation entry_weight := (entry_weight open_file min_len).
Local Abbreviation worker_weight := (worker_weight open_file min_len).
Local Abbreviation weight := (weight open_file min_len).

Lemma sum_list_insert (ws : list worker) i w w' :
  ws !! i = Some w →
  sum_list (worker_weight <$> <[i:=w']> ws) + worker_weight w
  = sum_list (worker_weight <$> ws) + worker_weight w'.
Proof.
  intros Hi. pose proof (lookup_lt_Some _ _ _ Hi).
  rewrite insert_take_drop by done.
  rewrite <- (take_drop_middle _ _ _ Hi) at 3.
  rewrite !fmap_app, !fmap_cons, !sum_list_with_app. simpl. lia.
Qed.

(** Every action lowers the weight. *)
Lemma step_weight a s s' : step a s = Some s' → weight s' < weight s.
Proof.
  intros Hstep. unfold weight. destruct a; csimpl in Hstep.
  - destruct (pending s) as [|[path regular] rest] eqn:Hp; simplify_eq.
    csimpl. rewrite ?Hp.
    destruct regular; csimpl; unfold entry_weight; csimpl;
      rewrite ?fmap_app, ?sum_list_with_app; csimpl; lia.
  - destruct (pending s) eqn:Hp; [|done].
    destruct (iter_error s) eqn:He; simplify_eq.
    csimpl. rewrite ?Hp, ?He. csimpl. lia.
  - destruct (catching s) eqn:Hc; simplify_eq.
    csimpl. rewrite ?Hc. csimpl. lia.
  - destruct (pending s) eqn:Hp; [|done].
    destruct (iter_error s) eqn:He; [done|].
    destruct (catching s) eqn:Hc; [|done].
    destruct (producer_done (queue s)) eqn:Hd; simplify_eq.
    csimpl. rewrite ?Hp, ?He, ?Hc, ?Hd. csimpl. lia.
  - destruct (workers s !! i) as [[local_counts| | | |]|] eqn:Hi; try done.
    unfold pop in Hstep.
    destruct (q (queue s)) as [|file_path rest] eqn:Hq.
    + destruct (producer_done (queue s)) eqn:Hd; simplify_eq. csimpl.
      pose proof (sum_list_insert _ _ _ (Merging local_counts) Hi).
      csimpl in *. rewrite ?Hq, ?Hd. csimpl. lia.
    + simplify_eq. csimpl. rewrite ?Hq. csimpl.
      pose proof (sum_list_insert _ _ _ (Reading local_counts file_path) Hi).
      csimpl in *. rewrite ?Hq, ?Hd. csimpl. lia.
  - destruct (workers s !! i) as [[|local_counts file_path| | |]|] eqn:Hi;
      try done.
    destruct (open_file file_path) as [content|] eqn:Hopen; simplify_eq; csimpl.
    + pose proof (sum_list_insert _ _ _
        (Popping (consume_file content min_len local_counts)) Hi) as Hsum.
      csimpl in Hsum. unfold file_weight, file_emits in Hsum.
      rewrite Hopen in Hsum.
      rewrite consume_file_count in *.
      pose proof (size_count_tokens (content_emits min_len content)
                    local_counts).
      lia.
    + pose proof (sum_list_insert _ _ _
        (Writing local_counts (open_failure_insertions file_path)) Hi)
        as Hsum.
      csimpl in Hsum. lia.
  - destruct (workers s !! i) as [[| | | |local_counts insertions]|] eqn:Hi;
      try done.
    destruct insertions as [|insertion rest]; simplify_eq; csimpl.
    + pose proof (sum_list_insert _ _ _ (Popping local_counts) Hi) as Hsum.
      csimpl in Hsum. lia.
    + pose proof (sum_list_insert _ _ _ (Writing local_counts rest) Hi)
        as Hsum.
      csimpl in Hsum. lia.
  - destruct (workers s !! i) as [[| |unmerged| |]|] eqn:Hi; try done.
    destruct (unmerged !! word) as [count|] eqn:Hword; simplify_eq. csimpl.
    pose proof (sum_list_insert _ _ _ (Merging (delete word unmerged)) Hi)
      as Hsum.
    csimpl in Hsum. pose proof (size_delete_Some _ _ _ Hword). lia.
  - destruct (workers s !! i) as [[| |unmerged| |]|] eqn:Hi; try done.
    case_bool_decide; simplify_eq. csimpl.
    pose proof (sum_list_insert _ _ _ Exited Hi) as Hsum.
    csimpl in Hsum. lia.
Qed.

(** No run is longer than the weight it starts from. *)
Lemma run_bounded schedule s s' :
  run schedule s = Some s' → length schedule + weight s' ≤ weight s.
Proof.
  revert s. induction schedule as [|a schedule IH]; intros s Hrun;
    simpl in Hrun.
  - simplify_eq. simpl. lia.
  - destruct (step a s) as [s1|] eqn:Ha; [|done].
    apply step_weight in Ha. apply IH in Hrun. simpl. lia.
Qed.

Lemma workers_all_exited (ws : list worker) :
  Forall (λ w, w = Exited) ws ∨ ∃ i w, ws !! i = Some w ∧ w ≠ Exited.
Proof.
  induction ws as [|w ws [IH|(i & w' & Hi & Hw')]].
  - by left.
  - destruct w; [right; by eexists 0%nat, _ ..|left; by constructor
                 |right; by eexists 0%nat, _].
  - right. by exists (S i), w'.
Qed.

(** Unless the workers are joined, some thread can act: nothing is ever
    stuck. *)
Lemma progress s : joined s ∨ ∃ a s', step a s = Some s'.
Proof.
  destruct (pending s) as [|[path regular] rest] eqn:Hp;
    [|right; exists Walk; simpl; rewrite Hp; eauto].
  destruct (iter_error s) as [what|] eqn:He;
    [right; exists Catch; simpl; rewrite Hp, He; eauto|].
  destruct (catching s) as [|insertion rest'] eqn:Hc;
    [|right; exists CatchWrite; simpl; rewrite Hc; eauto].
  destruct (producer_done (queue s)) eqn:Hd;
    [|right; exists SetDone; simpl; rewrite Hp, He, Hc, Hd; eauto].
  destruct (workers_all_exited (workers s)) as [Hall|(i & w & Hi & Hw)];
    [by left|right].
  destruct w as [local_counts|local_counts file_path|unmerged|
                 |local_counts insertions]; [| | |done|].
  - exists (Pop i). simpl. rewrite Hi. unfold pop. rewrite Hd.
    destruct (q (queue s)); eauto.
  - exists (ReadFile i). simpl. rewrite Hi.
    destruct (open_file file_path); eauto.
  - destruct (decide (unmerged = ∅)) as [->|Hne].
    + exists (Exit i). simpl. rewrite Hi. rewrite bool_decide_true by done.
      eauto.
    + apply map_choose in Hne as (word & count & Hword).
      exists (Merge i word). simpl. rewrite Hi, Hword. eauto.
  - exists (Write i). simpl. rewrite Hi. destruct insertions; eauto.
Qed.

(** From any state the run can be completed: the workers drain the queue,
    merge and are joined. *)
Lemma run_completes s : ∃ schedule s', run schedule s = Some s' ∧ joined s'.
Proof.
  remember (weight s) as n eqn:Hn. revert s Hn.
  induction n as [n IH] using lt_wf_ind. intros s ->.
  destruct (progress s) as [Hj|(a & s1 & Ha)].
  - by exists [], s.
  - destruct (IH (weight s1) (step_weight _ _ _ Ha) s1 eq_refl)
      as (schedule & s' & Hrun & Hj).
    exists (a :: schedule), s'. simpl. by rewrite Ha.
Qed.

End Termination.

(** ** The ranking *)

Global Instance ord_dec : RelDecision ord.
Proof. intros a b. unfold ord. apply _. Defined.

Lemma string_ltb_leb s t : String.ltb s t = negb (String.leb t s).
Proof.
  unfold String.ltb, String.leb. rewrite (String.compare_antisym s t).
  by destruct (String.compare t s).
Qed.

Lemma comp_spec a b :
  comp a b = true ↔ a.2 > b.2 ∨ (a.2 = b.2 ∧ String.ltb a.1 b.1 = true).
Proof.
  unfold comp. case_bool_decide as Hne.
  - rewrite bool_decide_eq_true. split; [auto|]. by intros [?|[? _]].
  - split; [auto|]. intros [?|[_ ?]]; [lia|done].
Qed.

Lemma ord_spec a b :
  ord a b ↔ a.2 > b.2 ∨ (a.2 = b.2 ∧ String.le a.1 b.1).
Proof.
  unfold ord. rewrite <- not_true_iff_false, comp_spec, string_ltb_leb.
  unfold String.le. rewrite negb_true_iff.
  destruct (String.leb a.1 b.1) eqn:Hle; simpl; split.
  - intros Hn. destruct (decide (a.2 > b.2)); [auto|].
    destruct (decide (a.2 = b.2)); [auto|]. exfalso. apply Hn. lia.
  - intros [?|[? _]] [?|[? ?]]; (lia || done).
  - intros Hn. left. destruct (decide (a.2 > b.2)); [done|].
    exfalso. apply Hn. destruct (decide (b.2 > a.2)); [auto|].
    right. split; [lia|done].
  - intros [?|[_ []]] [?|[? _]]; lia.
Qed.

Global Instance ord_total : Total ord.
Proof.
  intros a b. rewrite !ord_spec.
  destruct (total String.le a.1 b.1); destruct (Z.lt_total a.2 b.2) as [?|[?|?]];
    (lia || auto with lia).
Qed.

Global Instance ord_trans : Transitive ord.
Proof.
  intros a b c. rewrite !ord_spec.
  intros [?|[? Hab]] [?|[? Hbc]]; [left; lia..|].
  right. split; [lia|]. by etrans.
Qed.

Global Instance ord_antisymm : AntiSymm (=) ord.
Proof.
  intros [w1 c1] [w2 c2]. rewrite !ord_spec. simpl.
  intros [?|[? H12]] [?|[? H21]]; try lia.
  f_equal; [|done]. by apply (anti_symm String.le).
Qed.

Lemma ord_refl a : ord a a.
Proof. destruct (total ord a a); done. Qed.

(** [select_first] picks an element that precedes all the others. *)
Lemma select_first_spec x l m rest :
  select_first x l = (m, rest) →
  m :: rest ≡ₚ x :: l ∧ Forall (ord m) (x :: l).
Proof.
  revert x m rest. induction l as [|y l IH]; intros x m rest; simpl.
  - intros [= <- <-]. split; [done|]. constructor; [apply ord_refl|done].
  - destruct (comp y x) eqn:Hyx.
    + destruct (select_first y l) as [m' rest'] eqn:Hsel. intros [= <- <-].
      destruct (IH _ _ _ Hsel) as [Hperm Hall]. split.
      * by rewrite (Permutation_swap x m' rest'), Hperm.
      * apply Forall_cons in Hall as [Hy Hall].
        constructor; [|by constructor].
        etrans; [done|]. destruct (total ord y x) as [?|Hxy]; [done|].
        unfold ord in Hxy. congruence.
    + destruct (select_first x l) as [m' rest'] eqn:Hsel. intros [= <- <-].
      destruct (IH _ _ _ Hsel) as [Hperm Hall]. split.
      * rewrite (Permutation_swap y m' rest'), Hperm. apply Permutation_swap.
      * apply Forall_cons in Hall as [Hx Hall].
        constructor; [done|]. constructor; [|done]. by etrans.
Qed.

(** The contract of [std::partial_sort]: a permutation whose first [k]
    places (all of them, when there are fewer) are in order and precede
    all the others. *)
Lemma partial_sort_spec k l :
  ∃ pre post,
    partial_sort k l = pre ++ post
    ∧ length pre = (k `min` length l)%nat
    ∧ pre ++ post ≡ₚ l
    ∧ StronglySorted ord pre
    ∧ Forall (λ a, Forall (ord a) post) pre.
Proof.
  revert l. induction k as [|k IH]; intros l.
  { exists [], l. split_and!; try done; constructor. }
  destruct l as [|x l]; simpl.
  { exists [], []. split_and!; try done; constructor. }
  destruct (select_first x l) as [m rest] eqn:Hsel.
  destruct (select_first_spec _ _ _ _ Hsel) as [Hperm Hall].
  destruct (IH rest) as (pre & post & Heq & Hlen & Hperm' & Hsorted & Hle).
  assert (Forall (ord m) (pre ++ post)) as Hm.
  { rewrite Hperm'. rewrite <- Hperm in Hall. by apply Forall_cons in Hall as [_ ?]. }
  apply Forall_app in Hm as [Hpre Hpost].
  exists (m :: pre), post. split_and!.
  - by rewrite Heq.
  - simpl. rewrite Hlen. f_equal. f_equal.
    apply Permutation_length in Hperm. simpl in Hperm. lia.
  - simpl. by rewrite Hperm', Hperm.
  - by constructor.
  - by constructor.
Qed.

(** The first [k] places are fixed by the elements alone. *)
Lemma sorted_prefix_unique (pre1 post1 pre2 post2 : list (string * Z)) :
  pre1 ++ post1 ≡ₚ pre2 ++ post2 → length pre1 = length pre2 →
  StronglySorted ord pre1 → StronglySorted ord pre2 →
  Forall (λ a, Forall (ord a) post1) pre1 →
  Forall (λ a, Forall (ord a) post2) pre2 →
  pre1 = pre2.
Proof.
  intros Hperm Hlen Hs1 Hs2 Hle1 Hle2.
  assert (∀ pre post, StronglySorted ord pre →
            Forall (λ a, Forall (ord a) post) pre →
            StronglySorted ord (pre ++ merge_sort ord post)) as Hsort.
  { intros pre post Hs Hle. apply StronglySorted_app. split_and!; [|done|].
    - intros a b Ha Hb. rewrite Forall_forall in Hle.
      specialize (Hle a Ha). rewrite Forall_forall in Hle. apply Hle.
      by rewrite <- (merge_sort_Permutation ord post).
    - apply StronglySorted_merge_sort; apply _. }
  assert (pre1 ++ merge_sort ord post1 = pre2 ++ merge_sort ord post2) as Heq.
  { apply (StronglySorted_unique ord); [by apply Hsort..|].
    by rewrite !merge_sort_Permutation. }
  by apply app_inj_1 in Heq as [? _].
Qed.

(** What is printed does not depend on the order in which the entries
    were collected. *)
Lemma ranked_output_perm top_m l1 l2 :
  l1 ≡ₚ l2 → ranked_output top_m l1 = ranked_output top_m l2.
Proof.
  intros Hperm. unfold ranked_output, count_to_show.
  rewrite <- (Permutation_length Hperm).
  set (k := Z.to_nat _).
  assert (k ≤ length l1)%nat as Hk by (unfold k; lia).
  destruct (partial_sort_spec k l1) as (pre1 & post1 & -> & Hlen1 & Hp1 & Hs1 & Hle1).
  destruct (partial_sort_spec k l2) as (pre2 & post2 & -> & Hlen2 & Hp2 & Hs2 & Hle2).
  rewrite <- (Permutation_length Hperm) in Hlen2.
  rewrite !take_app_length' by lia.
  eapply sorted_prefix_unique; [|lia|done..].
  by rewrite Hp1, Hp2.
Qed.

Lemma ranked_output_spec top_m l :
  ∃ post,
    ranked_output top_m l ++ post ≡ₚ l
    ∧ length (ranked_output top_m l) = count_to_show top_m l
    ∧ StronglySorted ord (ranked_output top_m l)
    ∧ Forall (λ a, Forall (ord a) post) (ranked_output top_m l).
Proof.
  unfold ranked_output.
  assert (count_to_show top_m l ≤ length l)%nat as Hk
    by (unfold count_to_show; lia).
  destruct (partial_sort_spec (count_to_show top_m l) l)
    as (pre & post & -> & Hlen & Hp & Hs & Hle).
  rewrite take_app_length' by lia. exists post. split_and!; [done|lia|done..].
Qed.

(** ** Maximal runs of word characters *)

Lemma word_runs_sep sep s : no_word_char sep → word_runs (sep +:+ s) = word_runs s.
Proof.
  unfold no_word_char. induction sep as [|c sep IH]; [done|]. simpl.
  intros [Hc Hsep]%andb_true_iff.
  apply negb_true_iff in Hc. rewrite Hc. auto.
Qed.

Lemma word_runs_run r rest :
  r ≠ EmptyString → only_word_chars r → starts_with_word_char rest = false →
  word_runs (r +:+ rest) = r :: word_runs rest.
Proof.
  unfold only_word_chars. intros Hr Hword Hrest.
  induction r as [|c r IH]; [done|]. simpl in Hword.
  apply andb_true_iff in Hword as [Hc Hword].
  rewrite string_app_cons. simpl. rewrite Hc.
  destruct r as [|c' r].
  - change (EmptyString +:+ rest) with rest. rewrite Hrest.
    by destruct (word_runs rest).
  - rewrite IH by done. rewrite string_app_cons. simpl.
    simpl in Hword. apply andb_true_iff in Hword as [-> _]. done.
Qed.

Lemma runs_of_unique line runs : runs_of line runs → runs = word_runs line.
Proof.
  induction 1 as [sep Hsep|sep r rest rs Hsep Hr Hword Hrest _ IH].
  - rewrite <- (string_app_nil_r sep). by rewrite word_runs_sep.
  - rewrite word_runs_sep, word_runs_run by done. by rewrite IH.
Qed.

Lemma runs_of_sep c line runs :
  is_word_char c = false → runs_of line runs → runs_of (String c line) runs.
Proof.
  intros Hc [sep Hsep|sep r rest rs Hsep Hr Hword Hrest Hruns].
  - apply runs_none. unfold no_word_char in *. simpl. by rewrite Hc.
  - rewrite <- string_app_cons. apply runs_cons; try done.
    unfold no_word_char in *. simpl. by rewrite Hc.
Qed.

Lemma runs_of_word_runs line : runs_of line (word_runs line).
Proof.
  induction line as [|c rest IH]; simpl.
  - by apply runs_none.
  - destruct (is_word_char c) eqn:Hc; [|by apply runs_of_sep].
    destruct (starts_with_word_char rest) eqn:Hrest.
    + pose proof (word_runs_starts _ Hrest).
      destruct (word_runs rest) as [|r rs]; [done|].
      inversion IH as [|sep r' rest' rs' Hsep Hr Hword Hrest' Hruns]; subst.
      destruct sep as [|d sep].
      * apply (runs_cons EmptyString (String c r) rest' rs); try done.
        unfold only_word_chars in *. simpl. by rewrite Hc.
      * unfold no_word_char in Hsep. simpl in *.
        apply andb_true_iff in Hsep as [Hd _].
        rewrite Hrest in Hd. done.
    + apply (runs_cons EmptyString (String c EmptyString) rest (word_runs rest));
        try done.
      unfold only_word_chars. simpl. by rewrite Hc.
Qed.

(** ** The queue under sequences of operations *)

Lemma popped_fifo ops Q :
  popped ops Q ++ q (queue_after ops Q) = q Q ++ pushed ops.
Proof.
  revert Q. unfold queue_after.
  induction ops as [|op ops IH]; intros [items closed].
  - simpl. by rewrite (right_id [] (++)).
  - destruct op as [file_path| |]; csimpl.
    + rewrite IH. simpl. by rewrite <- (assoc (++)).
    + unfold pop. simpl. destruct items as [|file_path rest].
      * destruct closed; by rewrite IH.
      * simpl. by rewrite IH.
    + by rewrite IH.
Qed.

Lemma queue_after_closed ops Q :
  producer_done Q = true → producer_done (queue_after ops Q) = true.
Proof.
  revert Q. unfold queue_after.
  induction ops as [|op ops IH]; intros [items closed] Hd; [done|].
  simpl in *. subst closed. apply IH.
  destruct op; simpl; [done| |done].
  unfold pop. simpl. by destruct items.
Qed.

Lemma queue_after_drained ops Q :
  producer_done Q = true → q Q = [] → pushed ops = [] →
  queue_after ops Q = Q.
Proof.
  intros Hd Hq. destruct Q as [items closed]. simpl in *. subst.
  unfold queue_after.
  induction ops as [|op ops IH]; [done|].
  destruct op; csimpl; [done|apply IH..].
Qed.

(** ** Configuration *)

Example stoi_examples :
  stoi "8" = Some 8 ∧ stoi "  -3x" = Some (-3) ∧ stoi "+0" = Some 0
  ∧ stoi "x1" = None ∧ stoi "2147483648" = None
  ∧ stoi "-2147483648" = Some (-2147483648).
Proof. by vm_compute. Qed.

(** ** The printed sequence *)

Lemma StronglySorted_lookup {A} (R : relation A) (l : list A) i j a b :
  StronglySorted R l → l !! i = Some a → l !! j = Some b → (i < j)%nat →
  R a b.
Proof.
  intros Hs. revert i j. induction Hs as [|x l Hs IH Hx]; intros i j; [done|].
  destruct i as [|i], j as [|j]; simpl; try lia.
  - intros [= <-] Hb _. rewrite Forall_forall in Hx.
    apply Hx. by eapply list_elem_of_lookup_2.
  - intros Ha Hb ?. apply (IH i j); [done..|lia].
Qed.

(** ** The table the workers leave behind *)

Lemma table_count_shards_of hash m word :
  table_count hash (shards_of hash m) word = m !! word.
Proof.
  unfold table_count.
  rewrite lookup_shards_of by apply get_shard_index_lt. simpl.
  rewrite lookup_shard_of. by case_decide.
Qed.

Lemma shards_of_own_shard hash m k shard word :
  shards_of hash m !! k = Some shard → is_Some (shard !! word) →
  k = get_shard_index hash word.
Proof.
  intros Hk [c Hc]. pose proof (lookup_lt_Some _ _ _ Hk) as Hlt.
  rewrite length_shards_of in Hlt. rewrite lookup_shards_of in Hk by done.
  simplify_eq. rewrite lookup_shard_of in Hc. by case_decide.
Qed.

Lemma tally_files_perm open_file min_len files1 files2 :
  files1 ≡ₚ files2 →
  tally_files open_file min_len files1 = tally_files open_file min_len files2.
Proof.
  intros Hperm. rewrite !tally_files_wrap.
  by rewrite (files_tokens_perm _ _ _ _ Hperm).
Qed.

Lemma tally_files_readable open_file min_len files :
  tally_files open_file min_len (filter (λ p, is_Some (open_file p)) files)
  = tally_files open_file min_len files.
Proof. rewrite !tally_files_wrap. by rewrite files_tokens_readable. Qed.

(** ** Runs on the small directory *)

Example demo_final_tables :
  flatten_shards (global_counts (demo_final 1 (reverse demo_dir) demo_schedule1))
  = [("baz", 1); ("bar", 2); ("foo", 3)]
  ∧ flatten_shards
      (global_counts (demo_final 2 demo_dir demo_schedule2))
    = [("baz", 1); ("bar", 2); ("foo", 3)]
  ∧ cerr (demo_final 2 demo_dir demo_schedule2)
    = open_failure_insertions "gone.txt".
Proof. by vm_compute. Qed.

(** The diagnostics of two workers interleave: neither line is whole on
    [cerr]. *)
Example cerr_interleaves :
  joined (demo_final 2 demo_unreadable demo_schedule3)
  ∧ cerr (demo_final 2 demo_unreadable demo_schedule3)
    = ["Failed to open file: "; "Failed to open file: ";
       quoted "x"; quoted "y"; endl; endl]
  ∧ text (cerr (demo_final 2 demo_unreadable demo_schedule3))
    ≠ open_failure "x" +:+ open_failure "y"
  ∧ text (cerr (demo_final 2 demo_unreadable demo_schedule3))
    ≠ open_failure "y" +:+ open_failure "x".
Proof.
  split; [split; [reflexivity|vm_compute; repeat constructor]|].
  split; [by vm_compute|]. split; by vm_compute.
Qed.

Lemma demo_run threads dir schedule :
  is_Some (run demo_hash demo_open 1 schedule
             (initial_state threads dir None)) →
  run demo_hash demo_open 1 schedule (initial_state threads dir None)
  = Some (demo_final threads dir schedule).
Proof. unfold demo_final. by intros [s ->]. Qed.

(** ** Files that do not open *)

Section Diagnostics.

Variable hash : string → N.
Variable open_file : string → option string.
Variable min_len : Z.

Local Abbreviation step := (step hash open_file min_len).
Local Abbreviation run := (run hash open_file min_len).
Local Abbreviation logged := (logged open_file).

Lemma reading_insert (ws : list worker) i w w' :
  ws !! i = Some w →
  ∃ F, ws ≫= reading ≡ₚ reading w ++ F
       ∧ <[i:=w']> ws ≫= reading ≡ₚ reading w' ++ F.
Proof.
  intros Hi. pose proof (lookup_lt_Some _ _ _ Hi) as Hlt.
  exists ((take i ws ≫= reading) ++ (drop (S i) ws ≫= reading)). split.
  - rewrite <- (take_drop_middle _ _ _ Hi) at 1. rewrite bind_app. simpl.
    by rewrite (assoc (++)), (comm (++) _ (reading w)), <- (assoc (++)).
  - rewrite insert_take_drop by done. rewrite bind_app. simpl.
    by rewrite (assoc (++)), (comm (++) _ (reading w')), <- (assoc (++)).
Qed.

(** An action only appends to [cerr]. *)
Lemma step_cerr a s s' :
  step a s = Some s' → ∃ out, cerr s' = cerr s ++ out.
Proof.
  intros Hstep. destruct a; simpl in Hstep.
  - destruct (pending s) as [|[path regular] rest]; simplify_eq.
    exists []. simpl. by rewrite (right_id_L [] (++)).
  - destruct (pending s); [|done]. destruct (iter_error s); simplify_eq.
    exists []. simpl. by rewrite (right_id_L [] (++)).
  - destruct (catching s) as [|insertion rest]; simplify_eq.
    by exists [insertion].
  - destruct (pending s); [|done]. destruct (iter_error s); [done|].
    destruct (catching s); [|done].
    destruct (producer_done (queue s)); simplify_eq.
    exists []. simpl. by rewrite (right_id_L [] (++)).
  - destruct (workers s !! i) as [[local_counts| | | |]|]; try done.
    destruct (pop (queue s)); simplify_eq;
      exists []; simpl; by rewrite (right_id_L [] (++)).
  - destruct (workers s !! i) as [[|local_counts file_path| | |]|]; try done.
    destruct (open_file file_path); simplify_eq;
      exists []; simpl; by rewrite (right_id_L [] (++)).
  - destruct (workers s !! i) as [[| | | |local_counts insertions]|];
      try done.
    destruct insertions as [|insertion rest]; simplify_eq.
    + exists []. simpl. by rewrite (right_id_L [] (++)).
    + by exists [insertion].
  - destruct (workers s !! i) as [[| |unmerged| |]|]; try done.
    destruct (unmerged !! word); simplify_eq.
    exists []. simpl. by rewrite (right_id_L [] (++)).
  - destruct (workers s !! i) as [[| |unmerged| |]|]; try done.
    case_bool_decide; simplify_eq.
    exists []. simpl. by rewrite (right_id_L [] (++)).
Qed.

(** A worker in its statement stays there, with the insertions it has
    still to make, until it makes the next one itself. *)
Lemma step_writing a s s' i local_counts insertions :
  step a s = Some s' →
  workers s !! i = Some (Writing local_counts insertions) →
  workers s' !! i = Some (Writing local_counts insertions)
  ∨ (∃ insertion rest,
       insertions = insertion :: rest
       ∧ workers s' !! i = Some (Writing local_counts rest)
       ∧ cerr s' = cerr s ++ [insertion])
  ∨ insertions = [].
Proof.
  intros Hstep Hi. pose proof (lookup_lt_Some _ _ _ Hi) as Hlt.
  destruct a; simpl in Hstep.
  - destruct (pending s) as [|[path regular] rest]; simplify_eq. by left.
  - destruct (pending s); [|done]. destruct (iter_error s); simplify_eq.
    by left.
  - destruct (catching s); simplify_eq. by left.
  - destruct (pending s); [|done]. destruct (iter_error s); [done|].
    destruct (catching s); [|done].
    destruct (producer_done (queue s)); simplify_eq. by left.
  - destruct (decide (i0 = i)) as [->|Hne]; [by rewrite Hi in Hstep|].
    destruct (workers s !! i0) as [[local_counts'| | | |]|]; try done.
    destruct (pop (queue s)); simplify_eq; left; simpl;
      by rewrite list_lookup_insert_ne.
  - destruct (decide (i0 = i)) as [->|Hne]; [by rewrite Hi in Hstep|].
    destruct (workers s !! i0) as [[|local_counts' file_path| | |]|];
      try done.
    destruct (open_file file_path); simplify_eq; left; simpl;
      by rewrite list_lookup_insert_ne.
  - destruct (decide (i0 = i)) as [->|Hne].
    + rewrite Hi in Hstep. destruct insertions as [|insertion rest];
        simplify_eq; [by right; right|].
      right. left. exists insertion, rest. simpl.
      by rewrite list_lookup_insert_eq.
    + destruct (workers s !! i0) as [[| | | |local_counts' insertions']|];
        try done.
      destruct insertions'; simplify_eq; left; simpl;
        by rewrite list_lookup_insert_ne.
  - destruct (decide (i0 = i)) as [->|Hne]; [by rewrite Hi in Hstep|].
    destruct (workers s !! i0) as [[| |unmerged| |]|]; try done.
    destruct (unmerged !! word); simplify_eq. left. simpl.
    by rewrite list_lookup_insert_ne.
  - destruct (decide (i0 = i)) as [->|Hne]; [by rewrite Hi in Hstep|].
    destruct (workers s !! i0) as [[| |unmerged| |]|]; try done.
    case_bool_decide; simplify_eq. left. simpl.
    by rewrite list_lookup_insert_ne.
Qed.

(** A file leaves the unread ones only by being read; when it does not
    open, the worker that held it is then in the statement that reports
    it, with all three insertions to make. *)
Lemma step_unread a s s' p :
  step a s = Some s' → p ∈ unread s → open_file p = None →
  p ∈ unread s'
  ∨ ∃ i local_counts,
      workers s' !! i = Some (Writing local_counts (open_failure_insertions p)).
Proof.
  intros Hstep Hin Hopen. revert Hin. destruct a; simpl in Hstep.
  - destruct (pending s) as [|[path regular] rest] eqn:Hp; simplify_eq.
    unfold unread. simpl. rewrite Hp, regular_files_cons. intros Hin. left.
    revert Hin. destruct regular; list_mem.
  - destruct (pending s) eqn:Hp; [|done].
    destruct (iter_error s); simplify_eq.
    unfold unread. simpl. rewrite Hp. auto.
  - destruct (catching s); simplify_eq. unfold unread. simpl. auto.
  - destruct (pending s) eqn:Hp; [|done]. destruct (iter_error s); [done|].
    destruct (catching s); [|done].
    destruct (producer_done (queue s)); simplify_eq.
    unfold unread. simpl. auto.
  - destruct (workers s !! i) as [[local_counts| | | |]|] eqn:Hi; try done.
    unfold pop in Hstep.
    destruct (q (queue s)) as [|file_path rest] eqn:Hq.
    + destruct (producer_done (queue s)); simplify_eq.
      destruct (reading_insert _ _ _ (Merging local_counts) Hi)
        as (F & HF & HF').
      unfold unread. simpl. rewrite HF, HF'. auto.
    + simplify_eq.
      destruct (reading_insert _ _ _ (Reading local_counts file_path) Hi)
        as (F & HF & HF').
      unfold unread. simpl. rewrite Hq, HF, HF'. intros Hin. left.
      revert Hin. list_mem.
  - destruct (workers s !! i) as [[|local_counts file_path| | |]|] eqn:Hi;
      try done.
    pose proof (lookup_lt_Some _ _ _ Hi) as Hlt.
    destruct (open_file file_path) as [content|] eqn:Hfile; simplify_eq.
    + destruct (reading_insert _ _ _
        (Popping (consume_file content min_len local_counts)) Hi)
        as (F & HF & HF').
      unfold unread. simpl. rewrite HF, HF'. simpl.
      rewrite !elem_of_app, elem_of_cons.
      intros [?|[?|[->|?]]]; auto. congruence.
    + destruct (reading_insert _ _ _
        (Writing local_counts (open_failure_insertions file_path)) Hi)
        as (F & HF & HF').
      unfold unread. simpl. rewrite HF, HF'. simpl.
      rewrite !elem_of_app, elem_of_cons.
      intros [?|[?|[->|?]]]; auto. right. exists i, local_counts.
      by rewrite list_lookup_insert_eq.
  - destruct (workers s !! i) as [[| | | |local_counts insertions]|] eqn:Hi;
      try done.
    destruct insertions as [|insertion rest]; simplify_eq.
    + destruct (reading_insert _ _ _ (Popping local_counts) Hi)
        as (F & HF & HF').
      unfold unread. simpl. rewrite HF, HF'. auto.
    + destruct (reading_insert _ _ _ (Writing local_counts rest) Hi)
        as (F & HF & HF').
      unfold unread. simpl. rewrite HF, HF'. auto.
  - destruct (workers s !! i) as [[| |unmerged| |]|] eqn:Hi; try done.
    destruct (unmerged !! word) as [count|]; simplify_eq.
    destruct (reading_insert _ _ _ (Merging (delete word unmerged)) Hi)
      as (F & HF & HF').
    unfold unread. simpl. rewrite HF, HF'. auto.
  - destruct (workers s !! i) as [[| |unmerged| |]|] eqn:Hi; try done.
    case_bool_decide; simplify_eq.
    destruct (reading_insert _ _ _ Exited Hi) as (F & HF & HF').
    unfold unread. simpl. rewrite HF, HF'. auto.
Qed.

Lemma logged_run threads dir err schedule s :
  run schedule (initial_state threads dir err) = Some s →
  logged (regular_files dir) s.
Proof.
  apply (run_invariant hash open_file min_len (logged (regular_files dir))).
  - intros a s1 s2 Hlog Hstep p Hp Hopen.
    destruct (step_cerr _ _ _ Hstep) as [out Hout].
    destruct (Hlog p Hp Hopen)
      as [Hin|[(i & local_counts & written & rest & Hi & Hparts & Hsub)|Hsub]].
    + destruct (step_unread _ _ _ _ Hstep Hin Hopen)
        as [?|(i & local_counts & Hi)]; [by left|].
      right. left. exists i, local_counts, [], (open_failure_insertions p).
      split_and!; [done..|apply sublist_nil_l].
    + destruct (step_writing _ _ _ _ _ _ Hstep Hi)
        as [Hi'|[(insertion & rest' & -> & Hi' & Hcerr)| ->]].
      * right. left. exists i, local_counts, written, rest.
        split_and!; [done..|]. rewrite Hout. by apply sublist_inserts_r.
      * right. left. exists i, local_counts, (written ++ [insertion]), rest'.
        split_and!; [done|by rewrite <-(assoc_L (++))|].
        rewrite Hcerr. by apply sublist_app.
      * right. right. unfold reported. rewrite (right_id_L [] (++)) in Hparts.
        subst written. rewrite Hout. by apply sublist_inserts_r.
    + right. right. unfold reported in *. rewrite Hout.
      by apply sublist_inserts_r.
  - intros p Hp _. left. unfold unread. simpl. revert Hp. list_mem.
Qed.

Lemma joined_unread T s :
  counted hash open_file min_len T s → joined s → workers s ≠ [] →
  unread s = [].
Proof.
  intros [Hdone Hdrained _] [Hd Hall] Hne.
  assert (Exists past_pop (workers s)) as Hex.
  { destruct (workers s) as [|w ws]; [done|].
    apply Forall_cons in Hall as [-> _]. by left. }
  destruct (Hdrained Hex) as [Hq _].
  unfold unread. rewrite (Hdone Hd), Hq. simpl.
  clear -Hall. induction Hall as [|w ws -> _ IH]; [done|]. by csimpl.
Qed.

(** At the end every regular file that did not open is reported. *)
Lemma joined_logged threads dir err schedule s :
  1 <= threads →
  run schedule (initial_state threads dir err) = Some s → joined s →
  ∀ p, p ∈ regular_files dir → open_file p = None → reported p s.
Proof.
  intros Hthreads Hrun Hjoined p Hp Hopen.
  assert (unread s = []) as Hunread.
  { eapply joined_unread; [|done|].
    - eapply counted_run; [apply counted_initial|done].
    - apply run_workers_length in Hrun. simpl in Hrun.
      rewrite length_replicate in Hrun.
      destruct (workers s); [simpl in Hrun; lia|done]. }
  destruct (logged_run _ _ _ _ _ Hrun p Hp Hopen)
    as [Hin|[(i & local_counts & written & rest & Hi & _)|]]; [| |done].
  - rewrite Hunread in Hin. by apply elem_of_nil in Hin.
  - destruct Hjoined as [_ Hall].
    by pose proof (Forall_lookup_1 _ _ _ _ Hall Hi).
Qed.

End Diagnostics.

(** ** The shape of the entries *)

Lemma runs_of_forall line runs :
  runs_of line runs →
  Forall (λ r, r ≠ EmptyString ∧ only_word_chars r) runs.
Proof. induction 1; by constructor. Qed.

Lemma lowercase_word r :
  only_word_chars r → string_forall lower_word_char (lowercase r) = true.
Proof.
  unfold only_word_chars, lower_word_char.
  induction r as [|c r IH]; [done|]. simpl.
  intros [Hc Hr]%andb_true_iff.
  by rewrite tolower_word_char, tolower_not_upper, IH.
Qed.

Lemma strlen_lowercase r : strlen (lowercase r) = strlen r.
Proof. unfold strlen. induction r; simpl in *; lia. Qed.

Lemma tokens_well_formed line min_len word :
  1 <= min_len → word ∈ tokens line min_len → well_formed_word min_len word.
Proof.
  intros Hmin. unfold tokens. rewrite list_elem_of_filter.
  intros [Hlen (r & -> & Hr)%list_elem_of_fmap].
  pose proof (runs_of_forall _ _ (runs_of_word_runs line)) as Hruns.
  rewrite Forall_forall in Hruns. destruct (Hruns r Hr) as [Hne Hword].
  split_and!; [|done|by apply lowercase_word].
  intros Hempty. rewrite Hempty in Hlen. unfold strlen in Hlen. simpl in Hlen.
  lia.
Qed.

Lemma files_emits_well_formed open_file min_len files word :
  1 <= min_len <= INT_MAX →
  word ∈ files ≫= file_emits open_file min_len →
  well_formed_word min_len word.
Proof.
  intros Hmin (p & Hword & _)%list_elem_of_bind.
  unfold file_emits in Hword. destruct (open_file p) as [content|]; [|set_solver].
  unfold content_emits in Hword.
  apply list_elem_of_bind in Hword as (line & Hword & _).
  rewrite scan_emits_tokens in Hword by done.
  apply (tokens_well_formed line); [lia|done].
Qed.

Lemma multiplicity_le_length (l : list string) word :
  (multiplicity word (list_to_set_disj l : gmultiset string) ≤ length l)%nat.
Proof.
  induction l as [|x l IH]; simpl; [by rewrite multiplicity_empty|].
  rewrite multiplicity_disj_union, multiplicity_singleton.
  case_decide; lia.
Qed.

(** An entry of a table that stands for some of the tokens of [T]. *)
Lemma wrap_entry (A T : gmultiset string) word count :
  A ⊆ T → wrap A !! word = Some count →
  word ∈ T ∧ 0 <= count < UINT64_MOD
  ∧ (Z.of_nat (multiplicity word T) < UINT64_MOD → 1 <= count).
Proof.
  intros Hsub. rewrite lookup_wrap. case_decide as Hin; [|done].
  intros [= <-]. pose proof (Hsub word) as Hle.
  pose proof (proj1 (elem_of_multiplicity _ _) Hin) as Hpos.
  split; [|split].
  - apply elem_of_multiplicity. lia.
  - apply Z.mod_pos_bound. done.
  - intros Hbound. rewrite Z.mod_small by lia. lia.
Qed.

Lemma ghost_table ws As w :
  Forall2 ghost ws As → w ∈ ws →
  ∃ A, worker_table w = wrap A ∧ A ⊆ msum As.
Proof.
  induction 1 as [|w' A ws As Hw _ IH]; [set_solver|].
  rewrite elem_of_cons. intros [->|Hin].
  - exists A. split; [|simpl; multiset_sub].
    destruct w'; simpl in *; [done..| |done]. subst. by rewrite wrap_empty.
  - destruct (IH Hin) as (A' & HA' & Hsub). exists A'.
    split; [done|]. simpl. intros x. specialize (Hsub x).
    rewrite multiplicity_disj_union. lia.
Qed.

(** * The claims *)

(** C1. The concrete scenario. A directory with exactly two regular
    files, one holding the single line "foo foo bar" and the other the
    single line "bar baz foo" (with or without a newline at its end),
    [min_len = 1] and [top_m = 2]: whatever the hash, the number of
    workers, the order of the directory, the schedule and the order in
    which the entries are collected, the program prints, and what it
    prints is foo 3, then bar 2. *)
Theorem concrete_scenario (hash : string → N)
    (open_file : string → option string) file_a content_a file_b content_b
    dir err threads path :
  open_file file_a = Some content_a →
  getline_loop content_a EmptyString = ["foo foo bar"] →
  open_file file_b = Some content_b →
  getline_loop content_b EmptyString = ["bar baz foo"] →
  regular_files dir ≡ₚ [file_a; file_b] →
  1 <= threads →
  (∃ out, prints hash open_file (mkConfig threads 2 1 path) dir err out)
  ∧ (∀ out, prints hash open_file (mkConfig threads 2 1 path) dir err out →
            out = [("foo", 3); ("bar", 2)]).
Proof.
  intros Ha Hlines_a Hb Hlines_b Hfiles Hthreads.
  assert (tally_files open_file 1 (regular_files dir)
          = {[ "foo" := 3; "bar" := 2; "baz" := 1 ]}) as Htally.
  { rewrite (tally_files_perm _ _ _ _ Hfiles).
    unfold tally_files, tally_file, consume_file. simpl.
    rewrite Ha, Hb, Hlines_a, Hlines_b. by vm_compute. }
  split.
  - destruct (run_completes hash open_file 1 (initial_state threads dir err))
      as (schedule & s & Hrun & Hjoined).
    exists (ranked_output 2 (flatten_shards (global_counts s))).
    by exists schedule, s, (flatten_shards (global_counts s)).
  - intros out (schedule & s & sorted_words & Hrun & Hjoined & Hwords & ->).
    simpl in *.
    rewrite (joined_global _ _ _ _ _ _ _ _ Hthreads Hrun Hjoined) in Hwords.
    rewrite Htally, flatten_shards_of in Hwords.
    rewrite (ranked_output_perm _ _ _ Hwords). by vm_compute.
Qed.

Lemma concrete_scenario_witness :
  ∃ out, prints demo_hash demo_open (mkConfig 3 2 1 "logs") demo_two None out
         ∧ out = [("foo", 3); ("bar", 2)].
Proof.
  assert (demo_open "a.txt" = Some "foo foo bar") as Ha by reflexivity.
  assert (demo_open "b.txt" = Some "bar baz foo") as Hb by reflexivity.
  assert (getline_loop "foo foo bar" EmptyString = ["foo foo bar"])
    as Hlines_a by reflexivity.
  assert (getline_loop "bar baz foo" EmptyString = ["bar baz foo"])
    as Hlines_b by reflexivity.
  assert (regular_files demo_two ≡ₚ ["a.txt"; "b.txt"]) as Hfiles.
  { apply (Permutation_swap "a.txt" "b.txt" []). }
  assert (1 <= 3) as Hthreads by lia.
  destruct (concrete_scenario demo_hash demo_open "a.txt" "foo foo bar"
              "b.txt" "bar baz foo" demo_two None 3 "logs"
              Ha Hlines_a Hb Hlines_b Hfiles Hthreads) as [[out Hout] Hall].
  exists out. split; [exact Hout|]. apply Hall, Hout.
Defined.

(** C2. The tokenizer does what its description says: for every line and
    every [min_len >= 1], [word_runs] is the (only) splitting of the line
    into maximal runs of word characters; [parse_line_and_count] adds one
    to the count of the lower-cased run for exactly the runs that are at
    least [min_len] long, in the order of the line, the run that ends the
    line included; a word's entry grows by the number of its tokens, and a
    word without tokens keeps its entry or its absence. The line
    "a bee cat dogs" with [min_len = 4] gives only dogs:1. *)
Theorem tokenizer_correct line min_len (local_map : gmap string Z) :
  1 <= min_len <= INT_MAX →
  (∀ runs, runs_of line runs ↔ runs = word_runs line)
  ∧ parse_line_and_count line min_len local_map
    = count_tokens (tokens line min_len) local_map
  ∧ (∀ w,
       parse_line_and_count line min_len local_map !! w =
         if decide (multiplicity w
                      (list_to_set_disj (tokens line min_len) : gmultiset string)
                    = 0%nat)
         then local_map !! w
         else Some ((count_of local_map w
                     + Z.of_nat (multiplicity w
                         (list_to_set_disj (tokens line min_len)
                            : gmultiset string)))
                    mod UINT64_MOD))
  ∧ parse_line_and_count "a bee cat dogs" 4 ∅ = {[ "dogs" := 1 ]}.
Proof.
  intros Hmin.
  assert (parse_line_and_count line min_len local_map
          = count_tokens (tokens line min_len) local_map) as Hparse.
  { unfold parse_line_and_count. by rewrite scan_count, scan_emits_tokens. }
  split_and!.
  - intros runs. split; [apply runs_of_unique|intros ->; apply runs_of_word_runs].
  - done.
  - intros w. rewrite Hparse. apply count_tokens_lookup.
  - by vm_compute.
Qed.

Lemma tokenizer_correct_witness :
  1 <= 4 <= INT_MAX
  ∧ parse_line_and_count "a bee cat dogs" 4 {[ "dogs" := 7 ]}
    = count_tokens (tokens "a bee cat dogs" 4) {[ "dogs" := 7 ]}.
Proof.
  assert (1 <= 4 <= INT_MAX) as Hmin by (unfold INT_MAX; lia).
  split; [exact Hmin|].
  exact (proj1 (proj2 (tokenizer_correct "a bee cat dogs" 4
                         {[ "dogs" := 7 ]} Hmin))).
Defined.

(** C3. The printed sequence is in rank order: an entry never has a
    smaller count than a later one, and of two entries with equal counts
    the one with the lexicographically smaller word comes first. *)
Theorem ranked_order top_m (sorted_words : list (string * Z)) i j a b :
  ranked_output top_m sorted_words !! i = Some a →
  ranked_output top_m sorted_words !! j = Some b →
  ((i < j)%nat → b.2 <= a.2 ∧ (a.2 = b.2 → String.ltb b.1 a.1 = false))
  ∧ (a.2 = b.2 → String.ltb a.1 b.1 = true → (i < j)%nat).
Proof.
  intros Ha Hb.
  destruct (ranked_output_spec top_m sorted_words) as (_ & _ & _ & Hs & _).
  assert (∀ i j a b,
            ranked_output top_m sorted_words !! i = Some a →
            ranked_output top_m sorted_words !! j = Some b →
            (i < j)%nat → comp b a = false) as Hord.
  { intros ???? Ha' Hb' Hlt. by apply (StronglySorted_lookup ord _ _ _ _ _ Hs Ha' Hb'). }
  split.
  - intros Hlt. specialize (Hord _ _ _ _ Ha Hb Hlt).
    apply not_true_iff_false in Hord. rewrite comp_spec in Hord.
    split.
    + destruct (decide (b.2 <= a.2)); [done|]. exfalso. apply Hord. lia.
    + intros Heq. destruct (String.ltb b.1 a.1) eqn:Hlt'; [|done].
      exfalso. apply Hord. auto.
  - intros Heq Hlt.
    assert (comp a b = true) as Hab by (apply comp_spec; auto).
    destruct (decide (i < j)%nat) as [|Hge]; [done|].
    destruct (decide (i = j)) as [->|Hne].
    + simplify_eq. rewrite string_ltb_leb in Hlt.
      apply negb_true_iff in Hlt.
      pose proof (reflexivity (R:=String.le) a.1) as Hrefl.
      unfold String.le in Hrefl. by rewrite Hlt in Hrefl.
    + assert (j < i)%nat as Hji by lia.
      specialize (Hord _ _ _ _ Hb Ha Hji). congruence.
Qed.

Lemma ranked_order_witness :
  ranked_output 2 [("bar", 2); ("baz", 1); ("foo", 2)] !! 0%nat
    = Some ("bar", 2)
  ∧ ranked_output 2 [("bar", 2); ("baz", 1); ("foo", 2)] !! 1%nat
    = Some ("foo", 2)
  ∧ (0 < 1)%nat.
Proof.
  assert (ranked_output 2 [("bar", 2); ("baz", 1); ("foo", 2)] !! 0%nat
          = Some ("bar", 2)) as Ha by reflexivity.
  assert (ranked_output 2 [("bar", 2); ("baz", 1); ("foo", 2)] !! 1%nat
          = Some ("foo", 2)) as Hb by reflexivity.
  split_and!; [exact Ha|exact Hb|].
  exact (proj2 (ranked_order 2 [("bar", 2); ("baz", 1); ("foo", 2)]
                  0 1 ("bar", 2) ("foo", 2) Ha Hb) eq_refl eq_refl).
Defined.

(** C4. Top-M boundedness. For a sharded table holding any table [m],
    its entries collected in any order, and any [top_m >= 1]: the printed
    sequence has [min (top_m, number of distinct words)] entries, it is in
    rank order, its entries are entries of the table, all those left out
    rank after it, and when there are no more distinct words than [top_m]
    it is the whole table. *)
Theorem top_m_bounded (hash : string → N) (m : gmap string Z) top_m
    (sorted_words : list (string * Z)) :
  1 <= top_m <= INT_MAX →
  sorted_words ≡ₚ flatten_shards (shards_of hash m) →
  Z.of_nat (length (ranked_output top_m sorted_words))
  = Z.min top_m (Z.of_nat (size m))
  ∧ StronglySorted ord (ranked_output top_m sorted_words)
  ∧ (∃ others,
       ranked_output top_m sorted_words ++ others ≡ₚ map_to_list m
       ∧ Forall (λ a, Forall (ord a) others)
           (ranked_output top_m sorted_words))
  ∧ (Z.of_nat (size m) <= top_m →
     ranked_output top_m sorted_words ≡ₚ map_to_list m).
Proof.
  intros Htop Hperm. rewrite flatten_shards_of in Hperm.
  destruct (ranked_output_spec top_m sorted_words)
    as (others & Hp & Hlen & Hs & Hle).
  assert (length sorted_words = size m) as Hsize.
  { by rewrite Hperm, length_map_to_list. }
  assert (Z.of_nat (length (ranked_output top_m sorted_words))
          = Z.min top_m (Z.of_nat (size m))) as Hlen'.
  { rewrite Hlen. unfold count_to_show.
    rewrite size_t_of_int_pos, Hsize by lia. lia. }
  split_and!; [done|done| |].
  - exists others. by rewrite Hp.
  - intros Hall. assert (others = []) as ->.
    { apply Permutation_length in Hp. rewrite length_app in Hp.
      apply length_zero_iff_nil. lia. }
    rewrite (right_id [] (++)) in Hp. by etrans.
Qed.

Lemma top_m_bounded_witness :
  1 <= 5 <= INT_MAX
  ∧ Z.of_nat (length (ranked_output 5
      (flatten_shards (shards_of (λ w, N.of_nat (String.length w))
         {[ "foo" := 3; "bar" := 2; "quux" := 1 ]}))))
    = Z.min 5 (Z.of_nat (size ({[ "foo" := 3; "bar" := 2; "quux" := 1 ]}
                                 : gmap string Z))).
Proof.
  assert (1 <= 5 <= INT_MAX) as Htop by (unfold INT_MAX; lia).
  split; [exact Htop|].
  exact (proj1 (top_m_bounded (λ w, N.of_nat (String.length w))
                  {[ "foo" := 3; "bar" := 2; "quux" := 1 ]} 5 _ Htop
                  (reflexivity _))).
Defined.

(** C5. Merge commutativity. Take two complete runs over the same files
    (the directory listed in any order, with any entries that are not
    regular files), with any numbers of workers and any schedules, that
    is any split of the files among the workers and any order of the
    merges. The table they leave is the same, shard by shard: the count
    of every word, found in the shard its hash selects and in no other,
    is the count one worker reading all the files would have reached; so
    the printed sequences are equal too, in whatever order the entries
    are collected. *)
Theorem merge_commutes (hash : string → N) (open_file : string → option string)
    min_len threads1 threads2 dir1 dir2 err1 err2 schedule1 schedule2 s1 s2 :
  1 <= threads1 → 1 <= threads2 →
  regular_files dir1 ≡ₚ regular_files dir2 →
  run hash open_file min_len schedule1 (initial_state threads1 dir1 err1)
    = Some s1 →
  joined s1 →
  run hash open_file min_len schedule2 (initial_state threads2 dir2 err2)
    = Some s2 →
  joined s2 →
  (∀ word,
     table_count hash (global_counts s1) word
     = tally_files open_file min_len (regular_files dir1) !! word)
  ∧ (∀ k shard word,
       global_counts s1 !! k = Some shard → is_Some (shard !! word) →
       k = get_shard_index hash word)
  ∧ global_counts s1 = global_counts s2
  ∧ (∀ top_m sorted_words1 sorted_words2,
       sorted_words1 ≡ₚ flatten_shards (global_counts s1) →
       sorted_words2 ≡ₚ flatten_shards (global_counts s2) →
       ranked_output top_m sorted_words1 = ranked_output top_m sorted_words2).
Proof.
  intros Ht1 Ht2 Hfiles Hrun1 Hj1 Hrun2 Hj2.
  pose proof (joined_global _ _ _ _ _ _ _ _ Ht1 Hrun1 Hj1) as Hg1.
  pose proof (joined_global _ _ _ _ _ _ _ _ Ht2 Hrun2 Hj2) as Hg2.
  rewrite <- (tally_files_perm _ _ _ _ Hfiles) in Hg2.
  split_and!.
  - intros word. by rewrite Hg1, table_count_shards_of.
  - intros k shard word. rewrite Hg1. apply shards_of_own_shard.
  - congruence.
  - intros top_m v1 v2 Hv1 Hv2. apply ranked_output_perm.
    rewrite Hv1, Hv2. by rewrite Hg1, Hg2.
Qed.

Lemma merge_commutes_witness :
  global_counts (demo_final 1 (reverse demo_dir) demo_schedule1)
  = global_counts (demo_final 2 demo_dir demo_schedule2).
Proof.
  assert (1 <= 1) as Ht1 by lia.
  assert (1 <= 2) as Ht2 by lia.
  assert (joined (demo_final 1 (reverse demo_dir) demo_schedule1)) as Hj1.
  { split; [reflexivity|]. vm_compute. repeat constructor. }
  assert (joined (demo_final 2 demo_dir demo_schedule2)) as Hj2.
  { split; [reflexivity|]. vm_compute. repeat constructor. }
  assert (run demo_hash demo_open 1 demo_schedule1
            (initial_state 1 (reverse demo_dir) None)
          = Some (demo_final 1 (reverse demo_dir) demo_schedule1)) as Hrun1.
  { apply demo_run. vm_compute. eauto. }
  assert (run demo_hash demo_open 1 demo_schedule2
            (initial_state 2 demo_dir None)
          = Some (demo_final 2 demo_dir demo_schedule2)) as Hrun2.
  { apply demo_run. vm_compute. eauto. }
  assert (regular_files (reverse demo_dir) ≡ₚ regular_files demo_dir) as Hfiles.
  { apply (reverse_Permutation ["a.txt"; "gone.txt"; "b.txt"]). }
  exact (proj1 (proj2 (proj2
    (merge_commutes demo_hash demo_open 1 1 2 (reverse demo_dir) demo_dir
       None None demo_schedule1 demo_schedule2 _ _
       Ht1 Ht2 Hfiles Hrun1 Hj1 Hrun2 Hj2)))).
Defined.

(** C6. The contract of [pop]. The paths come out in the order in which
    they went in, over any sequence of pushes, pops and closings (what was
    popped, followed by what is left, is what was there, followed by what
    was pushed), and a [pop] that returns a path returns the front one.
    [pop] returns false exactly when the queue is empty and done, and
    waits exactly when it is empty and not done. [set_done] closes the
    queue, keeps its paths, and changes nothing when called again; on an
    empty queue it turns a waiting [pop] into one that returns false. A
    done queue stays done; once [set_done] has been called, at any point
    of any sequence of operations, no [pop] waits any more, and once the
    queue has been empty after it, every later [pop] returns false at
    once, whatever pops and closings come in between. *)
Theorem pop_contract :
  (∀ ops Q, popped ops Q ++ q (queue_after ops Q) = q Q ++ pushed ops)
  ∧ (∀ Q file_path Q',
       pop Q = PopTrue file_path Q' ↔
       q Q = file_path :: q Q' ∧ producer_done Q' = producer_done Q)
  ∧ (∀ Q, pop Q = PopFalse ↔ q Q = [] ∧ producer_done Q = true)
  ∧ (∀ Q, pop Q = Waits ↔ q Q = [] ∧ producer_done Q = false)
  ∧ (∀ ops Q, producer_done Q = true →
       producer_done (queue_after ops Q) = true)
  ∧ (∀ ops Q, producer_done Q = true → q Q = [] → pushed ops = [] →
       queue_after ops Q = Q ∧ pop (queue_after ops Q) = PopFalse)
  ∧ (∀ Q, producer_done (set_done Q) = true ∧ q (set_done Q) = q Q
          ∧ set_done (set_done Q) = set_done Q)
  ∧ (∀ Q, q Q = [] → pop Q = Waits ∨ pop Q = PopFalse)
  ∧ (∀ Q, q Q = [] → pop (set_done Q) = PopFalse)
  ∧ (∀ ops1 ops2 Q,
       producer_done (queue_after (ops1 ++ DoSetDone :: ops2) Q) = true
       ∧ pop (queue_after (ops1 ++ DoSetDone :: ops2) Q) ≠ Waits)
  ∧ (∀ ops1 ops2 ops3 Q,
       q (queue_after (ops1 ++ DoSetDone :: ops2) Q) = [] →
       pushed ops3 = [] →
       queue_after (ops1 ++ DoSetDone :: ops2 ++ ops3) Q
       = queue_after (ops1 ++ DoSetDone :: ops2) Q
       ∧ pop (queue_after (ops1 ++ DoSetDone :: ops2 ++ ops3) Q) = PopFalse).
Proof.
  assert (∀ ops1 ops2 Q,
            producer_done (queue_after (ops1 ++ DoSetDone :: ops2) Q) = true)
    as Hclosed.
  { intros ops1 ops2 Q. unfold queue_after. rewrite foldl_app. simpl.
    by apply queue_after_closed. }
  split_and!.
  - apply popped_fifo.
  - intros [items closed] file_path [items' closed']. unfold pop. simpl.
    destruct items as [|p rest], closed; split; try done;
      try (by intros [= -> -> ->]); try (by intros [[= -> ->] ->]);
      by intros [[=] _].
  - intros [items closed]. unfold pop. simpl.
    destruct items, closed; split; try done; by intros [[=] ?] || intros [? [=]].
  - intros [items closed]. unfold pop. simpl.
    destruct items, closed; split; try done; by intros [[=] ?] || intros [? [=]].
  - apply queue_after_closed.
  - intros ops Q Hd Hq Hops. rewrite queue_after_drained by done.
    split; [done|]. unfold pop. by rewrite Hq, Hd.
  - done.
  - intros Q Hq. unfold pop. rewrite Hq. destruct (producer_done Q); auto.
  - intros Q Hq. unfold pop. simpl. by rewrite Hq.
  - intros ops1 ops2 Q. split; [apply Hclosed|].
    unfold pop. rewrite Hclosed. by destruct (q _).
  - intros ops1 ops2 ops3 Q Hq Hops.
    assert (queue_after (ops1 ++ DoSetDone :: ops2 ++ ops3) Q
            = queue_after ops3 (queue_after (ops1 ++ DoSetDone :: ops2) Q))
      as ->.
    { unfold queue_after.
      by rewrite <-foldl_app, <-(assoc_L (++)), <-app_comm_cons. }
    rewrite queue_after_drained by (done || apply Hclosed).
    split; [done|]. unfold pop. by rewrite Hq, Hclosed.
Qed.

Lemma pop_contract_witness :
  pop (queue_after ([DoPop] ++ DoSetDone :: [] ++ [DoPop; DoSetDone; DoPop])
         new_queue) = PopFalse
  ∧ pop new_queue = Waits
  ∧ pop (set_done new_queue) = PopFalse
  ∧ popped [DoPush "a"; DoPush "b"; DoPop; DoPush "c"; DoPop; DoSetDone;
            DoPop; DoPop] new_queue = ["a"; "b"; "c"].
Proof.
  split_and!.
  - by apply (proj2 (proj2 (proj2 (proj2 (proj2 (proj2 (proj2 (proj2 (proj2
               (proj2 pop_contract)))))))))
               [DoPop] [] [DoPop; DoSetDone; DoPop] new_queue).
  - reflexivity.
  - by apply (proj1 (proj2 (proj2 (proj2 (proj2 (proj2 (proj2 (proj2 (proj2
               pop_contract)))))))) new_queue).
  - pose proof (proj1 pop_contract
        [DoPush "a"; DoPush "b"; DoPop; DoPush "c"; DoPop; DoSetDone;
         DoPop; DoPop] new_queue) as Hfifo.
    vm_compute in Hfifo. exact Hfifo.
Defined.

(** C7. Skip and continue. A worker that has popped a path that does not
    open makes the three insertions of the diagnostic, which together are
    the line that names the file, and is back at [pop] with its table as
    it was, nothing else changed; other threads may act between its
    steps, and their insertions may then stand between its own. From any
    state of the program the run can be carried on until the workers are
    joined, and no run takes more actions than the weight of the state it
    starts from. And at the end of any complete run the sharded table is
    the one computed from the files that open alone, and every regular
    file that did not open is reported: the three insertions of its
    diagnostic are on [cerr], in their order. *)
Theorem skip_and_continue (hash : string → N)
    (open_file : string → option string) min_len :
  (∀ s i local_counts file_path,
     workers s !! i = Some (Reading local_counts file_path) →
     open_file file_path = None →
     run hash open_file min_len
       [ReadFile i; Write i; Write i; Write i; Write i] s
     = Some (set_worker i (Popping local_counts)
               (write_cerr endl
                  (write_cerr (quoted file_path)
                     (write_cerr "Failed to open file: " s)))))
  ∧ (∀ file_path,
       text (open_failure_insertions file_path) = open_failure file_path)
  ∧ (∀ s, ∃ schedule s',
       run hash open_file min_len schedule s = Some s' ∧ joined s')
  ∧ (∀ schedule s s',
       run hash open_file min_len schedule s = Some s' →
       (length schedule ≤ weight open_file min_len s)%nat)
  ∧ (∀ threads dir err schedule s,
       1 <= threads →
       run hash open_file min_len schedule (initial_state threads dir err)
         = Some s →
       joined s →
       global_counts s
       = shards_of hash
           (tally_files open_file min_len
              (filter (λ p, is_Some (open_file p)) (regular_files dir)))
       ∧ ∀ p, p ∈ regular_files dir → open_file p = None → reported p s).
Proof.
  split_and!.
  - intros s i local_counts file_path Hi Hopen.
    pose proof (lookup_lt_Some _ _ _ Hi) as Hlt.
    assert (∀ s1 w' insertion rest,
              workers s1 !! i = Some w' →
              step hash open_file min_len (Write i)
                (set_worker i (Writing local_counts (insertion :: rest)) s1)
              = Some (set_worker i (Writing local_counts rest)
                        (write_cerr insertion s1))) as Hwrite.
    { intros s1 w' insertion rest Hw'.
      pose proof (lookup_lt_Some _ _ _ Hw'). simpl.
      rewrite list_lookup_insert_eq by done.
      unfold set_worker, write_cerr. simpl.
      by rewrite list_insert_insert_eq. }
    assert (∀ s1 w',
              workers s1 !! i = Some w' →
              step hash open_file min_len (Write i)
                (set_worker i (Writing local_counts []) s1)
              = Some (set_worker i (Popping local_counts) s1)) as Hcontinue.
    { intros s1 w' Hw'. pose proof (lookup_lt_Some _ _ _ Hw'). simpl.
      rewrite list_lookup_insert_eq by done.
      unfold set_worker. simpl. by rewrite list_insert_insert_eq. }
    cbn [run]. simpl step at 1. rewrite Hi, Hopen.
    unfold open_failure_insertions.
    erewrite Hwrite by done. erewrite Hwrite by done.
    erewrite Hwrite by done. by erewrite Hcontinue by done.
  - intros file_path. unfold text, open_failure. simpl.
    by rewrite string_app_nil_r.
  - apply run_completes.
  - intros schedule s s' Hrun.
    pose proof (run_bounded hash open_file min_len _ _ _ Hrun). lia.
  - intros threads dir err schedule s Hthreads Hrun Hjoined. split.
    + rewrite tally_files_readable. by eapply joined_global.
    + by eapply joined_logged.
Qed.

Lemma skip_and_continue_witness :
  flatten_shards (global_counts (demo_final 2 demo_dir demo_schedule2))
  = flatten_shards
      (shards_of demo_hash (tally_files demo_open 1 ["a.txt"; "b.txt"]))
  ∧ reported "gone.txt" (demo_final 2 demo_dir demo_schedule2).
Proof.
  assert (1 <= 2) as Hthreads by lia.
  assert (joined (demo_final 2 demo_dir demo_schedule2)) as Hjoined.
  { split; [reflexivity|]. vm_compute. repeat constructor. }
  assert (run demo_hash demo_open 1 demo_schedule2
            (initial_state 2 demo_dir None)
          = Some (demo_final 2 demo_dir demo_schedule2)) as Hrun.
  { apply demo_run. vm_compute. eauto. }
  destruct (proj2 (proj2 (proj2 (proj2
              (skip_and_continue demo_hash demo_open 1))))
              2 demo_dir None demo_schedule2 _ Hthreads Hrun Hjoined)
    as [Hglobal Hlogged].
  split.
  - rewrite Hglobal. reflexivity.
  - apply Hlogged; [|reflexivity].
    apply list_elem_of_lookup. by exists 1%nat.
Defined.

(** C8. Configuration validation. Whatever the argument vector: a
    configuration that [parse_args] accepts has all three of threads,
    top_m and min_len at least 1, and [main] creates its workers only for
    such a configuration; and when the options parse to a configuration
    in which one of the three is below 1, [parse_args] refuses it with
    the diagnostic "Parameters must be >= 1" and [main] returns 1 after
    the usage line, without having created a thread. *)
Theorem config_validation (is_directory : string → option bool)
    (walk : string → list (string * bool) * option string)
    (argv : list string) :
  (∀ config, parse_args is_directory argv = Parsed config →
     1 <= threads config ∧ 1 <= top_m config ∧ 1 <= min_len config)
  ∧ (∀ config s, main_start is_directory walk argv = Spawned config s →
       1 <= threads config ∧ 1 <= top_m config ∧ 1 <= min_len config
       ∧ length (workers s) = Z.to_nat (threads config))
  ∧ (∀ config,
       (2 ≤ length argv)%nat →
       parse_options (take (length argv - 2) (drop 1 argv))
         (mkConfig 1 10 1
            (default EmptyString (argv !! (length argv - 1)%nat)))
       = Parsed config →
       threads config < 1 ∨ top_m config < 1 ∨ min_len config < 1 →
       parse_args is_directory argv
       = Refused ["Parameters must be >= 1" +:+ endl]
       ∧ main_start is_directory walk argv
         = Returns1 ["Parameters must be >= 1" +:+ endl; usage argv]).
Proof.
  assert (∀ config, parse_args is_directory argv = Parsed config →
            1 <= threads config ∧ 1 <= top_m config ∧ 1 <= min_len config)
    as Haccepted.
  { intros config. unfold parse_args. case_bool_decide; [done|].
    destruct (parse_options _ _) as [config'| |]; [|done..].
    case_bool_decide as Hlow; [done|].
    destruct (is_directory _) as [[]|]; [|done..]. intros [= <-]. lia. }
  split_and!.
  - done.
  - intros config s. unfold main_start.
    destruct (parse_args is_directory argv) as [config'| |] eqn:Hparse;
      [|done..].
    intros [= <- <-]. destruct (Haccepted _ eq_refl) as (? & ? & ?).
    split_and!; [done..|]. simpl. by rewrite length_replicate.
  - intros config Hargc Hopts Hlow.
    assert (parse_args is_directory argv
            = Refused ["Parameters must be >= 1" +:+ endl]) as Hparse.
    { unfold parse_args. rewrite bool_decide_false by lia.
      rewrite Hopts. by rewrite bool_decide_true. }
    split; [done|]. unfold main_start. by rewrite Hparse.
Qed.

Lemma config_validation_witness :
  main_start (λ _, Some true) (λ _, ([], None))
    ["counter"; "--threads"; "4"; "--minlen"; "0"; "logs"]
  = Returns1 ["Parameters must be >= 1" +:+ endl;
              usage ["counter"; "--threads"; "4"; "--minlen"; "0"; "logs"]].
Proof.
  apply (proj2 (proj2 (config_validation (λ _, Some true) (λ _, ([], None))
           ["counter"; "--threads"; "4"; "--minlen"; "0"; "logs"]))
         (mkConfig 4 10 0 "logs")).
  - simpl. lia.
  - by vm_compute.
  - simpl. lia.
Defined.

(** C9. Tokenizing is a function of the line and [min_len] alone: there
    is one list of words that [parse_line_and_count] counts into whatever
    table it is given, so tokenizing the same line a second time counts
    the same words again, and the increase of any word's count, modulo
    2^64, is the same for any two destination tables. *)
Theorem tokenize_deterministic line min_len :
  ∃ ws : list string,
    ∀ m : gmap string Z,
      parse_line_and_count line min_len m = count_tokens ws m
      ∧ parse_line_and_count line min_len (parse_line_and_count line min_len m)
        = count_tokens ws (count_tokens ws m)
      ∧ ∀ (m' : gmap string Z) w,
          (count_of (parse_line_and_count line min_len m) w - count_of m w)
            mod UINT64_MOD
          = (count_of (parse_line_and_count line min_len m') w - count_of m' w)
              mod UINT64_MOD.
Proof.
  exists (scan_emits line min_len EmptyString). intros m.
  unfold parse_line_and_count. split_and!.
  - apply scan_count.
  - by rewrite !scan_count.
  - intros m' w. rewrite !scan_count.
    assert (∀ m0 : gmap string Z,
              (count_of (count_tokens (scan_emits line min_len EmptyString) m0) w
               - count_of m0 w) mod UINT64_MOD
              = Z.of_nat (multiplicity w
                  (list_to_set_disj (scan_emits line min_len EmptyString)
                     : gmultiset string)) mod UINT64_MOD) as Hdiff.
    { intros m0. unfold count_of at 1. rewrite count_tokens_lookup.
      case_decide as Hn.
      - rewrite Hn. fold (count_of m0 w). by rewrite Z.sub_diag.
      - simpl. rewrite Zminus_mod_idemp_l. f_equal. lia. }
    by rewrite !Hdiff.
Qed.

(** C10. The entries of all tables are well formed. In every state the
    program reaches, with [min_len >= 1], every entry of a worker's table
    and of a shard, and so every entry printed, has a word that is not
    empty, is at least [min_len] long and consists of word characters
    none of which is an upper-case letter, and a count below 2^64. The
    count is at least 1 as long as the counter cannot wrap, that is when
    the files hold fewer than 2^64 tokens in all. *)
Theorem entries_well_formed (hash : string → N)
    (open_file : string → option string) min_len threads dir err schedule s :
  1 <= min_len <= INT_MAX →
  run hash open_file min_len schedule (initial_state threads dir err)
    = Some s →
  (∀ table word count,
     table ∈ tables s → table !! word = Some count →
     well_formed_word min_len word ∧ 0 <= count < UINT64_MOD
     ∧ (Z.of_nat (length (regular_files dir ≫= file_emits open_file min_len))
          < UINT64_MOD → 1 <= count))
  ∧ (∀ top_m sorted_words word count,
       sorted_words ≡ₚ flatten_shards (global_counts s) →
       (word, count) ∈ ranked_output top_m sorted_words →
       well_formed_word min_len word ∧ 0 <= count < UINT64_MOD
       ∧ (Z.of_nat (length (regular_files dir ≫= file_emits open_file min_len))
            < UINT64_MOD → 1 <= count)).
Proof.
  intros Hmin Hrun.
  assert (counted hash open_file min_len
            (files_tokens open_file min_len (regular_files dir)) s)
    as [_ _ (G & As & Hglobal & Hgh & Hsum)].
  { eapply counted_run; [apply counted_initial|done]. }
  set (T := files_tokens open_file min_len (regular_files dir)) in *.
  assert (∀ A word count, A ⊆ T → wrap A !! word = Some count →
            well_formed_word min_len word ∧ 0 <= count < UINT64_MOD
            ∧ (Z.of_nat (length (regular_files dir
                                   ≫= file_emits open_file min_len))
                 < UINT64_MOD → 1 <= count)) as Hentry.
  { intros A word count Hsub Hword.
    destruct (wrap_entry _ _ _ _ Hsub Hword) as (Hin & Hrange & Hpos).
    split; [|split; [done|]].
    - apply (files_emits_well_formed open_file min_len (regular_files dir));
        [done|].
      by apply elem_of_list_to_set_disj in Hin.
    - intros Hbound. apply Hpos.
      pose proof (multiplicity_le_length
                    (regular_files dir ≫= file_emits open_file min_len) word).
      unfold T, files_tokens. lia. }
  assert (∀ table word count,
            table ∈ tables s → table !! word = Some count →
            well_formed_word min_len word ∧ 0 <= count < UINT64_MOD
            ∧ (Z.of_nat (length (regular_files dir
                                   ≫= file_emits open_file min_len))
                 < UINT64_MOD → 1 <= count)) as Htables.
  { intros table word count. unfold tables. rewrite elem_of_app.
    intros [(w & -> & Hw)%list_elem_of_fmap|Hshard] Hword.
    - destruct (ghost_table _ _ _ Hgh Hw) as (A & HA & Hsub).
      rewrite HA in Hword. apply (Hentry A); [|done].
      rewrite <- Hsum. intros x. specialize (Hsub x).
      rewrite !multiplicity_disj_union. lia.
    - rewrite Hglobal in Hshard.
      apply list_elem_of_fmap in Hshard as (k & -> & _).
      rewrite lookup_shard_of in Hword. case_decide; [|done].
      apply (Hentry G); [|done]. rewrite <- Hsum. multiset_sub. }
  split; [done|].
  intros top_m sorted_words word count Hwords Hin.
  destruct (ranked_output_spec top_m sorted_words) as (others & Hperm & _).
  assert ((word, count) ∈ flatten_shards (global_counts s)) as Hflat.
  { rewrite <- Hwords, <- Hperm. revert Hin. list_mem. }
  apply list_elem_of_bind in Hflat as (shard & Hentry' & Hshard).
  apply elem_of_map_to_list in Hentry'.
  apply (Htables shard); [|done]. unfold tables. revert Hshard. list_mem.
Qed.

Lemma entries_well_formed_witness :
  1 <= 1 <= INT_MAX
  ∧ Forall (λ e, well_formed_word 1 e.1 ∧ 1 <= e.2)
      (ranked_output 2
         (flatten_shards
            (global_counts (demo_final 2 demo_dir demo_schedule2)))).
Proof.
  assert (1 <= 1 <= INT_MAX) as Hmin by (unfold INT_MAX; lia).
  assert (run demo_hash demo_open 1 demo_schedule2
            (initial_state 2 demo_dir None)
          = Some (demo_final 2 demo_dir demo_schedule2)) as Hrun.
  { apply demo_run. vm_compute. eauto. }
  split; [exact Hmin|].
  apply Forall_forall. intros [word count] Hin.
  destruct (proj2 (entries_well_formed demo_hash demo_open 1 2 demo_dir None
                     demo_schedule2 _ Hmin Hrun)
              2 _ word count (reflexivity _) Hin) as (Hword & _ & Hcount).
  split; [exact Hword|]. apply Hcount. by vm_compute.
Defined.

(** * Further properties

    Of the tokenizer and the reading of files, of the ranking, of the
    states the concurrent program reaches, of the diagnostics, of the
    command line, and of the counter behind the C interface. *)

(** ** The tokenizer and the lines of a file *)

Lemma tolower_idem c : tolower (tolower c) = tolower c.
Proof. destruct c as [[] [] [] [] [] [] [] []]; by vm_compute. Qed.

Lemma is_word_char_tolower c : is_word_char (tolower c) = is_word_char c.
Proof. destruct c as [[] [] [] [] [] [] [] []]; by vm_compute. Qed.

Lemma scan_emits_lowercase line min_len current_word :
  scan_emits (lowercase line) min_len current_word
  = scan_emits line min_len current_word.
Proof.
  revert current_word.
  induction line as [|c rest IH]; intros current_word; [done|].
  simpl. by rewrite is_word_char_tolower, tolower_idem, !IH.
Qed.

(** X1. The tokenizer ignores case: two lines that differ only in the
    case of their letters are counted alike, into any table and for any
    [min_len]. *)
Theorem tokenizer_ignores_case line1 line2 min_len (local_map : gmap string Z) :
  lowercase line1 = lowercase line2 →
  parse_line_and_count line1 min_len local_map
  = parse_line_and_count line2 min_len local_map.
Proof.
  intros Hlow. unfold parse_line_and_count. rewrite !scan_count.
  by rewrite <-(scan_emits_lowercase line1), <-(scan_emits_lowercase line2),
    Hlow.
Qed.

Lemma tokenizer_ignores_case_witness :
  lowercase "Foo BAR foo" = lowercase "fOO bar FOO"
  ∧ parse_line_and_count "Foo BAR foo" 1 ∅
    = parse_line_and_count "fOO bar FOO" 1 ∅.
Proof.
  split; [reflexivity|].
  apply (tokenizer_ignores_case "Foo BAR foo" "fOO bar FOO" 1 ∅).
  reflexivity.
Defined.

Lemma scan_emits_sep line sep rest min_len current_word :
  is_word_char sep = false →
  scan_emits (line +:+ String sep rest) min_len current_word
  = scan_emits line min_len current_word ++ scan_emits rest min_len EmptyString.
Proof.
  intros Hsep. revert current_word.
  induction line as [|c line IH]; intros current_word.
  - simpl. by rewrite Hsep.
  - rewrite string_app_cons. simpl. destruct (is_word_char c); [apply IH|].
    by rewrite IH, (assoc_L (++)).
Qed.

Lemma getline_loop_emits stream line min_len :
  size_t_of_int min_len ≠ 0 →
  getline_loop stream line ≫= (λ l, scan_emits l min_len EmptyString)
  = scan_emits (line +:+ stream) min_len EmptyString.
Proof.
  intros Hmin.
  assert (Hempty : scan_emits EmptyString min_len EmptyString = []).
  { simpl. unfold long_enough. rewrite bool_decide_eq_false_2; [done|].
    unfold size_t_of_int, UINT64_MOD, strlen in *. simpl.
    pose proof (Z.mod_pos_bound min_len (2 ^ 64)). lia. }
  revert line. induction stream as [|c rest IH]; intros line.
  - rewrite string_app_nil_r. simpl. case_bool_decide as Hl.
    + by rewrite Hl, Hempty.
    + csimpl. by rewrite (right_id_L [] (++)).
  - simpl. case_bool_decide as Hc.
    + csimpl. rewrite IH. subst c. by rewrite scan_emits_sep.
    + rewrite IH. by rewrite string_app_assoc.
Qed.

(** X2. The division of a file into lines does not matter: unless
    [min_len] is 0 as a [size_t], reading a file line by line counts
    exactly what one call of the tokenizer on the whole content counts. *)
Theorem lines_do_not_matter content min_len (local_counts : gmap string Z) :
  size_t_of_int min_len ≠ 0 →
  consume_file content min_len local_counts
  = parse_line_and_count content min_len local_counts.
Proof.
  intros Hmin. rewrite consume_file_count. unfold parse_line_and_count.
  rewrite scan_count. unfold content_emits. by rewrite getline_loop_emits.
Qed.

Lemma lines_do_not_matter_witness :
  size_t_of_int 2 ≠ 0
  ∧ consume_file demo_text 2 ∅ = parse_line_and_count demo_text 2 ∅.
Proof.
  split; [by vm_compute|]. apply (lines_do_not_matter demo_text 2 ∅).
  by vm_compute.
Defined.

Lemma filter_bind {A B} (P : B → Prop) `{!∀ x, Decision (P x)}
    (f : A → list B) (l : list A) :
  filter P (l ≫= f) = l ≫= λ x, filter P (f x).
Proof.
  induction l as [|x l IH]; [done|]. csimpl. by rewrite filter_app, IH.
Qed.

Lemma multiplicity_filter_list (P : string → Prop) `{!∀ x, Decision (P x)}
    (l : list string) w :
  multiplicity w (list_to_set_disj (filter P l) : gmultiset string)
  = if decide (P w) then multiplicity w (list_to_set_disj l : gmultiset string)
    else 0%nat.
Proof.
  induction l as [|x l IH]; [by case_decide|].
  rewrite filter_cons. destruct (decide (P x)) as [Hx|Hx].
  - rewrite !list_to_set_disj_cons, !multiplicity_disj_union, IH,
      multiplicity_singleton.
    repeat case_decide; simplify_eq; done.
  - rewrite list_to_set_disj_cons, multiplicity_disj_union, IH,
      multiplicity_singleton.
    repeat case_decide; simplify_eq; done.
Qed.

Lemma files_emits_min_len open_file min_len1 min_len2 files :
  1 <= min_len1 <= min_len2 → min_len2 <= INT_MAX →
  files ≫= file_emits open_file min_len2
  = filter (λ w, min_len2 <= strlen w) (files ≫= file_emits open_file min_len1).
Proof.
  intros Hle Hmax. rewrite filter_bind.
  induction files as [|p files IH]; [done|]. csimpl. rewrite IH. f_equal.
  unfold file_emits. destruct (open_file p) as [content|]; [|done].
  unfold content_emits. rewrite filter_bind.
  induction (getline_loop content EmptyString) as [|line lines IHl]; [done|].
  csimpl. rewrite IHl. f_equal.
  rewrite !scan_emits_tokens by lia. unfold tokens.
  by rewrite list_filter_filter_l by (intros; lia).
Qed.

(** X3. A larger [min_len] only drops the shorter words: the table one
    worker computes from any files with [min_len2] is the table for a
    smaller [min_len1] without the entries of the words shorter than
    [min_len2], the counts of the others unchanged. *)
Theorem min_len_only_drops_short_words (open_file : string → option string)
    min_len1 min_len2 files :
  1 <= min_len1 <= min_len2 → min_len2 <= INT_MAX →
  tally_files open_file min_len2 files
  = filter (λ e, min_len2 <= strlen e.1)
      (tally_files open_file min_len1 files).
Proof.
  intros Hle Hmax. rewrite !tally_files_wrap. unfold files_tokens.
  rewrite (files_emits_min_len _ min_len1 min_len2) by done.
  apply map_eq. intros w. rewrite map_lookup_filter, !lookup_wrap.
  rewrite multiplicity_filter_list.
  repeat case_decide;
    rewrite ?elem_of_list_to_set_disj, ?list_elem_of_filter in *; simpl;
    try rewrite option_guard_True by done;
    try rewrite option_guard_False by tauto; try done; tauto.
Qed.

Lemma min_len_only_drops_short_words_witness :
  (1 <= 1 <= 3 ∧ 3 <= INT_MAX)
  ∧ tally_files demo_open 3 ["a.txt"; "b.txt"]
    = filter (λ e, 3 <= strlen e.1) (tally_files demo_open 1 ["a.txt"; "b.txt"]).
Proof.
  split; [by vm_compute|].
  apply (min_len_only_drops_short_words demo_open 1 3); by vm_compute.
Defined.

Lemma scan_emits_huge line min_len current_word :
  strlen current_word + strlen line < size_t_of_int min_len →
  scan_emits line min_len current_word = [].
Proof.
  revert current_word. induction line as [|c rest IH]; intros current_word Hlen.
  - simpl. unfold long_enough. rewrite bool_decide_eq_false_2; [done|].
    unfold strlen in *. simpl in *. lia.
  - simpl. destruct (is_word_char c).
    + apply IH. rewrite strlen_app. unfold strlen in *. simpl in *. lia.
    + unfold long_enough. rewrite bool_decide_eq_false_2.
      * apply IH. unfold strlen in *. simpl in *. lia.
      * pose proof (strlen_nonneg rest). unfold strlen in *. simpl in *. lia.
Qed.

(** X4. A negative [min_len] counts nothing: the cast to [size_t] makes
    it a length of at least 2^64 - 2^31, which no word of a shorter line
    reaches, so the table is left as it was. *)
Theorem negative_min_len_counts_nothing line min_len
    (local_map : gmap string Z) :
  INT_MIN <= min_len < 0 → strlen line < UINT64_MOD - 2 ^ 31 →
  parse_line_and_count line min_len local_map = local_map.
Proof.
  intros Hmin Hlen. unfold parse_line_and_count.
  rewrite scan_count, scan_emits_huge; [done|].
  unfold size_t_of_int, UINT64_MOD, INT_MIN, strlen in *. simpl.
  rewrite <-(Z_mod_plus_full min_len 1), Z.mod_small; lia.
Qed.

Lemma negative_min_len_counts_nothing_witness :
  (INT_MIN <= -1 < 0 ∧ strlen "foo bar" < UINT64_MOD - 2 ^ 31)
  ∧ parse_line_and_count "foo bar" (-1) ∅ = ∅.
Proof.
  split; [by vm_compute|].
  apply (negative_min_len_counts_nothing "foo bar" (-1) ∅); by vm_compute.
Defined.

Lemma string_forall_app P s t :
  string_forall P (s +:+ t) = string_forall P s && string_forall P t.
Proof.
  induction s as [|c s IH]; [done|].
  rewrite string_app_cons. simpl. by rewrite IH, andb_assoc.
Qed.

Lemma last_or_app d s c rest :
  last_or d (s +:+ String c rest) = last_or c rest.
Proof.
  revert d. induction s as [|e s IH]; intros d; [done|].
  rewrite string_app_cons. simpl. apply IH.
Qed.

Lemma last_or_no_newline d line :
  no_newline line → line ≠ EmptyString → last_or d line ≠ newline.
Proof.
  unfold no_newline. revert d.
  induction line as [|c line IH]; intros d Hline Hne; [done|].
  simpl in *. apply andb_prop in Hline as [Hc Hline].
  destruct line as [|e line]; [|by apply IH].
  simpl. by apply negb_true_iff, bool_decide_eq_false in Hc.
Qed.

Lemma terminated_newline line rest :
  terminated (line +:+ String newline rest)
  = line +:+ String newline (terminated rest).
Proof.
  unfold terminated. rewrite last_or_app.
  case_bool_decide; [done|].
  by rewrite string_app_assoc, string_app_cons.
Qed.

Lemma getline_loop_unlines stream line :
  no_newline line →
  Forall no_newline (getline_loop stream line)
  ∧ unlines (getline_loop stream line) = terminated (line +:+ stream).
Proof.
  revert line. induction stream as [|c rest IH]; intros line Hline.
  - rewrite string_app_nil_r. simpl. case_bool_decide as Hl.
    + subst line. by split; [constructor|].
    + split; [by repeat constructor|]. unfold terminated.
      by rewrite bool_decide_eq_false_2 by by apply last_or_no_newline.
  - simpl. case_bool_decide as Hc.
    + subst c. destruct (IH EmptyString) as [Hall Hjoin]; [done|].
      split; [by constructor|]. simpl.
      by rewrite Hjoin, terminated_newline.
    + destruct (IH (line +:+ String c EmptyString)) as [Hall Hjoin].
      { unfold no_newline. rewrite string_forall_app. simpl.
        rewrite Hline. by rewrite bool_decide_eq_false_2. }
      split; [done|]. by rewrite string_app_assoc in Hjoin.
Qed.

Lemma unlines_cons_inj line1 line2 rest1 rest2 :
  no_newline line1 → no_newline line2 →
  line1 +:+ String newline rest1 = line2 +:+ String newline rest2 →
  line1 = line2 ∧ rest1 = rest2.
Proof.
  unfold no_newline. revert line2.
  induction line1 as [|c line1 IH]; intros [|d line2] H1 H2 Heq;
    simpl in *; rewrite ?string_app_cons in Heq.
  - by injection Heq as ->.
  - injection Heq as <- _. by rewrite bool_decide_eq_true_2 in H2.
  - injection Heq as -> _. by rewrite bool_decide_eq_true_2 in H1.
  - injection Heq as -> Heq.
    apply andb_prop in H1 as [_ H1]. apply andb_prop in H2 as [_ H2].
    by destruct (IH line2 H1 H2 Heq) as [-> ->].
Qed.

Lemma unlines_inj lines1 lines2 :
  Forall no_newline lines1 → Forall no_newline lines2 →
  unlines lines1 = unlines lines2 → lines1 = lines2.
Proof.
  intros Hall1. revert lines2.
  induction Hall1 as [|line1 lines1 H1 _ IH];
    intros lines2 Hall2 Heq; destruct Hall2 as [|line2 lines2 H2 Hall2];
    simpl in Heq.
  - done.
  - by destruct line2.
  - by destruct line1.
  - destruct (unlines_cons_inj _ _ _ _ H1 H2 Heq) as [-> Hrest].
    f_equal. by apply IH.
Qed.

(** X5. The lines a worker reads from a file lose nothing but the
    newlines, and are fixed by that: they are the one list of lines
    without a newline that, each line followed by a newline, gives the
    content of the file, with a newline added at its end exactly when the
    content is not empty and does not end with one. So a newline at the
    end of the file starts no further, empty line. *)
Theorem getline_loses_nothing content lines :
  getline_loop content EmptyString = lines
  ↔ Forall no_newline lines ∧ unlines lines = terminated content.
Proof.
  destruct (getline_loop_unlines content EmptyString) as [Hall Hjoin];
    [done|].
  change (EmptyString +:+ content) with content in Hjoin.
  split.
  - by intros <-.
  - intros [Hall' Hjoin']. apply unlines_inj; [done..|]. congruence.
Qed.

(** ** The ranking *)

(** X6. The comparator given to [std::partial_sort] is a strict total
    order on the (word, count) pairs: irreflexive, asymmetric, transitive,
    and any two different pairs are ordered one way or the other. *)
Theorem comp_strict_total_order :
  (∀ a, comp a a = false)
  ∧ (∀ a b, comp a b = true → comp b a = false)
  ∧ (∀ a b c, comp a b = true → comp b c = true → comp a c = true)
  ∧ (∀ a b, comp a b = false → comp b a = false → a = b).
Proof.
  split_and!.
  - intros a. apply ord_refl.
  - intros a b Hab. destruct (total ord a b) as [H|H]; [done|].
    unfold ord in H. congruence.
  - intros a b c Hab Hbc. destruct (comp a c) eqn:Hac; [done|].
    assert (ord a b) as Hoab.
    { destruct (total ord a b) as [H|H]; [done|]. unfold ord in H. congruence. }
    assert (ord c b) as Hocb by (by trans a).
    unfold ord in Hocb. congruence.
  - intros a b Hab Hba. by apply (anti_symm ord).
Qed.

Lemma take_partial_sort k k' l :
  (k ≤ k')%nat → take k (partial_sort k' l) = take k (partial_sort k l).
Proof.
  revert k' l. induction k as [|k IH]; intros k' l Hk; [done|].
  destruct k' as [|k']; [lia|]. destruct l as [|x l]; [done|].
  simpl. destruct (select_first x l) as [m rest]. simpl.
  f_equal. apply IH. lia.
Qed.

(** X7. Asking for fewer entries gives a prefix: for
    [top_m1 <= top_m2], what is printed for [top_m1] is the first
    [top_m1] entries of what is printed for [top_m2]. *)
Theorem smaller_top_is_a_prefix top_m1 top_m2 (sorted_words : list (string * Z)) :
  0 <= top_m1 <= top_m2 → top_m2 <= INT_MAX →
  ranked_output top_m1 sorted_words
  = take (Z.to_nat top_m1) (ranked_output top_m2 sorted_words).
Proof.
  intros Hle Hmax. unfold ranked_output, count_to_show.
  rewrite !size_t_of_int_pos by lia.
  rewrite take_take.
  set (n := length sorted_words).
  set (c1 := Z.to_nat (top_m1 `min` Z.of_nat n)).
  set (c2 := Z.to_nat (top_m2 `min` Z.of_nat n)).
  assert (c1 ≤ c2)%nat by lia.
  destruct (partial_sort_spec c2 sorted_words)
    as (pre & post & Heq & Hlen & Hperm & _).
  assert (length (partial_sort c2 sorted_words) = n) as Hn.
  { rewrite Heq. by rewrite Hperm. }
  rewrite <-(take_partial_sort c1 c2) by done.
  destruct (decide (Z.to_nat top_m1 ≤ n)%nat).
  - f_equal. lia.
  - replace (Z.to_nat top_m1 `min` c2)%nat with c2 by lia.
    replace c1 with n by lia. by replace c2 with n by lia.
Qed.

Lemma smaller_top_is_a_prefix_witness :
  (0 <= 1 <= 2 ∧ 2 <= INT_MAX)
  ∧ ranked_output 1 [("bar", 2); ("baz", 1); ("foo", 3)]
    = take (Z.to_nat 1) (ranked_output 2 [("bar", 2); ("baz", 1); ("foo", 3)]).
Proof.
  split; [by vm_compute|].
  apply (smaller_top_is_a_prefix 1 2); by vm_compute.
Defined.

Lemma NoDup_ranked_output top_m (m : gmap string Z) sorted_words :
  sorted_words ≡ₚ map_to_list m →
  NoDup (ranked_output top_m sorted_words).*1.
Proof.
  intros Hperm.
  destruct (ranked_output_spec top_m sorted_words) as (post & Hout & _).
  assert (NoDup ((ranked_output top_m sorted_words ++ post).*1)) as Hnd.
  { rewrite Hout, Hperm. apply NoDup_fst_map_to_list. }
  rewrite fmap_app in Hnd. by apply NoDup_app in Hnd as [? _].
Qed.

(** ** The states the program reaches *)

Lemma demo_schedule2_run :
  run demo_hash demo_open 1 demo_schedule2 (initial_state 2 demo_dir None)
  = Some (demo_final 2 demo_dir demo_schedule2).
Proof. apply demo_run. vm_compute. eauto. Qed.

Lemma demo_schedule2_joined : joined (demo_final 2 demo_dir demo_schedule2).
Proof. split; [reflexivity|]. vm_compute. repeat constructor. Qed.

Lemma demo_prefix_run :
  run demo_hash demo_open 1 demo_prefix (initial_state 2 demo_dir None)
  = Some (demo_final 2 demo_dir demo_prefix).
Proof. apply demo_run. vm_compute. eauto. Qed.

Section Reachable.

Variable hash : string → N.
Variable open_file : string → option string.
Variable min_len : Z.

Local Abbreviation step := (step hash open_file min_len).
Local Abbreviation run := (run hash open_file min_len).

Lemma reachable_shards threads dir err schedule s :
  run schedule (initial_state threads dir err) = Some s →
  ∃ m, global_counts s = shards_of hash m.
Proof.
  intros Hrun.
  pose proof (counted_run hash open_file min_len _ _ _ _
                (counted_initial hash open_file min_len threads dir err) Hrun)
    as [_ _ (G & As & HG & _)].
  by exists (wrap G).
Qed.

Lemma input_open_step a s s' :
  (producer_done (queue s) = false → input_open s) →
  step a s = Some s' →
  producer_done (queue s') = false → input_open s'.
Proof.
  unfold input_open. intros Hinv Hstep Hd'. destruct a; simpl in Hstep.
  - destruct (pending s) as [|[path regular] rest] eqn:Hp; simplify_eq.
    simpl in *. apply Hinv. by destruct regular.
  - destruct (pending s) eqn:Hp; [|done].
    destruct (iter_error s); simplify_eq. by apply Hinv.
  - destruct (catching s); simplify_eq. by apply Hinv.
  - destruct (pending s) eqn:Hp; [|done]. destruct (iter_error s); [done|].
    destruct (catching s); [|done].
    destruct (producer_done (queue s)); simplify_eq.
  - destruct (workers s !! i) as [[local_counts| | | |]|] eqn:Hi; try done.
    unfold pop in Hstep.
    destruct (q (queue s)) as [|file_path rest] eqn:Hq.
    + destruct (producer_done (queue s)) eqn:Hd; simplify_eq. simpl in Hd'.
      congruence.
    + simplify_eq. simpl in *. destruct (Hinv Hd') as [Hg Hw].
      split; [done|]. apply Forall_insert; auto.
  - destruct (workers s !! i) as [[|local_counts file_path| | |]|] eqn:Hi;
      try done.
    destruct (open_file file_path) as [content|]; simplify_eq; simpl in *;
      destruct (Hinv Hd') as [Hg Hw]; (split; [done|]);
      apply Forall_insert; auto.
  - destruct (workers s !! i) as [[| | | |local_counts insertions]|] eqn:Hi;
      try done.
    destruct insertions; simplify_eq; simpl in *;
      destruct (Hinv Hd') as [Hg Hw]; (split; [done|]);
      apply Forall_insert; auto.
  - destruct (workers s !! i) as [[| |unmerged| |]|] eqn:Hi; try done.
    destruct (unmerged !! word) as [count|]; simplify_eq. simpl in *.
    destruct (Hinv Hd') as [_ Hw].
    by destruct (Forall_lookup_1 _ _ _ _ Hw Hi).
  - destruct (workers s !! i) as [[| |unmerged| |]|] eqn:Hi; try done.
    case_bool_decide; simplify_eq. simpl in *.
    destruct (Hinv Hd') as [_ Hw].
    by destruct (Forall_lookup_1 _ _ _ _ Hw Hi).
Qed.

End Reachable.

(** X8. No word is printed twice: in any state the program reaches, so
    at its end, the words of the printed entries are distinct, in whatever
    order the entries of the shards are collected. *)
Theorem printed_words_distinct (hash : string → N)
    (open_file : string → option string) min_len threads dir err schedule s
    top_m sorted_words :
  run hash open_file min_len schedule (initial_state threads dir err)
    = Some s →
  sorted_words ≡ₚ flatten_shards (global_counts s) →
  NoDup (ranked_output top_m sorted_words).*1.
Proof.
  intros Hrun Hwords.
  destruct (reachable_shards hash open_file min_len _ _ _ _ _ Hrun) as [m Hm].
  rewrite Hm, flatten_shards_of in Hwords.
  by eapply NoDup_ranked_output.
Qed.

Lemma printed_words_distinct_witness :
  NoDup (ranked_output 2
           (flatten_shards
              (global_counts (demo_final 2 demo_dir demo_schedule2)))).*1.
Proof.
  exact (printed_words_distinct demo_hash demo_open 1 2 demo_dir None
           demo_schedule2 _ 2 _ demo_schedule2_run (reflexivity _)).
Defined.

(** X9. In every state the program reaches, not only at its end, the
    table has its 16 shards, the index [get_shard_index] computes for a
    word is one of them, and every entry sits in the shard that the hash
    of its word selects. *)
Theorem shards_hold_their_words (hash : string → N)
    (open_file : string → option string) min_len threads dir err schedule s :
  run hash open_file min_len schedule (initial_state threads dir err)
    = Some s →
  length (global_counts s) = N.to_nat NUM_SHARDS
  ∧ (∀ word, (get_shard_index hash word < length (global_counts s))%nat)
  ∧ (∀ k shard word,
       global_counts s !! k = Some shard → is_Some (shard !! word) →
       k = get_shard_index hash word).
Proof.
  intros Hrun.
  destruct (reachable_shards hash open_file min_len _ _ _ _ _ Hrun) as [m Hm].
  rewrite Hm, length_shards_of. split_and!; [done| |].
  - apply get_shard_index_lt.
  - intros k shard word. apply shards_of_own_shard.
Qed.

Lemma shards_hold_their_words_witness :
  length (global_counts (demo_final 2 demo_dir demo_schedule2))
  = N.to_nat NUM_SHARDS
  ∧ (get_shard_index demo_hash "foo"
     < length (global_counts (demo_final 2 demo_dir demo_schedule2)))%nat.
Proof.
  destruct (shards_hold_their_words demo_hash demo_open 1 2 demo_dir None
              demo_schedule2 _ demo_schedule2_run) as (Hlength & Hindex & _).
  split; [exact Hlength|exact (Hindex "foo")].
Defined.

(** X10. Nothing is merged before the input has ended: in every state
    the program reaches in which [main] has not yet called [set_done],
    the sharded table is still empty and every worker is still in its
    loop, at [pop] or with a file. *)
Theorem no_merge_before_set_done (hash : string → N)
    (open_file : string → option string) min_len threads dir err schedule s :
  run hash open_file min_len schedule (initial_state threads dir err)
    = Some s →
  producer_done (queue s) = false →
  global_counts s = replicate (N.to_nat NUM_SHARDS) ∅
  ∧ Forall (λ w, ¬ past_pop w) (workers s).
Proof.
  intros Hrun.
  apply (run_invariant hash open_file min_len
           (λ s, producer_done (queue s) = false → input_open s)
           schedule (initial_state threads dir err) s);
    [by intros; eapply input_open_step| |done].
  intros _. split; [done|]. simpl. apply Forall_replicate. auto.
Qed.

Lemma no_merge_before_set_done_witness :
  global_counts (demo_final 2 demo_dir demo_prefix)
  = replicate (N.to_nat NUM_SHARDS) ∅.
Proof.
  exact (proj1 (no_merge_before_set_done demo_hash demo_open 1 2 demo_dir None
                  demo_prefix _ demo_prefix_run (reflexivity _))).
Defined.

(** ** The diagnostics *)

Lemma elements_list_to_set_disj (l : list string) :
  elements (list_to_set_disj l : gmultiset string) ≡ₚ l.
Proof.
  induction l as [|x l IH];
    [by rewrite list_to_set_disj_nil, gmultiset_elements_empty|].
  by rewrite list_to_set_disj_cons, gmultiset_elements_disj_union,
    gmultiset_elements_singleton, IH.
Qed.

Lemma list_to_set_disj_eq_perm (l1 l2 : list string) :
  list_to_set_disj l1 =@{gmultiset string} list_to_set_disj l2 → l1 ≡ₚ l2.
Proof.
  intros Heq. by rewrite <-(elements_list_to_set_disj l1), Heq,
    elements_list_to_set_disj.
Qed.

Lemma unread_initial threads dir err :
  unread (initial_state threads dir err) = regular_files dir.
Proof.
  unfold unread. simpl.
  assert (replicate (Z.to_nat threads) (Popping ∅) ≫= reading = []) as ->.
  { induction (Z.to_nat threads) as [|n IH]; [done|]. by simpl. }
  by rewrite (right_id_L [] (++)).
Qed.

Lemma text_app l1 l2 : text (l1 ++ l2) = text l1 +:+ text l2.
Proof.
  induction l1 as [|x l1 IH]; [done|].
  simpl. by rewrite IH, string_app_assoc.
Qed.

Lemma text_open_failure file_path :
  text (open_failure_insertions file_path) = open_failure file_path.
Proof. unfold text, open_failure. simpl. by rewrite string_app_nil_r. Qed.

Section Written.

Variable hash : string → N.
Variable open_file : string → option string.
Variable min_len : Z.

Local Abbreviation step := (step hash open_file min_len).
Local Abbreviation run := (run hash open_file min_len).
Local Abbreviation failures := (failures open_file).
Local Abbreviation to_come := (to_come open_file).
Local Abbreviation diagnosed := (diagnosed open_file).
Local Abbreviation single_writer := (single_writer open_file).

Lemma failures_app files1 files2 :
  failures (files1 ++ files2) = failures files1 ++ failures files2.
Proof. apply bind_app. Qed.

Lemma failures_cons file_path files :
  failures (file_path :: files) = failures [file_path] ++ failures files.
Proof. apply (failures_app [file_path]). Qed.

Lemma failures_unreadable file_path :
  open_file file_path = None →
  failures [file_path] = open_failure_insertions file_path.
Proof.
  intros Hopen. unfold failures. csimpl.
  by rewrite bool_decide_eq_true_2, (right_id_L [] (++)).
Qed.

Lemma failures_readable file_path content :
  open_file file_path = Some content → failures [file_path] = [].
Proof.
  intros Hopen. unfold failures. csimpl.
  rewrite bool_decide_eq_false_2; [done|]. by rewrite Hopen.
Qed.

Lemma text_failures files :
  text (failures files)
  = text (open_failure <$> filter (λ p, open_file p = None) files).
Proof.
  induction files as [|p files IH]; [done|].
  rewrite failures_cons, text_app, IH, filter_cons.
  destruct (open_file p) as [content|] eqn:Hopen.
  - rewrite (failures_readable _ _ Hopen). by rewrite decide_False.
  - rewrite (failures_unreadable _ Hopen), text_open_failure.
    by rewrite decide_True.
Qed.

Lemma to_come_nil : to_come [] = ∅.
Proof. done. Qed.

Lemma to_come_app files1 files2 :
  to_come (files1 ++ files2) = to_come files1 ⊎ to_come files2.
Proof.
  unfold to_come. by rewrite failures_app, list_to_set_disj_app.
Qed.

Lemma to_come_cons file_path files :
  to_come (file_path :: files) = to_come [file_path] ⊎ to_come files.
Proof. apply (to_come_app [file_path]). Qed.

Lemma to_come_perm files1 files2 :
  files1 ≡ₚ files2 → to_come files1 = to_come files2.
Proof. intros Hperm. unfold to_come, failures. by rewrite Hperm. Qed.

Lemma to_come_readable file_path content :
  open_file file_path = Some content → to_come [file_path] = ∅.
Proof. intros Hopen. unfold to_come. by rewrite (failures_readable _ _ Hopen). Qed.

Lemma to_come_unreadable file_path :
  open_file file_path = None →
  to_come [file_path] = list_to_set_disj (open_failure_insertions file_path).
Proof. intros Hopen. unfold to_come. by rewrite (failures_unreadable _ Hopen). Qed.

Lemma to_come_insert (ws : list worker) i w w' :
  ws !! i = Some w →
  ∃ F, to_come (ws ≫= reading) = to_come (reading w) ⊎ F
       ∧ to_come (<[i:=w']> ws ≫= reading) = to_come (reading w') ⊎ F.
Proof.
  intros Hi. destruct (reading_insert ws i w w' Hi) as (F & HF & HF').
  exists (to_come F).
  by rewrite (to_come_perm _ _ HF), (to_come_perm _ _ HF'), !to_come_app.
Qed.

Lemma writing_insert (ws : list worker) i w w' :
  ws !! i = Some w →
  ∃ F : gmultiset string,
    list_to_set_disj (ws ≫= writing) = list_to_set_disj (writing w) ⊎ F
    ∧ list_to_set_disj (<[i:=w']> ws ≫= writing)
      = list_to_set_disj (writing w') ⊎ F.
Proof.
  intros Hi. pose proof (lookup_lt_Some _ _ _ Hi) as Hlt.
  exists (list_to_set_disj (take i ws ≫= writing)
          ⊎ list_to_set_disj (drop (S i) ws ≫= writing)).
  split.
  - rewrite <- (take_drop_middle _ _ _ Hi) at 1.
    rewrite bind_app, bind_cons, !list_to_set_disj_app. multiset_eq.
  - rewrite insert_take_drop by done.
    rewrite bind_app, bind_cons, !list_to_set_disj_app. multiset_eq.
Qed.

Ltac split_to_come :=
  repeat (progress rewrite ?to_come_app, ?to_come_nil,
            ?list_to_set_disj_app, ?list_to_set_disj_cons,
            ?list_to_set_disj_nil).

Lemma diagnosed_step T a s s' :
  diagnosed T s → step a s = Some s' → diagnosed T s'.
Proof.
  intros (Hdone & Hcatch & <-) Hstep. unfold diagnosed. destruct a; simpl in Hstep.
  - destruct (pending s) as [|[path regular] rest] eqn:Hp; simplify_eq.
    simpl. split_and!; [by destruct regular|done|].
    unfold unread. simpl. rewrite Hp, regular_files_cons.
    destruct regular; simpl; [|done].
    rewrite (to_come_cons path). split_to_come. multiset_eq.
  - destruct (pending s) eqn:Hp; [|done].
    destruct (iter_error s) eqn:He; simplify_eq. simpl. split_and!.
    + intros Hd. by destruct (Hdone Hd).
    + by intros [? ?].
    + unfold unread. simpl. rewrite Hp, (Hcatch ltac:(eauto)).
      unfold regular_files. simpl. split_to_come. multiset_eq.
  - destruct (catching s) eqn:Hc; simplify_eq. simpl. split_and!.
    + intros Hd. by destruct (Hdone Hd).
    + intros He. by specialize (Hcatch He).
    + unfold unread. simpl. split_to_come. multiset_eq.
  - destruct (pending s) eqn:Hp; [|done].
    destruct (iter_error s) eqn:He; [done|].
    destruct (catching s) eqn:Hc; [|done].
    destruct (producer_done (queue s)); simplify_eq. simpl.
    split_and!; [by auto..|]. unfold unread. simpl. by rewrite He, Hc.
  - destruct (workers s !! i) as [[local_counts| | | |]|] eqn:Hi; try done.
    unfold pop in Hstep.
    destruct (q (queue s)) as [|file_path rest] eqn:Hq.
    + destruct (producer_done (queue s)); simplify_eq. simpl.
      split_and!; [by auto..|].
      destruct (to_come_insert _ _ _ (Merging local_counts) Hi)
        as (F & HF & HF').
      destruct (writing_insert _ _ _ (Merging local_counts) Hi)
        as (W & HW & HW').
      unfold unread. simpl. split_to_come. by rewrite HF, HF', HW, HW'.
    + simplify_eq. simpl. split_and!; [by auto..|].
      destruct (to_come_insert _ _ _ (Reading local_counts file_path) Hi)
        as (F & HF & HF').
      destruct (writing_insert _ _ _ (Reading local_counts file_path) Hi)
        as (W & HW & HW').
      unfold unread. simpl. rewrite Hq. split_to_come.
      rewrite (to_come_cons file_path rest), HF, HF', HW, HW'. simpl.
      split_to_come. multiset_eq.
  - destruct (workers s !! i) as [[|local_counts file_path| | |]|] eqn:Hi;
      try done.
    destruct (open_file file_path) as [content|] eqn:Hopen; simplify_eq.
    + simpl. split_and!; [by auto..|].
      destruct (to_come_insert _ _ _
        (Popping (consume_file content min_len local_counts)) Hi)
        as (F & HF & HF').
      destruct (writing_insert _ _ _
        (Popping (consume_file content min_len local_counts)) Hi)
        as (W & HW & HW').
      unfold unread. simpl. split_to_come. rewrite HF, HF', HW, HW'. simpl.
      rewrite (to_come_readable _ _ Hopen).
      split_to_come. multiset_eq.
    + simpl. split_and!; [by auto..|].
      destruct (to_come_insert _ _ _
        (Writing local_counts (open_failure_insertions file_path)) Hi)
        as (F & HF & HF').
      destruct (writing_insert _ _ _
        (Writing local_counts (open_failure_insertions file_path)) Hi)
        as (W & HW & HW').
      unfold unread. simpl. split_to_come. rewrite HF, HF', HW, HW'. simpl.
      rewrite (to_come_unreadable _ Hopen).
      unfold open_failure_insertions. split_to_come. multiset_eq.
  - destruct (workers s !! i) as [[| | | |local_counts insertions]|] eqn:Hi;
      try done.
    destruct insertions as [|insertion rest]; simplify_eq.
    + simpl. split_and!; [by auto..|].
      destruct (to_come_insert _ _ _ (Popping local_counts) Hi)
        as (F & HF & HF').
      destruct (writing_insert _ _ _ (Popping local_counts) Hi)
        as (W & HW & HW').
      unfold unread. simpl. split_to_come. by rewrite HF, HF', HW, HW'.
    + simpl. split_and!; [by auto..|].
      destruct (to_come_insert _ _ _ (Writing local_counts rest) Hi)
        as (F & HF & HF').
      destruct (writing_insert _ _ _ (Writing local_counts rest) Hi)
        as (W & HW & HW').
      unfold unread. simpl. split_to_come. rewrite HF, HF', HW, HW'. simpl.
      split_to_come. multiset_eq.
  - destruct (workers s !! i) as [[| |unmerged| |]|] eqn:Hi; try done.
    destruct (unmerged !! word) as [count|]; simplify_eq. simpl.
    split_and!; [by auto..|].
    destruct (to_come_insert _ _ _ (Merging (delete word unmerged)) Hi)
      as (F & HF & HF').
    destruct (writing_insert _ _ _ (Merging (delete word unmerged)) Hi)
      as (W & HW & HW').
    unfold unread. simpl. split_to_come. by rewrite HF, HF', HW, HW'.
  - destruct (workers s !! i) as [[| |unmerged| |]|] eqn:Hi; try done.
    case_bool_decide; simplify_eq. simpl. split_and!; [by auto..|].
    destruct (to_come_insert _ _ _ Exited Hi) as (F & HF & HF').
    destruct (writing_insert _ _ _ Exited Hi) as (W & HW & HW').
    unfold unread. simpl. split_to_come. by rewrite HF, HF', HW, HW'.
Qed.

Lemma diagnosed_run threads dir err schedule s :
  run schedule (initial_state threads dir err) = Some s →
  diagnosed (to_come (regular_files dir)
             ⊎ list_to_set_disj (walk_failure err)) s.
Proof.
  intros Hrun.
  apply (run_invariant hash open_file min_len
           (diagnosed (to_come (regular_files dir)
                       ⊎ list_to_set_disj (walk_failure err)))
           schedule (initial_state threads dir err) s);
    [by intros; eapply diagnosed_step| |done].
  split_and!; [done..|]. rewrite unread_initial. simpl.
  assert (replicate (Z.to_nat threads) (Popping ∅) ≫= writing = []) as ->.
  { induction (Z.to_nat threads) as [|n IH]; [done|]. by simpl. }
  split_to_come. multiset_eq.
Qed.

Lemma single_writer_step total a s s' :
  single_writer total s → step a s = Some s' → single_writer total s'.
Proof.
  intros (He & Hc & w & Hw & <-) Hstep. unfold single_writer.
  destruct a; simpl in Hstep.
  - destruct (pending s) as [|[path regular] rest] eqn:Hp; simplify_eq.
    simpl. split_and!; [done..|]. exists w. split; [done|].
    rewrite regular_files_cons. destruct regular; simpl; [|done].
    by rewrite <-!(assoc_L (++)).
  - destruct (pending s); [|done]. by rewrite He in Hstep.
  - by rewrite Hc in Hstep.
  - destruct (pending s) eqn:Hp; [|done]. rewrite He, Hc in Hstep.
    destruct (producer_done (queue s)); simplify_eq. simpl.
    split_and!; [done..|]. exists w. by rewrite Hp.
  - rewrite Hw in Hstep. destruct i as [|i]; [|done]. simpl in Hstep.
    destruct w as [local_counts| | | |]; try done.
    unfold pop in Hstep.
    destruct (q (queue s)) as [|file_path rest] eqn:Hq.
    + destruct (producer_done (queue s)); simplify_eq. simpl.
      split_and!; [done..|]. rewrite ?Hw. eexists. split; [done|].
      simpl. by rewrite Hq.
    + simplify_eq. simpl. split_and!; [done..|]. rewrite ?Hw.
      eexists. split; [done|]. simpl. by rewrite ?Hq.
  - rewrite Hw in Hstep. destruct i as [|i]; [|done]. simpl in Hstep.
    destruct w as [|local_counts file_path| | |]; try done.
    destruct (open_file file_path) as [content|] eqn:Hopen; simplify_eq;
      simpl; (split_and!; [done..|]); rewrite ?Hw; (eexists; split; [done|]);
      simpl; rewrite Hopen.
    + by rewrite bool_decide_eq_false_2.
    + by rewrite bool_decide_eq_true_2.
  - rewrite Hw in Hstep. destruct i as [|i]; [|done]. simpl in Hstep.
    destruct w as [| | | |local_counts insertions]; try done.
    destruct insertions as [|insertion rest]; simplify_eq;
      simpl; (split_and!; [done..|]); rewrite ?Hw; (eexists; split; [done|]);
      simpl; [done|].
    by rewrite <-!(assoc_L (++)).
  - rewrite Hw in Hstep. destruct i as [|i]; [|done]. simpl in Hstep.
    destruct w as [| |unmerged| |]; try done.
    destruct (unmerged !! word); simplify_eq. simpl.
    split_and!; [done..|]. rewrite ?Hw. by eexists.
  - rewrite Hw in Hstep. destruct i as [|i]; [|done]. simpl in Hstep.
    destruct w as [| |unmerged| |]; try done.
    case_bool_decide; simplify_eq. simpl.
    split_and!; [done..|]. rewrite ?Hw. by eexists.
Qed.

Lemma single_writer_run dir schedule s :
  run schedule (initial_state 1 dir None) = Some s →
  single_writer (failures (regular_files dir)) s.
Proof.
  intros Hrun.
  apply (run_invariant hash open_file min_len
           (single_writer (failures (regular_files dir)))
           schedule (initial_state 1 dir None) s);
    [by intros; eapply single_writer_step| |done].
  split_and!; [done..|]. by exists (Popping ∅).
Qed.

End Written.

(** X11. The diagnostics are exact, insertion by insertion. At the end
    of any complete run [cerr] holds, in some order, exactly the
    insertions of the diagnostics: three for each regular file that did
    not open, three for the error that ended the directory walk if there
    was one, and nothing else. With one worker and no such error there is
    a single writer, and [cerr] is then the whole lines, one for each
    file that did not open, in the order of the directory walk. *)
Theorem diagnostics_exact (hash : string → N)
    (open_file : string → option string) min_len threads dir err schedule s :
  1 <= threads →
  run hash open_file min_len schedule (initial_state threads dir err)
    = Some s →
  joined s →
  cerr s ≡ₚ failures open_file (regular_files dir) ++ walk_failure err
  ∧ (threads = 1 → err = None →
     cerr s = failures open_file (regular_files dir)
     ∧ text (cerr s)
       = text (open_failure
                 <$> filter (λ p, open_file p = None) (regular_files dir))).
Proof.
  intros Hthreads Hrun Hjoined.
  assert (unread s = [] ∧ pending s = [] ∧ q (queue s) = []) as (Hunread & Hp & Hq).
  { pose proof (counted_run hash open_file min_len _ _ _ _
                  (counted_initial hash open_file min_len threads dir err)
                  Hrun) as Hcounted.
    assert (workers s ≠ []) as Hne.
    { apply run_workers_length in Hrun. simpl in Hrun.
      rewrite length_replicate in Hrun.
      destruct (workers s); [simpl in Hrun; lia|done]. }
    split; [by eapply (joined_unread hash open_file min_len)|].
    destruct Hcounted as [Hdone Hdrained _], Hjoined as [Hd Hall].
    split; [by apply Hdone|]. apply Hdrained.
    destruct (workers s) as [|w ws]; [done|].
    apply Forall_cons in Hall as [-> _]. by left. }
  assert (workers s ≫= writing = []) as Hwriting.
  { destruct Hjoined as [_ Hall].
    induction Hall as [|w ws -> _ IH]; [done|]. by csimpl. }
  split.
  - destruct (diagnosed_run hash open_file min_len _ _ _ _ _ Hrun)
      as (Hdone & _ & Hsum).
    destruct (Hdone (proj1 Hjoined)) as [He Hc].
    rewrite Hunread, Hwriting, He, Hc in Hsum. simpl in Hsum.
    apply list_to_set_disj_eq_perm.
    rewrite list_to_set_disj_app.
    fold (to_come open_file (regular_files dir)).
    rewrite <-Hsum. unfold to_come, failures. simpl. multiset_eq.
  - intros -> ->.
    destruct (single_writer_run hash open_file min_len _ _ _ Hrun)
      as (_ & _ & w & Hw & Htotal).
    destruct Hjoined as [_ Hall]. rewrite Hw in Hall.
    apply Forall_cons in Hall as [-> _].
    rewrite Hp, Hq in Htotal. simpl in Htotal.
    rewrite (right_id_L [] (++)) in Htotal.
    split; [done|]. rewrite Htotal. apply text_failures.
Qed.

Lemma diagnostics_exact_witness :
  cerr (demo_final 2 demo_unreadable demo_schedule3)
  ≡ₚ failures demo_open (regular_files demo_unreadable) ++ walk_failure None.
Proof.
  assert (1 <= 2) as Hthreads by lia.
  assert (run demo_hash demo_open 1 demo_schedule3
            (initial_state 2 demo_unreadable None)
          = Some (demo_final 2 demo_unreadable demo_schedule3)) as Hrun.
  { apply demo_run. vm_compute. eauto. }
  assert (joined (demo_final 2 demo_unreadable demo_schedule3)) as Hjoined.
  { split; [reflexivity|]. vm_compute. repeat constructor. }
  exact (proj1 (diagnostics_exact demo_hash demo_open 1 2 demo_unreadable None
                  demo_schedule3 _ Hthreads Hrun Hjoined)).
Defined.

Lemma string_app_inj s1 s2 t1 t2 :
  String.length s1 = String.length s2 → s1 +:+ t1 = s2 +:+ t2 →
  s1 = s2 ∧ t1 = t2.
Proof.
  revert s2. induction s1 as [|c s1 IH]; intros [|d s2] Hlen Heq; try done.
  rewrite !string_app_cons in Heq. injection Heq as -> Heq.
  destruct (IH s2) as [-> ->]; [simpl in Hlen; lia|done|done].
Qed.

Lemma string_app_inv_r s1 s2 t : s1 +:+ t = s2 +:+ t → s1 = s2.
Proof.
  intros Heq. refine (proj1 (string_app_inj s1 s2 t t _ Heq)).
  pose proof (f_equal strlen Heq) as Hlen. rewrite !strlen_app in Hlen.
  unfold strlen in Hlen. lia.
Qed.

Lemma escaped_inj s1 s2 : escaped s1 = escaped s2 → s1 = s2.
Proof.
  revert s2. induction s1 as [|c s1 IH]; intros [|d s2]; simpl;
    repeat case_bool_decide; try done; intros Heq; simplify_eq;
    try (f_equal; by apply IH); tauto.
Qed.

(** X12. The diagnostic for a file that does not open names the file:
    two paths have the same line only if they are the same path, whatever
    quotes and backslashes they hold. *)
Theorem diagnostic_names_the_file file_path1 file_path2 :
  open_failure file_path1 = open_failure file_path2 ↔ file_path1 = file_path2.
Proof.
  split; [|by intros ->]. unfold open_failure, quoted. intros Heq.
  apply string_app_inj in Heq as [_ Heq]; [|done].
  apply string_app_inv_r in Heq. injection Heq as Heq.
  by apply string_app_inv_r, escaped_inj in Heq.
Qed.

(** ** The program as a function of the files *)

(** X13. What the program prints is a function of its input. With at
    least one worker, the sequences the program can print, over all
    schedules and all orders of collecting the entries, are exactly one:
    the ranking of the table that a single worker reading all the regular
    files in order computes. *)
Theorem output_is_ranked_tally (hash : string → N)
    (open_file : string → option string) config dir err out :
  1 <= threads config →
  prints hash open_file config dir err out
  ↔ out = ranked_output (top_m config)
            (map_to_list
               (tally_files open_file (min_len config) (regular_files dir))).
Proof.
  intros Hthreads. split.
  - intros (schedule & s & sorted_words & Hrun & Hjoined & Hwords & ->).
    apply ranked_output_perm.
    rewrite (joined_global _ _ _ _ _ _ _ _ Hthreads Hrun Hjoined) in Hwords.
    by rewrite flatten_shards_of in Hwords.
  - intros ->.
    destruct (run_completes hash open_file (min_len config)
                (initial_state (threads config) dir err))
      as (schedule & s & Hrun & Hjoined).
    exists schedule, s, (flatten_shards (global_counts s)).
    split_and!; [done..|].
    apply ranked_output_perm.
    rewrite (joined_global _ _ _ _ _ _ _ _ Hthreads Hrun Hjoined).
    by rewrite flatten_shards_of.
Qed.

Lemma output_is_ranked_tally_witness :
  prints demo_hash demo_open (mkConfig 2 2 1 "logs") demo_dir None
    [("foo", 3); ("bar", 2)].
Proof.
  assert (1 <= threads (mkConfig 2 2 1 "logs")) as Hthreads by (simpl; lia).
  apply (proj2 (output_is_ranked_tally demo_hash demo_open
                  (mkConfig 2 2 1 "logs") demo_dir None _ Hthreads)).
  by vm_compute.
Defined.

(** ** The command line *)

Lemma pair_induction {A} (P : list A → Prop) :
  P [] → (∀ a, P [a]) → (∀ a b l, P l → P (a :: b :: l)) → ∀ l, P l.
Proof.
  intros Hnil Hone Hpair l.
  assert (P l ∧ ∀ a, P (a :: l)) as [? _]; [|done].
  induction l as [|b l [IH1 IH2]]; [by split|]. split; [apply IH2|].
  intros a. by apply Hpair.
Qed.

Lemma stoi_is_int s v : stoi s = Some v → is_int v.
Proof.
  unfold stoi, is_int.
  destruct (match skip_spaces s with
            | String "-" rest => (true, rest)
            | String "+" rest => (false, rest)
            | _ => (false, skip_spaces s)
            end) as [neg s'].
  destruct (leading_digits s' None) as [v'|]; [|done].
  case_bool_decide; [|done]. by intros [= <-].
Qed.

Lemma parse_options_Parsed args config config' :
  parse_options args config = Parsed config' →
  Nat.Even (length args)
  ∧ dir_path config' = dir_path config
  ∧ (is_int (threads config) → is_int (threads config'))
  ∧ (is_int (top_m config) → is_int (top_m config'))
  ∧ (is_int (min_len config) → is_int (min_len config')).
Proof.
  revert config. induction args as [| |arg value args IH] using pair_induction;
    intros config Hparse.
  - simplify_eq/=. split; [by exists 0%nat|done].
  - done.
  - simpl in Hparse.
    assert (∀ c, parse_options args c = Parsed config' →
                 dir_path c = dir_path config →
                 (is_int (threads config) → is_int (threads c)) →
                 (is_int (top_m config) → is_int (top_m c)) →
                 (is_int (min_len config) → is_int (min_len c)) →
                 Nat.Even (length (arg :: value :: args))
                 ∧ dir_path config' = dir_path config
                 ∧ (is_int (threads config) → is_int (threads config'))
                 ∧ (is_int (top_m config) → is_int (top_m config'))
                 ∧ (is_int (min_len config) → is_int (min_len config')))
      as Hnext.
    { intros c Hc Hdir Ht Hm Hl.
      destruct (IH c Hc) as ([n Hn] & Hdir' & Ht' & Hm' & Hl').
      split_and!; [|congruence|auto..].
      exists (S n). simpl. lia. }
    repeat case_bool_decide; try done;
      destruct (stoi value) as [n|] eqn:Hstoi; try done;
      apply stoi_is_int in Hstoi;
      (eapply Hnext; [exact Hparse|simpl; auto..]).
Qed.

(** X14. What [parse_args] accepts: the argument vector has an even
    number of entries, at least two, so every option before the path has
    its value; the directory is the last argument, its status could be
    determined and it is a directory; and the three numbers are in
    1 .. INT_MAX, the range the tokenizer and the ranking are specified
    for. *)
Theorem parse_args_accepts (is_directory : string → option bool) argv config :
  parse_args is_directory argv = Parsed config →
  (2 ≤ length argv)%nat ∧ Nat.Even (length argv)
  ∧ last argv = Some (dir_path config)
  ∧ is_directory (dir_path config) = Some true
  ∧ 1 <= threads config <= INT_MAX
  ∧ 1 <= top_m config <= INT_MAX
  ∧ 1 <= min_len config <= INT_MAX.
Proof.
  unfold parse_args. case_bool_decide as Hargc; [done|].
  destruct (parse_options _ _) as [c| |] eqn:Hparse; try done.
  case_bool_decide as Hlow; [done|].
  destruct (is_directory (dir_path c)) as [[]|] eqn:Hdir; [|done..].
  intros [= <-].
  apply parse_options_Parsed in Hparse
    as ([n Hn] & Hpath & Ht & Hm & Hl). simpl in *.
  rewrite length_take, length_drop in Hn.
  assert (is_int 1 ∧ is_int 10) as [H1 H10] by (by vm_compute).
  specialize (Ht H1). specialize (Hm H10). specialize (Hl H1).
  unfold is_int in *.
  split_and!; try lia; try done.
  - exists (S n). lia.
  - rewrite Hpath, last_lookup.
    replace (pred (length argv)) with (length argv - 1)%nat by lia.
    destruct (argv !! (length argv - 1)%nat) eqn:Hlast; [done|].
    apply lookup_ge_None in Hlast. lia.
Qed.

Lemma parse_args_accepts_witness :
  parse_args (λ p, Some (bool_decide (p = "logs")))
    ["counter"; "--top"; "3"; "--threads"; "4"; "logs"]
  = Parsed (mkConfig 4 3 1 "logs")
  ∧ last ["counter"; "--top"; "3"; "--threads"; "4"; "logs"] = Some "logs".
Proof.
  assert (parse_args (λ p, Some (bool_decide (p = "logs")))
            ["counter"; "--top"; "3"; "--threads"; "4"; "logs"]
          = Parsed (mkConfig 4 3 1 "logs")) as Hparse by reflexivity.
  split; [exact Hparse|].
  exact (proj1 (proj2 (proj2 (parse_args_accepts _ _ _ Hparse)))).
Defined.

Lemma parse_options_pairs args1 args2 config :
  Nat.Even (length args1) →
  parse_options (args1 ++ args2) config
  = match parse_options args1 config with
    | Parsed config' => parse_options args2 config'
    | r => r
    end.
Proof.
  revert config. induction args1 as [| |arg value args1 IH] using pair_induction;
    intros config Heven.
  - done.
  - destruct Heven as [n Hn]. simpl in Hn. lia.
  - assert (Nat.Even (length args1)) as Heven'.
    { destruct Heven as [n Hn]. exists (n - 1)%nat. simpl in Hn. lia. }
    simpl. repeat case_bool_decide; try done;
      destruct (stoi value); try done; by apply IH.
Qed.

(** X15. The options are read from left to right, in pairs: parsing a
    list of options that continues a list of whole pairs is parsing the
    continuation from the configuration the pairs gave, so a later option
    overrides an earlier one, and a refusal or an exception of the first
    part is that of the whole. *)
Theorem parse_options_app args1 args2 config :
  Nat.Even (length args1) →
  parse_options (args1 ++ args2) config
  = match parse_options args1 config with
    | Parsed config' => parse_options args2 config'
    | r => r
    end.
Proof. apply parse_options_pairs. Qed.

Lemma parse_options_app_witness :
  Nat.Even (length ["--threads"; "2"; "--top"; "5"])
  ∧ parse_options (["--threads"; "2"; "--top"; "5"] ++ ["--threads"; "4"])
      (mkConfig 1 10 1 "logs")
    = Parsed (mkConfig 4 5 1 "logs").
Proof.
  assert (Nat.Even (length ["--threads"; "2"; "--top"; "5"])) as Heven.
  { exists 2%nat. reflexivity. }
  split; [exact Heven|].
  rewrite (parse_options_app _ ["--threads"; "4"] (mkConfig 1 10 1 "logs") Heven).
  reflexivity.
Defined.

(** X16. An option in the last place before the path has no value
    to take: when the options before it are accepted, [parse_args]
    refuses the command line and reports the word as an unknown argument,
    be it one of the three option names or not, and whatever the path. *)
Theorem option_without_value_refused (is_directory : string → option bool)
    prog args arg dir config :
  parse_options args (mkConfig 1 10 1 dir) = Parsed config →
  parse_args is_directory (prog :: args ++ [arg; dir])
  = Refused ["Unknown argument: " +:+ arg +:+ String newline EmptyString].
Proof.
  intros Hparse.
  destruct (parse_options_Parsed _ _ _ Hparse) as [Heven _].
  unfold parse_args. rewrite bool_decide_eq_false_2.
  2:{ rewrite length_cons, length_app. simpl. lia. }
  assert (length (prog :: args ++ [arg; dir]) = S (S (S (length args))))
    as ->.
  { rewrite length_cons, length_app. simpl. lia. }
  replace (S (S (S (length args))) - 1)%nat with (S (length args + 1)) by lia.
  replace (S (S (S (length args))) - 2)%nat with (length args + 1)%nat by lia.
  assert ((prog :: args ++ [arg; dir]) !! S (length args + 1)%nat = Some dir)
    as ->.
  { simpl. rewrite lookup_app_r by lia.
    by replace (length args + 1 - length args)%nat with 1%nat by lia. }
  assert (take (length args + 1) (drop 1 (prog :: args ++ [arg; dir]))
          = args ++ [arg]) as ->.
  { simpl. rewrite drop_0, take_app_add'; done. }
  simpl default. rewrite parse_options_pairs, Hparse by done. simpl.
  by repeat case_bool_decide.
Qed.

Lemma option_without_value_refused_witness :
  parse_args (λ _, Some true) ["counter"; "--top"; "3"; "--threads"; "logs"]
  = Refused ["Unknown argument: --threads" +:+ String newline EmptyString].
Proof.
  exact (option_without_value_refused (λ _, Some true) "counter" ["--top"; "3"]
           "--threads" "logs" (mkConfig 1 3 1 "logs") (reflexivity _)).
Defined.

(** ** The counter behind the C interface *)

Lemma store_eq h1 h2 :
  impls h1 = impls h2 → counters h1 = counters h2 → h1 = h2.
Proof. destruct h1, h2. simpl. by intros -> ->. Qed.

Example well_formed_empty : well_formed (mkStore ∅ ∅).
Proof. split; simpl; intros *; rewrite ?lookup_empty; done. Qed.

Lemma counter_get_Some c h v :
  counter_get (Some c) h = Some v ↔
  ∃ impl, counters h !! c = Some impl ∧ impls h !! impl = Some v.
Proof.
  simpl. split.
  - destruct (counters h !! c) as [impl|]; [|done]. simpl.
    destruct (impls h !! impl) eqn:?; [|done]. simpl. intros [= <-]. eauto.
  - intros (impl & -> & Hv). simpl. by rewrite Hv.
Qed.

Lemma well_formed_set_value h impl value_ :
  well_formed h → is_Some (impls h !! impl) → is_int value_ →
  well_formed (set_value impl value_ h).
Proof.
  intros [Hlive Hown Howned Hint] Himpl Hvalue. split; simpl.
  - intros c i Hc. rewrite lookup_insert_is_Some.
    destruct (decide (impl = i)); eauto.
  - done.
  - intros i. rewrite lookup_insert_is_Some. intros [<-|[_ Hi]]; eauto.
  - intros i v. rewrite lookup_insert_Some. intros [[_ <-]|[_ Hi]]; eauto.
Qed.

Lemma set_value_frame h c impl value_ c' :
  well_formed h → counters h !! c = Some impl → c' ≠ c →
  counter_get (Some c') (set_value impl value_ h) = counter_get (Some c') h.
Proof.
  intros Hwf Hc Hne. simpl.
  destruct (counters h !! c') as [impl'|] eqn:Hc'; [|done].
  simpl. rewrite lookup_insert_ne; [done|].
  intros <-. by destruct Hne, (impl_own _ Hwf c c' impl).
Qed.

Lemma counter_call_spec op c h impl value_ :
  well_formed h → counters h !! c = Some impl → impls h !! impl = Some value_ →
  counter_call op (Some c) h
  = if bool_decide (is_int (value_ + delta op))
    then Some (set_value impl (value_ + delta op) h) else None.
Proof.
  intros Hwf Hc Hv. pose proof (value_int _ Hwf _ _ Hv) as Hint.
  unfold is_int, INT_MIN, INT_MAX in *.
  destruct op; simpl; rewrite Hc; simpl; rewrite Hv; simpl;
    unfold CounterImpl.increment, CounterImpl.decrement, INT_MIN, INT_MAX;
    repeat case_bool_decide; try done; lia.
Qed.

Lemma counter_call_live op c h impl value_ :
  counters h !! c = Some impl → impls h !! impl = Some value_ →
  INT_MIN < value_ < INT_MAX →
  counter_call op (Some c) h = Some (set_value impl (value_ + delta op) h).
Proof.
  intros Hc Hv Hint.
  destruct op; simpl; rewrite Hc; simpl; rewrite Hv; simpl;
    unfold CounterImpl.increment, CounterImpl.decrement;
    by rewrite bool_decide_eq_true_2 by lia.
Qed.

Lemma option_bind_Some {A B} (x : A) (f : A → option B) : Some x ≫= f = f x.
Proof. done. Qed.

Lemma demo_new_Counter_fresh : fresh_Counter demo_new_Counter.
Proof.
  intros h. apply (not_elem_of_dom (D:=gset positive)).
  unfold demo_new_Counter. apply is_fresh.
Qed.

Lemma demo_new_CounterImpl_fresh : fresh_CounterImpl demo_new_CounterImpl.
Proof.
  intros h. apply (not_elem_of_dom (D:=gset positive)).
  unfold demo_new_CounterImpl. apply is_fresh.
Qed.

Lemma demo_store_well_formed : well_formed demo_store.
Proof.
  split; unfold demo_store; simpl.
  - intros c impl [-> <-]%lookup_singleton_Some. by rewrite lookup_singleton_eq.
  - by intros c1 c2 impl [<- _]%lookup_singleton_Some
      [<- _]%lookup_singleton_Some.
  - intros impl [v [<- _]%lookup_singleton_Some]. exists 1%positive.
    by rewrite lookup_singleton_eq.
  - intros impl v [_ <-]%lookup_singleton_Some. by vm_compute.
Qed.

(** X17. [counter_create] gives a new counter and [counter_destroy]
    takes it away again. In a well-formed store, whatever addresses [new]
    returns as long as they are free: the pointer is not null and was not
    the address of a counter before, the new counter holds the initial
    value, every other counter holds what it held, the store is well
    formed again, and destroying the new counter gives back the store as
    it was, so nothing leaks. *)
Theorem counter_create_then_destroy
    (new_Counter new_CounterImpl : store → positive) initial_value h :
  fresh_Counter new_Counter → fresh_CounterImpl new_CounterImpl →
  well_formed h → is_int initial_value →
  ∃ c h',
    counter_create new_Counter new_CounterImpl initial_value h = (Some c, h')
    ∧ counters h !! c = None
    ∧ well_formed h'
    ∧ counter_get (Some c) h' = Some initial_value
    ∧ (∀ c', c' ≠ c → counter_get (Some c') h' = counter_get (Some c') h)
    ∧ counter_destroy (Some c) h' = Some h.
Proof.
  intros Hfc Hfi Hwf Hint.
  pose proof (Hfc h) as Hc. pose proof (Hfi h) as Hi.
  eexists _, _. split; [reflexivity|]. split; [done|].
  destruct Hwf as [Hlive Hown Howned Hvalue]. split_and!.
  - split; simpl.
    + intros c impl. rewrite lookup_insert_Some, lookup_insert_is_Some.
      intros [[_ <-]|[_ Hc']]; [by left|]. right. split; [|by eauto].
      intros <-. apply Hlive in Hc'. rewrite Hi in Hc'. by destruct Hc'.
    + intros c1 c2 impl. rewrite !lookup_insert_Some.
      intros [[<- <-]|[? H1]] [[<- ?]|[? H2]]; try done.
      * apply Hlive in H2. rewrite Hi in H2. by destruct H2.
      * subst impl. apply Hlive in H1. rewrite Hi in H1. by destruct H1.
      * eauto.
    + intros impl. rewrite lookup_insert_is_Some.
      intros [<-|[? Himpl]].
      * eexists. apply lookup_insert_eq.
      * destruct (Howned _ Himpl) as [c Hc']. exists c.
        rewrite lookup_insert_ne; [done|]. intros <-. congruence.
    + intros impl v. rewrite lookup_insert_Some.
      intros [[_ <-]|[_ Hv]]; eauto.
  - simpl. rewrite lookup_insert_eq. simpl. by rewrite lookup_insert_eq.
  - intros c' Hne. simpl. rewrite lookup_insert_ne by done.
    destruct (counters h !! c') as [impl'|] eqn:Hc'; [|done]. simpl.
    rewrite lookup_insert_ne; [done|].
    intros <-. apply Hlive in Hc'. rewrite Hi in Hc'. by destruct Hc'.
  - simpl. rewrite lookup_insert_eq. simpl. rewrite lookup_insert_eq. simpl.
    f_equal. apply store_eq; simpl; by rewrite delete_insert_id.
Qed.

Lemma counter_create_then_destroy_witness :
  ∃ c h',
    counter_create demo_new_Counter demo_new_CounterImpl 5 demo_store
    = (Some c, h')
    ∧ counter_get (Some c) h' = Some 5
    ∧ counter_get (Some 1%positive) h' = Some 7
    ∧ counter_destroy (Some c) h' = Some demo_store.
Proof.
  assert (is_int 5) as Hint by (by vm_compute).
  destruct (counter_create_then_destroy demo_new_Counter demo_new_CounterImpl
              5 demo_store demo_new_Counter_fresh demo_new_CounterImpl_fresh
              demo_store_well_formed Hint)
    as (c & h' & Hcreate & Hfresh & _ & Hget & Hframe & Hdestroy).
  exists c, h'. split_and!; [exact Hcreate|exact Hget| |exact Hdestroy].
  rewrite Hframe; [reflexivity|]. intros <-. discriminate Hfresh.
Defined.

(** X18. The counter counts. Any sequence of calls of
    [counter_increment] and [counter_decrement] on a live counter that
    holds [value_] is defined exactly when the value stays an [int] after
    every call; it then leaves the counter at [value_] plus the number of
    increments minus the number of decrements, every other counter as it
    was, no counter created or destroyed, and the store well formed. *)
Theorem counter_counts ops c h value_ :
  well_formed h → counter_get (Some c) h = Some value_ →
  (is_Some (counter_calls ops (Some c) h)
   ↔ ∀ k, is_int (value_ + net (take k ops)))
  ∧ ∀ h', counter_calls ops (Some c) h = Some h' →
      well_formed h'
      ∧ counter_get (Some c) h' = Some (value_ + net ops)
      ∧ counters h' = counters h
      ∧ ∀ c', c' ≠ c → counter_get (Some c') h' = counter_get (Some c') h.
Proof.
  revert h value_. induction ops as [|op ops IH]; intros h value_ Hwf Hget.
  - apply counter_get_Some in Hget as Hc. destruct Hc as (impl & Hc & Hv).
    split.
    + split; [|by eauto]. intros _ k. rewrite take_nil. simpl.
      rewrite Z.add_0_r. by eapply value_int.
    + intros h' [= <-]. simpl net. by rewrite Z.add_0_r.
  - apply counter_get_Some in Hget as Hc. destruct Hc as (impl & Hc & Hv).
    assert (is_Some (impls h !! impl)) as Hlive by eauto.
    assert (counter_calls (op :: ops) (Some c) h
            = if bool_decide (is_int (value_ + delta op))
              then counter_calls ops (Some c)
                     (set_value impl (value_ + delta op) h)
              else None) as ->.
    { simpl counter_calls.
      rewrite (counter_call_spec op c h impl value_) by done.
      by case_bool_decide. }
    assert (net (op :: ops) = delta op + net ops) as -> by done.
    case_bool_decide as Hint.
    + assert (counter_get (Some c) (set_value impl (value_ + delta op) h)
              = Some (value_ + delta op)) as Hget'.
      { apply counter_get_Some. exists impl. split; [done|].
        simpl. apply lookup_insert_eq. }
      destruct (IH (set_value impl (value_ + delta op) h) (value_ + delta op))
        as [Hdef Hres]; [by apply well_formed_set_value|done|].
      split.
      * rewrite Hdef. split.
        -- intros Hall [|k]; simpl.
           ++ rewrite Z.add_0_r. by eapply value_int.
           ++ rewrite Z.add_assoc. apply Hall.
        -- intros Hall k. specialize (Hall (S k)). simpl in Hall.
           by rewrite Z.add_assoc in Hall.
      * intros h' Hh'. destruct (Hres h' Hh') as (Hwf' & Hget'' & Hcs & Hframe).
        split_and!; [done| |done|].
        -- rewrite Hget''. f_equal. lia.
        -- intros c' Hne. rewrite (Hframe c' Hne).
           by eapply set_value_frame.
    + split; [|done]. split; [by intros [? ?]|].
      intros Hall. specialize (Hall 1%nat). simpl in Hall.
      by rewrite Z.add_0_r in Hall.
Qed.

Lemma counter_counts_witness :
  ∃ h',
    counter_calls [Increment; Decrement; Decrement] (Some 1%positive) demo_store
    = Some h'
    ∧ counter_get (Some 1%positive) h' = Some 6.
Proof.
  assert (counter_get (Some 1%positive) demo_store = Some 7) as Hget
    by reflexivity.
  destruct (counter_counts [Increment; Decrement; Decrement] 1%positive
              demo_store 7 demo_store_well_formed Hget) as [Hdef Hres].
  destruct (proj2 Hdef) as [h' Hh'].
  { intros [|[|[|[|k]]]]; by vm_compute. }
  exists h'. split; [exact Hh'|]. exact (proj1 (proj2 (Hres h' Hh'))).
Defined.

(** X19. [counter_destroy] ends the life of the handle. Destroying a
    live counter of a well-formed store is defined, leaves the store well
    formed and every other counter with its value; after it every use of
    the pointer, a second [counter_destroy] included, is undefined. *)
Theorem counter_destroy_ends_the_handle c h :
  well_formed h → is_Some (counters h !! c) →
  ∃ h',
    counter_destroy (Some c) h = Some h'
    ∧ well_formed h'
    ∧ (∀ c', c' ≠ c → counter_get (Some c') h' = counter_get (Some c') h)
    ∧ counter_get (Some c) h' = None
    ∧ counter_increment (Some c) h' = None
    ∧ counter_decrement (Some c) h' = None
    ∧ counter_destroy (Some c) h' = None.
Proof.
  intros Hwf [impl Hc]. destruct (impl_live _ Hwf _ _ Hc) as [v Hv].
  exists (mkStore (delete impl (impls h)) (delete c (counters h))).
  simpl. rewrite Hc. simpl. rewrite Hv. simpl.
  rewrite !lookup_delete_eq. simpl.
  split_and!; try done.
  - destruct Hwf as [Hlive Hown Howned Hvalue]. split; simpl.
    + intros c' impl'. rewrite lookup_delete_Some. intros [Hne Hc'].
      rewrite lookup_delete_is_Some. split; [|by eauto].
      intros <-. by destruct Hne, (Hown c c' impl).
    + intros c1 c2 impl'. rewrite !lookup_delete_Some.
      intros [_ ?] [_ ?]. eauto.
    + intros impl'. rewrite lookup_delete_is_Some. intros [Hne Himpl].
      destruct (Howned _ Himpl) as [c' Hc']. exists c'.
      rewrite lookup_delete_ne; [done|]. intros <-. congruence.
    + intros impl' v'. rewrite lookup_delete_Some. intros [_ ?]. eauto.
  - intros c' Hne. rewrite lookup_delete_ne by done.
    destruct (counters h !! c') as [impl'|] eqn:Hc'; [|done]. simpl.
    rewrite lookup_delete_ne; [done|].
    intros <-. by destruct Hne, (impl_own _ Hwf c c' impl).
Qed.

Lemma counter_destroy_ends_the_handle_witness :
  ∃ h',
    counter_destroy (Some 1%positive) demo_store = Some h'
    ∧ counter_destroy (Some 1%positive) h' = None.
Proof.
  assert (is_Some (counters demo_store !! 1%positive)) as Hlive.
  { exists 1%positive. reflexivity. }
  destruct (counter_destroy_ends_the_handle 1%positive demo_store
              demo_store_well_formed Hlive)
    as (h' & Hdestroy & _ & _ & _ & _ & _ & Hagain).
  exists h'. split; [exact Hdestroy|exact Hagain].
Defined.

(** X20. The C client of the interface prints 12 and then 11, and
    leaves the store exactly as it found it, whatever the store holds and
    whatever free addresses [new] returns. *)
Theorem counter_main_prints (new_Counter new_CounterImpl : store → positive) h :
  fresh_Counter new_Counter → fresh_CounterImpl new_CounterImpl →
  counter_main new_Counter new_CounterImpl h = Some ([12; 11], h).
Proof.
  intros Hc Hi. unfold counter_main, counter_create. cbv beta iota zeta.
  set (c := new_Counter h). set (impl := new_CounterImpl h).
  set (h1 := mkStore (<[impl:=10]> (impls h)) (<[c:=impl]> (counters h))).
  assert (∀ v h', counters (set_value impl v h') = counters h') as Hcs by done.
  assert (∀ v h', impls (set_value impl v h') !! impl = Some v) as Hvs.
  { intros v h'. apply lookup_insert_eq. }
  assert (counters h1 !! c = Some impl) as Hc1 by apply lookup_insert_eq.
  assert (impls h1 !! impl = Some 10) as Hv1 by apply lookup_insert_eq.
  assert (∀ h' v, counters h' !! c = Some impl → impls h' !! impl = Some v →
            INT_MIN < v < INT_MAX →
            counter_increment (Some c) h' = Some (set_value impl (v + 1) h'))
    as Hinc by exact (λ h' v, counter_call_live Increment c h' impl v).
  assert (∀ h' v, counters h' !! c = Some impl → impls h' !! impl = Some v →
            INT_MIN < v < INT_MAX →
            counter_decrement (Some c) h' = Some (set_value impl (v + -1) h'))
    as Hdec by exact (λ h' v, counter_call_live Decrement c h' impl v).
  rewrite (Hinc h1 10) by done.
  rewrite option_bind_Some. cbv beta.
  rewrite (Hinc _ 11) by done.
  rewrite option_bind_Some. cbv beta.
  rewrite (proj2 (counter_get_Some c _ 12)) by (exists impl; done).
  rewrite option_bind_Some. cbv beta.
  rewrite (Hdec _ 12) by done.
  rewrite option_bind_Some. cbv beta.
  rewrite (proj2 (counter_get_Some c _ 11)) by (exists impl; done).
  rewrite option_bind_Some. cbv beta.
  unfold counter_destroy. rewrite !Hcs, Hc1. rewrite option_bind_Some.
  rewrite Hvs, option_bind_Some. rewrite option_bind_Some.
  do 2 f_equal. apply store_eq; simpl.
  - rewrite !insert_insert_eq. apply delete_insert_id, Hi.
  - apply delete_insert_id, Hc.
Qed.

Lemma counter_main_prints_witness :
  counter_main demo_new_Counter demo_new_CounterImpl demo_store
  = Some ([12; 11], demo_store).
Proof.
  exact (counter_main_prints demo_new_Counter demo_new_CounterImpl demo_store
           demo_new_Counter_fresh demo_new_CounterImpl_fresh).
Defined.
